(** * Upgrade of legacy (HCL 1.0) CLI configuration to HCL 2.0 syntax

    A shallow embedding of the Go package [cliconfigupgrade]
    (command/cliconfig/cliconfigupgrade): the ad hoc comment queue of
    comments.go, the comment writers, and the tree upgrader
    [UpgradeOldHCLConfig] / [upgradeBody] / [upgradeArgument] /
    [upgradeNestedBlock] / [upgradeExpressionConstant].

    Go panics are modelled by the [Panic] constructor of [result]; the
    mutable [*hclwrite.Body] and the [*commentQueue] that the Go code passes
    by pointer are threaded explicitly through the functions.

    The packages the upgrader imports (hcl/token, hcl/ast and hcl/parser of
    HCL 1.0, hclwrite of HCL 2.0, cty) are not among the sources; the
    modules [hcl1token], [hcl1ast], [cty] and [hcl2write] give the types
    and methods the upgrader uses from them. *)

From Stdlib Require Import ZArith Ascii String List Sorted Lia.
From stdpp Require Import base option list sorting gmap strings.

Set Warnings "-register-all".
Open Scope string_scope.
Open Scope list_scope.
Open Scope Z_scope.

(** ** Panics and results *)

(** What a Go panic carries.  [PanicMsg] is an explicit [panic(msg)];
    the others are the runtime errors of a failed type assertion [x.(T)],
    of an index outside a slice and of a field read through a nil
    pointer. *)
Inductive panic : Type :=
| PanicMsg (msg : string)
| InterfaceConversion
| IndexOutOfRange
| NilDereference.

(** A computation either returns normally or panics. *)
Inductive result (A : Type) : Type :=
| Ok (a : A)
| Panic (p : panic).
Arguments Ok {A} a.
Arguments Panic {A} p.

#[global] Instance result_ret : MRet result := fun _ a => Ok a.
#[global] Instance result_bind : MBind result := fun _ _ f m =>
  match m with
  | Ok a => f a
  | Panic p => Panic p
  end.

Definition is_panic {A} (r : result A) : Prop := exists p, r = Panic p.

(** Sequential loop over a slice that builds a slice of the same length,
    stopping at the first panic. *)
Definition mapM {A B} (f : A -> result B) : list A -> result (list B) :=
  fix go (l : list A) : result (list B) :=
    match l with
    | [] => Ok []
    | x :: l' => v ← f x; vs ← go l'; Ok (v :: vs)
    end.

(** ** hcl/token: source positions and token values *)

Module hcl1token.

(** Modelled from the spec: [token.Pos] is not among the sources.  A
    position carries a line, a column and a byte offset (and the name of
    the file). *)
Record Pos : Type := mkPos
  { Filename : string; Offset : Z; Line : Z; Column : Z }.

(** The zero value [token.Pos{}]. *)
Definition zero : Pos := mkPos "" 0 0 0.

(** Modelled from the spec: the order of positions is not among the
    sources.  [p.Before(u)] is [u.Offset > p.Offset || u.Line > p.Line]. *)
Definition Before (p u : Pos) : bool :=
  (Offset u >? Offset p) || (Line u >? Line p).

(** Modelled from the spec: [p.After(u)] is
    [u.Offset < p.Offset || u.Line < p.Line]. *)
Definition After (p u : Pos) : bool :=
  (Offset u <? Offset p) || (Line u <? Line p).

(** IEEE-754 binary64 values are carried as their bit pattern. *)
Definition float64 : Type := Z.

(** The dynamically typed result of [Token.Value()], as the type switches
    of the upgrader see it: a [string], an [int], a [float64], a [bool],
    or a value of some other Go type (named by [ty]).  The tokens of hcl
    give a NUMBER literal an [int64], which is [RawOther "int64"] here,
    and never an [int]. *)
Inductive RawValue : Type :=
| RawString (v : string)
| RawInt (v : Z)
| RawFloat64 (v : float64)
| RawBool (v : bool)
| RawOther (ty : string).

(** [token.Token], reduced to its position and to what [Value()]
    returns for it. *)
Record Token : Type := mkToken { TokPos : Pos; Value : RawValue }.

End hcl1token.
Import hcl1token.

#[global] Instance Pos_eq_dec : EqDecision Pos.
Proof. solve_decision. Defined.

#[global] Instance Pos_countable : Countable Pos.
Proof.
  refine (inj_countable'
            (fun p => (Filename p, Offset p, Line p, Column p))
            (fun t => match t with (f, o, l, c) => mkPos f o l c end) _).
  intros []; reflexivity.
Defined.

(** ** hcl/ast: the legacy syntax tree *)

Module hcl1ast.

Record Comment : Type := mkComment { Start : Pos; Text : string }.

Record CommentGroup : Type := mkCommentGroup { List : list Comment }.

Record ObjectKey : Type := mkObjectKey { Token : hcl1token.Token }.

(** Modelled from the spec: the node types of hcl/ast are not among the
    sources.  These are the implementations of the [ast.Node] interface:
    files, object lists, object keys, object items, comments, comment
    groups, literals, lists and objects.  [ObjectList] and [ObjectType]
    hold their [Items]; an [ObjectItem] holds its keys, the position of
    its equals sign ([Assign], the zero position when there is none), a
    [Node] as its [Val], and its lead and line comments. *)
Inductive Node : Type :=
| NodeFile (f : File)
| ObjectList (Items : list ObjectItem)
| NodeObjectKey (k : ObjectKey)
| NodeObjectItem (i : ObjectItem)
| NodeComment (c : Comment)
| NodeCommentGroup (g : CommentGroup)
| LiteralType (tok : hcl1token.Token) (LeadComment LineComment : option CommentGroup)
| ListType (Lbrack Rbrack : Pos) (elems : list Node)
| ObjectType (Lbrace Rbrace : Pos) (Items : list ObjectItem)
with File : Type :=
| mkFile (Node : Node) (Comments : list CommentGroup)
with ObjectItem : Type :=
| mkObjectItem (Keys : list ObjectKey) (Assign : Pos) (Val : Node)
               (LeadComment LineComment : option CommentGroup).

Definition Keys (i : ObjectItem) : list ObjectKey :=
  match i with mkObjectItem k _ _ _ _ => k end.
Definition Assign (i : ObjectItem) : Pos :=
  match i with mkObjectItem _ a _ _ _ => a end.
Definition Val (i : ObjectItem) : Node :=
  match i with mkObjectItem _ _ v _ _ => v end.
Definition LeadComment (i : ObjectItem) : option CommentGroup :=
  match i with mkObjectItem _ _ _ c _ => c end.
Definition LineComment (i : ObjectItem) : option CommentGroup :=
  match i with mkObjectItem _ _ _ _ c => c end.

Definition FileNode (f : File) : Node :=
  match f with mkFile n _ => n end.
Definition Comments (f : File) : list CommentGroup :=
  match f with mkFile _ c => c end.

(** Modelled from the spec: the [Pos()] methods of hcl/ast are not among
    the sources.  [c.Pos()] of a comment group is [c.List[0].Pos()]. *)
Definition CommentGroup_Pos (c : CommentGroup) : result Pos :=
  match List c with
  | [] => Panic IndexOutOfRange
  | c0 :: _ => Ok (Start c0)
  end.

Definition ObjectKey_Pos (k : ObjectKey) : Pos := TokPos (Token k).

(** [o.Pos()] of an object item: the zero position when it has no key,
    the position of its first key otherwise. *)
Definition ObjectItem_Pos (o : ObjectItem) : Pos :=
  match Keys o with
  | [] => hcl1token.zero
  | k :: _ => ObjectKey_Pos k
  end.

(** The [Pos()] method of each node type. *)
Fixpoint Node_Pos (n : Node) : result Pos :=
  match n with
  | NodeFile (mkFile n' _) => Node_Pos n'
  | ObjectList [] => Panic IndexOutOfRange
  | ObjectList (i :: _) => Ok (ObjectItem_Pos i)
  | NodeObjectKey k => Ok (ObjectKey_Pos k)
  | NodeObjectItem i => Ok (ObjectItem_Pos i)
  | NodeComment c => Ok (Start c)
  | NodeCommentGroup g => CommentGroup_Pos g
  | LiteralType tok _ _ => Ok (TokPos tok)
  | ListType lbrack _ _ => Ok lbrack
  | ObjectType lbrace _ _ => Ok lbrace
  end.

End hcl1ast.
Import hcl1ast.

(** ** cty: values of the new syntax *)

Module cty.

Inductive Value : Type :=
| StringVal (v : string)
| NumberIntVal (v : Z)
| NumberFloatVal (v : float64)
| BoolVal (v : bool)
| TupleVal (elems : list Value)
| ObjectVal (attrs : gmap string Value).

End cty.

(** ** hclwrite: the new-syntax document body *)

Module hcl2write.

(** The two [hclsyntax] token types the upgrader writes itself. *)
Inductive TokenType : Type := TokenComment | TokenNewline.

Record Token : Type := mkToken { Type_ : TokenType; Bytes : list Byte.byte }.

Definition Tokens : Type := list Token.

(** Modelled from the spec: the body of hclwrite is not among the
    sources.  A body is the ordered sequence of the constructs put into
    it: attributes, blocks, and raw token runs for comments and
    newlines. *)
Inductive BodyNode : Type :=
| Attribute (name : string) (val : cty.Value)
| Block (typeName : string) (labels : list string) (body : list BodyNode)
| UnstructuredTokens (ts : Tokens).

Definition Body : Type := list BodyNode.

(** [NewEmptyFile().Body()]. *)
Definition empty : Body := [].

Definition AppendUnstructuredTokens (ts : Tokens) (b : Body) : Body :=
  b ++ [UnstructuredTokens ts].

(** [AppendNewline] appends a single newline token. *)
Definition AppendNewline (b : Body) : Body :=
  AppendUnstructuredTokens [mkToken TokenNewline [Byte.x0a]] b.

(** Modelled from the spec: [Body.SetAttributeValue] of hclwrite is not
    among the sources.  Setting a named attribute overwrites the prior
    value of the same name; a name not yet present is appended. *)
Fixpoint SetAttributeValue (name : string) (val : cty.Value) (b : Body) : Body :=
  match b with
  | [] => [Attribute name val]
  | Attribute n v :: b' =>
      if String.eqb n name then Attribute n val :: b'
      else Attribute n v :: SetAttributeValue name val b'
  | x :: b' => x :: SetAttributeValue name val b'
  end.

(** [AppendNewBlock(typeName, labels)] appends a block and hands out its
    body.  Nothing else is written to the outer body while the caller
    fills the new one, so the block is appended here with its finished
    [body]. *)
Definition AppendNewBlock (typeName : string) (labels : list string)
           (body : Body) (b : Body) : Body :=
  b ++ [Block typeName labels body].

(** The attributes set directly in a body, in order. *)
Definition attributes (b : Body) : list (string * cty.Value) :=
  flat_map (fun n => match n with Attribute k v => [(k, v)] | _ => [] end) b.

End hcl2write.

(** ** comments.go: the ad hoc comment queue *)

(** [type commentQueue []*hcl1ast.CommentGroup]. *)
Definition commentQueue : Type := list CommentGroup.

(** The loop of [TakeBeforePos]: the first index whose group lies after
    [toPos], or the length of the queue. *)
Fixpoint TakeBeforePos_index (toPos : Pos) (q : commentQueue) : result nat :=
  match q with
  | [] => Ok 0%nat
  | g :: q' =>
      p ← CommentGroup_Pos g;
      if After p toPos then Ok 0%nat
      else i ← TakeBeforePos_index toPos q'; Ok (S i)
  end.

(** [q.TakeBeforePos(pos)]: the groups returned and the queue left. *)
Definition TakeBeforePos (pos : Pos) (q : commentQueue)
  : result (list CommentGroup * commentQueue) :=
  i ← TakeBeforePos_index pos q;
  if (i =? 0)%nat then Ok ([], q)
  else Ok (firstn i q, skipn i q).

Definition TakeBeforeToken (token : hcl1token.Token) (q : commentQueue)
  : result (list CommentGroup * commentQueue) :=
  TakeBeforePos (TokPos token) q.

Definition TakeBefore (node : Node) (q : commentQueue)
  : result (list CommentGroup * commentQueue) :=
  pos ← Node_Pos node; TakeBeforePos pos q.

Section Walk.
Context {S : Type} (fn : Node -> S -> S).

(** Modelled from the spec: [ast.Walk] is not among the sources.  It
    traverses the full tree once; for a visitor that always continues, as
    the one of [collectAdhocComments], the visitor is run on a node before
    its children, in document order.  The state [S] is what the Go closure
    mutates. *)
Fixpoint Walk (node : Node) (s : S) {struct node} : S :=
  match node with
  | NodeFile f => Walk_File f s
  | ObjectList items =>
      (fix items_loop (l : list ObjectItem) (s : S) : S :=
         match l with
         | [] => s
         | i :: l' => items_loop l' (Walk_ObjectItem i s)
         end) items (fn node s)
  | NodeObjectItem i => Walk_ObjectItem i s
  | ListType _ _ elems =>
      (fix elems_loop (l : list Node) (s : S) : S :=
         match l with
         | [] => s
         | n :: l' => elems_loop l' (Walk n s)
         end) elems (fn node s)
  | ObjectType lb rb items =>
      (fix items_loop (l : list ObjectItem) (s : S) : S :=
         match l with
         | [] => s
         | i :: l' => items_loop l' (Walk_ObjectItem i s)
         end) items (fn (ObjectList items) (fn node s))
  | _ => fn node s
  end
with Walk_File (f : File) (s : S) {struct f} : S :=
  match f with
  | mkFile n _ => Walk n (fn (NodeFile f) s)
  end
with Walk_ObjectItem (i : ObjectItem) (s : S) {struct i} : S :=
  match i with
  | mkObjectItem keys _ val _ _ =>
      Walk val
        (fold_left (fun s k => fn (NodeObjectKey k) s) keys
                   (fn (NodeObjectItem i) s))
  end.
End Walk.

(** Delete from the position-keyed map the position of every comment of
    an attached group. *)
Definition delete_attached (g : option CommentGroup)
           (comments : gmap Pos CommentGroup) : gmap Pos CommentGroup :=
  match g with
  | None => comments
  | Some g => fold_left (fun m c => delete (Start c) m) (List g) comments
  end.

(** The visitor of [collectAdhocComments]. *)
Definition drop_attached (nn : Node) (comments : gmap Pos CommentGroup)
  : gmap Pos CommentGroup :=
  match nn with
  | LiteralType _ lead line =>
      delete_attached line (delete_attached lead comments)
  | NodeObjectItem t =>
      delete_attached (LineComment t) (delete_attached (LeadComment t) comments)
  | _ => comments
  end.

(** [sort.Slice] with a [less] function, as an insertion sort.  (The Go
    sort is not stable; on the positions of one source file, which [less]
    orders totally, every sort returns the same slice.) *)
Section Sort.
Context {A : Type} (less : A -> A -> bool).

Fixpoint sort_insert (x : A) (l : list A) : list A :=
  match l with
  | [] => [x]
  | y :: l' => if less x y then x :: l else y :: sort_insert x l'
  end.

Fixpoint sort_Slice (l : list A) : list A :=
  match l with
  | [] => []
  | x :: l' => sort_insert x (sort_Slice l')
  end.
End Sort.

(** The first loop of [collectAdhocComments]: [comments[c.Pos()] = c]. *)
Fixpoint index_comments (cs : list CommentGroup)
         (comments : gmap Pos CommentGroup) : result (gmap Pos CommentGroup) :=
  match cs with
  | [] => Ok comments
  | c :: cs' => p ← CommentGroup_Pos c; index_comments cs' (<[p := c]> comments)
  end.

(** [collectAdhocComments].  Every group is stored under its own position,
    so the sort compares the keys. *)
Definition collectAdhocComments (f : File) : result commentQueue :=
  comments ← index_comments (Comments f) ∅;
  let comments := Walk drop_attached (NodeFile f) comments in
  if (size comments =? 0)%nat then Ok []
  else
    let ret := map_to_list comments in
    Ok (map snd (sort_Slice (fun a b => Before (fst a) (fst b)) ret)).

(** [hcl1NodeEndPos]: the latest position that can be found in a node. *)
Fixpoint hcl1NodeEndPos (node : Node) : result Pos :=
  match node with
  | NodeObjectItem tn => hcl1NodeEndPos_ObjectItem tn
  | ListType _ rbrack _ => Ok rbrack
  | ObjectType _ rbrace _ => Ok rbrace
  | _ => Node_Pos node
  end
with hcl1NodeEndPos_ObjectItem (tn : ObjectItem) : result Pos :=
  match tn with
  | mkObjectItem _ _ val _ line =>
      match line with
      | Some lc =>
          match List lc with
          | [] => hcl1NodeEndPos val
          | c :: cs => Ok (Start (List.last cs c))
          end
      | None => hcl1NodeEndPos val
      end
  end.

(** ** The comment writers *)

(** The tokens [writeComments] builds for a group: each comment followed by
    a newline. *)
Definition comment_tokens (comments : CommentGroup) : hcl2write.Tokens :=
  flat_map (fun comment =>
              [hcl2write.mkToken hcl2write.TokenComment
                                 (list_byte_of_string (Text comment));
               hcl2write.mkToken hcl2write.TokenNewline [Byte.x0a]])
           (List comments).

(** [writeComments(to, comments)]; [None] is the nil group. *)
Definition writeComments (to : hcl2write.Body) (comments : option CommentGroup)
  : hcl2write.Body :=
  match comments with
  | None => to
  | Some g => hcl2write.AppendUnstructuredTokens (comment_tokens g) to
  end.

Definition writeNewline (to : hcl2write.Body) : hcl2write.Body :=
  hcl2write.AppendNewline to.

(** ** The tree upgrader *)

(** Go's [int] is 64 bits wide here; a difference wraps around. *)
Definition wrap_int (z : Z) : Z := (z + 2 ^ 63) mod 2 ^ 64 - 2 ^ 63.

(** [keys[i].Token.Value().(string)]: the index can be out of range and
    the type assertion can fail. *)
Definition key_string (k : ObjectKey) : result string :=
  match Value (Token k) with
  | RawString s => Ok s
  | _ => Panic InterfaceConversion
  end.

Definition key_name (keys : list ObjectKey) (i : nat) : result string :=
  match nth_error keys i with
  | None => Panic IndexOutOfRange
  | Some k => key_string k
  end.

(** The loop of the [*hcl1ast.ObjectType] case of
    [upgradeExpressionConstant]: [vals[name] = convert(item.Val)] for each
    item in turn, a later item overwriting an earlier one of the same
    name. *)
Definition object_vals (convert : Node -> result cty.Value)
  : list ObjectItem -> gmap string cty.Value -> result (gmap string cty.Value) :=
  fix items_loop (l : list ObjectItem) (vals : gmap string cty.Value) :=
    match l with
    | [] => Ok vals
    | item :: l' =>
        name ← key_name (Keys item) 0;
        v ← convert (Val item);
        items_loop l' (<[name := v]> vals)
    end.

(** [upgradeExpressionConstant]. *)
Fixpoint upgradeExpressionConstant (from : Node) : result cty.Value :=
  match from with
  | LiteralType tok _ _ =>
      match Value tok with
      | RawString v => Ok (cty.StringVal v)
      | RawInt v => Ok (cty.NumberIntVal v)
      | RawFloat64 v => Ok (cty.NumberFloatVal v)
      | RawBool v => Ok (cty.BoolVal v)
      | RawOther ty =>
          Panic (PanicMsg ("cannot derive expression from " ++ ty))
      end
  | ListType _ _ elems =>
      vals ← mapM upgradeExpressionConstant elems;
      Ok (cty.TupleVal vals)
  | ObjectType _ _ items =>
      vals ← object_vals upgradeExpressionConstant items ∅;
      Ok (cty.ObjectVal vals)
  | NodeFile _ => Panic (PanicMsg "cannot derive expression from *ast.File")
  | NodeComment _ => Panic (PanicMsg "cannot derive expression from *ast.Comment")
  | NodeCommentGroup _ =>
      Panic (PanicMsg "cannot derive expression from *ast.CommentGroup")
  | NodeObjectKey _ =>
      Panic (PanicMsg "cannot derive expression from *ast.ObjectKey")
  | NodeObjectItem _ =>
      Panic (PanicMsg "cannot derive expression from *ast.ObjectItem")
  | ObjectList _ =>
      Panic (PanicMsg "unsupported HCL 1.0 node type *ast.ObjectList")
  end.

(** [upgradeArgument]. *)
Definition upgradeArgument (from : ObjectItem) (to : hcl2write.Body)
           (expandEnv : bool) : result hcl2write.Body :=
  name ← key_name (Keys from) 0;
  if expandEnv then
    Panic (PanicMsg "ExpandEnv expression upgrade not yet supported")
  else
    val ← upgradeExpressionConstant (Val from);
    let to := hcl2write.SetAttributeValue name val to in
    Ok (writeComments to (LineComment from)).

(** Did the old HCL 1.0-based parser use the "ExpandEnv" behaviour for an
    argument of this name?  (The [oldDidExpandEnv] variable of
    [upgradeBody].) *)
Definition oldDidExpandEnv (root : bool) (name : string) : bool :=
  if root then
    if String.eqb name "providers" then true
    else if String.eqb name "provisioners" then true
    else if String.eqb name "plugin_cache_dir" then true
    else false
  else false.

Definition is_ObjectType (n : Node) : bool :=
  match n with ObjectType _ _ _ => true | _ => false end.

(** The [blockSyntax] variable of [upgradeBody]: no equals sign or more
    than one key, and forced to true when the value is not an
    [*hcl1ast.ObjectType]. *)
Definition blockSyntax (item : ObjectItem) : bool :=
  let blockSyntax :=
    (Line (Assign item) =? 0) || (1 <? length (Keys item))%nat in
  if negb (is_ObjectType (Val item)) then true else blockSyntax.

(** The loop over the ad hoc groups taken before an item. *)
Definition writeAdhocComments (to : hcl2write.Body) (comments : list CommentGroup)
  : hcl2write.Body :=
  fold_left (fun to group => writeNewline (writeComments to (Some group)))
            comments to.

Section upgradeBody.
(** [upgradeBody] and [upgradeNestedBlock] call each other; the body of
    the former is written here over the latter. *)
Variable upgradeNestedBlock :
  ObjectItem -> hcl2write.Body -> commentQueue ->
  result (hcl2write.Body * commentQueue).
Variable root : bool.

(** One iteration of the loop of [upgradeBody]; [next] is [items[i+1]]
    when there is one. *)
Definition upgradeBody_item (item : ObjectItem) (next : option ObjectItem)
           (to : hcl2write.Body) (adhocComments : commentQueue)
  : result (hcl2write.Body * commentQueue) :=
  '(comments, adhocComments) ← TakeBefore (NodeObjectItem item) adhocComments;
  let to := writeAdhocComments to comments in
  let to := writeComments to (LeadComment item) in
  name ← key_name (Keys item) 0;
  '(to, adhocComments) ←
    (if oldDidExpandEnv root name then
       to ← upgradeArgument item to true; Ok (to, adhocComments)
     else if blockSyntax item then
       upgradeNestedBlock item to adhocComments
     else
       to ← upgradeArgument item to false; Ok (to, adhocComments));
  match next with
  | Some next =>
      thisPos ← hcl1NodeEndPos (NodeObjectItem item);
      let nextPos := ObjectItem_Pos next in
      if wrap_int (Line nextPos - Line thisPos) >? 1
      then Ok (writeNewline to, adhocComments)
      else Ok (to, adhocComments)
  | None => Ok (to, adhocComments)
  end.

Fixpoint upgradeBody_loop (items : list ObjectItem) (to : hcl2write.Body)
         (adhocComments : commentQueue)
  : result (hcl2write.Body * commentQueue) :=
  match items with
  | [] => Ok (to, adhocComments)
  | item :: rest =>
      '(to, adhocComments) ←
        upgradeBody_item item (head rest) to adhocComments;
      upgradeBody_loop rest to adhocComments
  end.
End upgradeBody.

(** [upgradeNestedBlock]. *)
Fixpoint upgradeNestedBlock (from : ObjectItem) (to : hcl2write.Body)
         (adhocComments : commentQueue) {struct from}
  : result (hcl2write.Body * commentQueue) :=
  match from with
  | mkObjectItem keys _ val _ _ =>
      name ← key_name keys 0;
      labels ← mapM key_string (tail keys);
      match val with
      | ObjectType _ _ oldObjectList =>
          '(newBody, adhocComments) ←
            upgradeBody_loop upgradeNestedBlock false oldObjectList
                             hcl2write.empty adhocComments;
          Ok (hcl2write.AppendNewBlock name labels newBody to, adhocComments)
      | _ => Panic InterfaceConversion
      end
  end.

(** [upgradeBody(from, to, adhocComments, root)]. *)
Definition upgradeBody (from : list ObjectItem) (to : hcl2write.Body)
           (adhocComments : commentQueue) (root : bool)
  : result (hcl2write.Body * commentQueue) :=
  upgradeBody_loop upgradeNestedBlock root from to adhocComments.

(** [configNeedsUpgrade]: the heuristic is not implemented. *)
Definition configNeedsUpgrade (old : File) : bool := true.

Section UpgradeOldHCLConfig.
(** The HCL 1.0 parser and the serialiser of hclwrite are libraries. *)
Variable Parse : list Byte.byte -> File + string.
Variable Bytes : hcl2write.Body -> list Byte.byte.

(** [UpgradeOldHCLConfig]. *)
Definition UpgradeOldHCLConfig (old : list Byte.byte) : result (list Byte.byte) :=
  match Parse old with
  | inr err => Ok old
  | inl oldF =>
      if negb (configNeedsUpgrade oldF) then Ok old
      else
        adhocComments ← collectAdhocComments oldF;
        match FileNode oldF with
        | ObjectList oldRootList =>
            '(newBody, _) ←
              upgradeBody oldRootList hcl2write.empty adhocComments true;
            Ok (Bytes newBody)
        | _ => Panic InterfaceConversion
        end
  end.
End UpgradeOldHCLConfig.

(** * Notions used in the statements *)

(** ** Writing the ad hoc groups *)

Definition newline_node : hcl2write.BodyNode :=
  hcl2write.UnstructuredTokens [hcl2write.mkToken hcl2write.TokenNewline [Byte.x0a]].

(** What the loop over the taken groups appends: for each group its token
    run and then a newline. *)
Definition adhoc_nodes (comments : list CommentGroup) : hcl2write.Body :=
  flat_map (fun group =>
              [hcl2write.UnstructuredTokens (comment_tokens group); newline_node])
           comments.

(** The wording of the specification: the separator stands between
    consecutive groups and not after the last one. *)
Fixpoint spec_adhoc_nodes (comments : list CommentGroup) : hcl2write.Body :=
  match comments with
  | [] => []
  | [group] => [hcl2write.UnstructuredTokens (comment_tokens group)]
  | group :: rest =>
      hcl2write.UnstructuredTokens (comment_tokens group)
      :: newline_node :: spec_adhoc_nodes rest
  end.

Definition spec_writeAdhocComments (to : hcl2write.Body)
           (comments : list CommentGroup) : hcl2write.Body :=
  to ++ spec_adhoc_nodes comments.

(** A run of body nodes without any attribute. *)
Definition no_attribute (b : hcl2write.Body) : Prop :=
  Forall (fun n => match n with hcl2write.Attribute _ _ => False | _ => True end) b.

(** ** Attributes of a body *)



(** ** The block structure of a document *)

(** A block with its type, its labels and the blocks nested in it. *)
Inductive BlockTree : Type :=
| BlockNode (typeName : string) (labels : list string) (children : list BlockTree).

Fixpoint node_blocks (n : hcl2write.BodyNode) : list BlockTree :=
  match n with
  | hcl2write.Block t ls body => [BlockNode t ls (flat_map node_blocks body)]
  | _ => []
  end.

(** The blocks of an output body. *)
Definition body_blocks (b : hcl2write.Body) : list BlockTree :=
  flat_map node_blocks b.

(** The items of a list that [upgradeBody] hands to [upgradeNestedBlock]:
    not eligible for substitution, and block syntax. *)
Definition takes_block_path (root : bool) (item : ObjectItem) : bool :=
  match key_name (Keys item) 0 with
  | Ok n => negb (oldDidExpandEnv root n) && blockSyntax item
  | Panic _ => false
  end.

(** The block an item stands for: its first key as the type, the other
    keys as labels, and below it the items of its object that are blocks
    themselves (in a list that is not the root). *)
Fixpoint nested_block_tree (item : ObjectItem) : list BlockTree :=
  match item with
  | mkObjectItem keys _ val _ _ =>
      match key_name keys 0, mapM key_string (tail keys), val with
      | Ok name, Ok labels, ObjectType _ _ items =>
          [BlockNode name labels
             (flat_map (fun i => if takes_block_path false i
                                 then nested_block_tree i else [])
                       items)]
      | _, _, _ => []
      end
  end.

(** The blocks of an input list. *)
Definition items_blocks (root : bool) (items : list ObjectItem) : list BlockTree :=
  flat_map (fun i => if takes_block_path root i then nested_block_tree i else [])
           items.

(** How many levels of blocks are nested. *)
Fixpoint block_depth (t : BlockTree) : nat :=
  match t with
  | BlockNode _ _ children => S (list_max (map block_depth children))
  end.

Definition blocks_depth (l : list BlockTree) : nat :=
  list_max (map block_depth l).

(** The property of [upgradeNestedBlock] that the induction carries. *)
Definition appends_block_tree (item : ObjectItem) : Prop :=
  forall to q to' q',
    upgradeNestedBlock item to q = Ok (to', q') ->
    body_blocks to' = body_blocks to ++ nested_block_tree item.

(** ** Queues of one source file *)

(** Positions taken from one source file: a position further on in the
    bytes is not on an earlier line. *)
Definition lines_follow_offsets (ps : list Pos) : Prop :=
  forall p u, In p ps -> In u ps -> Offset p <= Offset u -> Line p <= Line u.



(** The queue holds groups at the positions [ps], in ascending order. *)
Definition queue_ascending (q : commentQueue) (ps : list Pos) : Prop :=
  mapM CommentGroup_Pos q = Ok ps /\
  StronglySorted (fun a b => Before a b = true) ps.

(** The group lies at or before the cutoff: it is not after it. *)
Definition group_at_or_before (pos : Pos) (g : CommentGroup) : bool :=
  match CommentGroup_Pos g with
  | Ok p => negb (After p pos)
  | Panic _ => false
  end.



(** ** Kinds of panic *)

(** The computation does not end in a [panic] statement with a message
    (it may still end in a runtime error). *)
Definition no_explicit_panic {A} (r : result A) : Prop :=
  forall msg, r <> Panic (PanicMsg msg).

(** The computation does not end in the panic of the unsupported ExpandEnv
    case. *)
Definition no_expandEnv_panic {A} (r : result A) : Prop :=
  r <> Panic (PanicMsg "ExpandEnv expression upgrade not yet supported").

(** ** Documents the upgrader accepts *)

Definition is_Ok {A} (r : result A) : bool :=
  match r with Ok _ => true | Panic _ => false end.

(** An item [upgradeBody] gets through: its name can be read and is not
    eligible for substitution; when it is block syntax its labels can be
    read and its value is an object whose items get through as items of a
    non-root list; otherwise its value converts. *)
Fixpoint upgradable (root : bool) (item : ObjectItem) {struct item} : bool :=
  match item with
  | mkObjectItem keys _ val _ _ =>
      match key_name keys 0 with
      | Ok name =>
          negb (oldDidExpandEnv root name) &&
          (if blockSyntax item then
             is_Ok (mapM key_string (tail keys)) &&
             match val with
             | ObjectType _ _ items => forallb (upgradable false) items
             | _ => false
             end
           else is_Ok (upgradeExpressionConstant val))
      | Panic _ => false
      end
  end.

(** Every group of the queue has a position. *)
Definition queue_positioned (q : commentQueue) : Prop :=
  Forall (fun g => is_Ok (CommentGroup_Pos g) = true) q.


(** * Sample documents *)

Definition sample_pos (offset line column : Z) : Pos :=
  mkPos "cli.tfrc" offset line column.

Definition sample_key (name : string) (p : Pos) : ObjectKey :=
  mkObjectKey (hcl1token.mkToken p (RawString name)).

Definition sample_literal (v : RawValue) (p : Pos) : Node :=
  LiteralType (hcl1token.mkToken p v) None None.

(** [plugin_cache_dir = "/tmp/plugins"] *)
Definition doc_plugin_cache_dir : list ObjectItem :=
  [mkObjectItem [sample_key "plugin_cache_dir" (sample_pos 0 1 1)]
                (sample_pos 17 1 18)
                (sample_literal (RawString "/tmp/plugins") (sample_pos 19 1 20))
                None None].

(** [providers { aws = "${FOO}" }] *)
Definition doc_providers_subst : list ObjectItem :=
  [mkObjectItem [sample_key "providers" (sample_pos 0 1 1)]
                hcl1token.zero
                (ObjectType (sample_pos 10 1 11) (sample_pos 27 1 28)
                   [mkObjectItem [sample_key "aws" (sample_pos 12 1 13)]
                                 (sample_pos 16 1 17)
                                 (sample_literal (RawString "${FOO}") (sample_pos 18 1 19))
                                 None None])
                None None].

(** [disable_checkpoint = true] *)
Definition doc_disable_checkpoint : list ObjectItem :=
  [mkObjectItem [sample_key "disable_checkpoint" (sample_pos 0 1 1)]
                (sample_pos 19 1 20)
                (sample_literal (RawBool true) (sample_pos 21 1 22))
                None None].

(** A parser that knows one document, and one that rejects everything. *)
Definition sample_Parse (items : list ObjectItem) (comments : list CommentGroup)
  : list Byte.byte -> File + string :=
  fun _ => inl (mkFile (ObjectList items) comments).

Definition reject_Parse : list Byte.byte -> File + string :=
  fun _ => inr "syntax error".

(** A serialiser that keeps the comment bytes only. *)
Fixpoint sample_node_bytes (n : hcl2write.BodyNode) : list Byte.byte :=
  match n with
  | hcl2write.UnstructuredTokens ts => flat_map hcl2write.Bytes ts
  | hcl2write.Block _ _ body => flat_map sample_node_bytes body
  | hcl2write.Attribute _ _ => []
  end.

Definition sample_Bytes (b : hcl2write.Body) : list Byte.byte :=
  flat_map sample_node_bytes b.

Definition sample_group (offset line : Z) (text : string) : CommentGroup :=
  mkCommentGroup [mkComment (sample_pos offset line 1) text].

(** [# note] on line 1, then [host "example.com" {}] on line 3. *)
Definition doc_host : list ObjectItem :=
  [mkObjectItem [sample_key "host" (sample_pos 8 3 1);
                 sample_key "example.com" (sample_pos 13 3 6)]
                hcl1token.zero
                (ObjectType (sample_pos 27 3 20) (sample_pos 28 3 21) [])
                None None].

Definition doc_host_queue : commentQueue := [sample_group 0 1 "# note"].



Definition sample_object (line : Z) (key value : string) : Node :=
  ObjectType (sample_pos 0 line 12) (sample_pos 0 line 22)
    [mkObjectItem [sample_key key (sample_pos 0 line 14)] (sample_pos 0 line 16)
                  (sample_literal (RawString value) (sample_pos 0 line 18)) None None].

(** [services = { a = "x" }] and then [services = { a = "y" }] *)
Definition doc_services_twice : list ObjectItem :=
  [mkObjectItem [sample_key "services" (sample_pos 0 1 1)] (sample_pos 9 1 10)
                (sample_object 1 "a" "x") None None;
   mkObjectItem [sample_key "services" (sample_pos 24 2 1)] (sample_pos 33 2 10)
                (sample_object 2 "a" "y") None None].


Definition sample_block (line : Z) (keys : list string) (items : list ObjectItem)
  : ObjectItem :=
  mkObjectItem (map (fun k => sample_key k (sample_pos 0 line 1)) keys)
               hcl1token.zero
               (ObjectType (sample_pos 0 line 40) (sample_pos 0 line 80) items)
               None None.

(** [credentials "a" { helper "b" "c" { args { } } }] *)
Definition doc_nested : list ObjectItem :=
  [sample_block 1 ["credentials"; "a"]
     [sample_block 1 ["helper"; "b"; "c"]
        [sample_block 1 ["args"] []]]].

(** Three groups in a file of five lines. *)
Definition sample_queue : commentQueue :=
  [sample_group 0 1 "# one"; sample_group 20 3 "# two"; sample_group 45 5 "# three"].

(** * Further notions *)

(** ** Comments attached to nodes *)

Definition group_positions (g : option CommentGroup) : list Pos :=
  match g with
  | None => []
  | Some g => map Start (List g)
  end.

(** The positions of the comments of the lead and line groups of every
    object item and every literal of a tree. *)
Fixpoint attached_positions (node : Node) : list Pos :=
  match node with
  | NodeFile (mkFile n _) => attached_positions n
  | ObjectList items => flat_map attached_positions_ObjectItem items
  | NodeObjectItem i => attached_positions_ObjectItem i
  | LiteralType _ lead line => group_positions lead ++ group_positions line
  | ListType _ _ elems => flat_map attached_positions elems
  | ObjectType _ _ items => flat_map attached_positions_ObjectItem items
  | _ => []
  end
with attached_positions_ObjectItem (i : ObjectItem) : list Pos :=
  match i with
  | mkObjectItem _ _ val lead line =>
      group_positions lead ++ group_positions line ++ attached_positions val
  end.

(** [# lead] attached to [host "example.com" {}], and two comments of the
    file: the attached one and one on its own. *)
Definition sample_lead : CommentGroup := sample_group 0 1 "# lead".

Definition sample_file_attached : File :=
  mkFile (ObjectList
            [mkObjectItem [sample_key "host" (sample_pos 7 2 1);
                           sample_key "example.com" (sample_pos 12 2 6)]
                          hcl1token.zero
                          (ObjectType (sample_pos 26 2 20) (sample_pos 27 2 21) [])
                          (Some sample_lead) None])
         [sample_lead; sample_group 40 4 "# on its own"].

(** ** Comment tokens *)

Definition is_comment_token (t : hcl2write.Token) : bool :=
  match hcl2write.Type_ t with
  | hcl2write.TokenComment => true
  | hcl2write.TokenNewline => false
  end.

(** ** Constant values *)

(** The item bears the name [name] as its first key. *)
Definition is_named (name : string) (item : ObjectItem) : bool :=
  match key_name (Keys item) 0 with
  | Ok n => String.eqb n name
  | Panic _ => false
  end.

(** The nodes a constant expression is made of: literals of the four
    kinds, lists of constants, and objects whose items have a readable
    first key and a constant value. *)
Fixpoint is_constant (n : Node) : bool :=
  match n with
  | LiteralType tok _ _ =>
      match Value tok with
      | RawOther _ => false
      | _ => true
      end
  | ListType _ _ elems => forallb is_constant elems
  | ObjectType _ _ items =>
      forallb (fun i => is_Ok (key_name (Keys i) 0) && is_constant (Val i)) items
  | _ => false
  end.

(** A value without what is beside its content: positions, comments,
    equals signs, and the keys of an item after the first. *)
Definition erase_key (k : ObjectKey) : ObjectKey :=
  mkObjectKey (hcl1token.mkToken hcl1token.zero (Value (Token k))).

Fixpoint erase (n : Node) : Node :=
  match n with
  | LiteralType tok _ _ =>
      LiteralType (hcl1token.mkToken hcl1token.zero (Value tok)) None None
  | ListType _ _ elems => ListType hcl1token.zero hcl1token.zero (map erase elems)
  | ObjectType _ _ items =>
      ObjectType hcl1token.zero hcl1token.zero (map erase_ObjectItem items)
  | _ => n
  end
with erase_ObjectItem (i : ObjectItem) : ObjectItem :=
  match i with
  | mkObjectItem keys _ val _ _ =>
      mkObjectItem (map erase_key (firstn 1 keys)) hcl1token.zero (erase val)
                   None None
  end.

(** [{ a = "z", b "x" { }, a = [true] }]: the name [a] twice, and an
    item with a label. *)
Definition sample_object_dup : Node :=
  ObjectType (sample_pos 0 1 1) (sample_pos 33 1 34)
    [mkObjectItem [sample_key "a" (sample_pos 2 1 3)] (sample_pos 4 1 5)
                  (sample_literal (RawString "z") (sample_pos 6 1 7)) None None;
     mkObjectItem [sample_key "b" (sample_pos 11 1 12); sample_key "x" (sample_pos 13 1 14)]
                  hcl1token.zero
                  (ObjectType (sample_pos 17 1 18) (sample_pos 19 1 20) []) None None;
     mkObjectItem [sample_key "a" (sample_pos 22 1 23)] (sample_pos 24 1 25)
                  (ListType (sample_pos 26 1 27) (sample_pos 31 1 32)
                            [sample_literal (RawBool true) (sample_pos 27 1 28)])
                  None None].

(** ** What an upgrade writes and takes *)

Fixpoint node_runs (n : hcl2write.BodyNode) : list hcl2write.Tokens :=
  match n with
  | hcl2write.UnstructuredTokens ts => [ts]
  | hcl2write.Block _ _ body => flat_map node_runs body
  | hcl2write.Attribute _ _ => []
  end.

(** The raw token runs of a body, those of its blocks included, in the
    order the file has them. *)
Definition body_runs (b : hcl2write.Body) : list hcl2write.Tokens :=
  flat_map node_runs b.

(** The items of a list that [upgradeBody] hands to [upgradeArgument] as
    plain arguments: not eligible for substitution, and not block
    syntax. *)
Definition takes_argument_path (root : bool) (item : ObjectItem) : bool :=
  match key_name (Keys item) 0 with
  | Ok n => negb (oldDidExpandEnv root n) && negb (blockSyntax item)
  | Panic _ => false
  end.

Definition comment_run (g : option CommentGroup) : list hcl2write.Tokens :=
  match g with
  | None => []
  | Some g => [comment_tokens g]
  end.

(** The runs of the comments attached to the items nested in a block, in
    document order: the lead comment of every item, and the line comment
    of every item that is a plain argument. *)
Fixpoint owned_below (item : ObjectItem) : list hcl2write.Tokens :=
  match item with
  | mkObjectItem _ _ val _ _ =>
      match val with
      | ObjectType _ _ items =>
          flat_map (fun i => comment_run (LeadComment i) ++
                             if takes_block_path false i then owned_below i
                             else if takes_argument_path false i
                                  then comment_run (LineComment i) else [])
                   items
      | _ => []
      end
  end.

Definition owned_runs (root : bool) (items : list ObjectItem)
  : list hcl2write.Tokens :=
  flat_map (fun i => comment_run (LeadComment i) ++
                     if takes_block_path root i then owned_below i
                     else if takes_argument_path root i
                          then comment_run (LineComment i) else [])
           items.

(** The items nested in a block that the upgrade goes through, in
    document order. *)
Fixpoint walked_below (item : ObjectItem) : list ObjectItem :=
  match item with
  | mkObjectItem _ _ val _ _ =>
      match val with
      | ObjectType _ _ items =>
          flat_map (fun i => i :: if takes_block_path false i
                                  then walked_below i else [])
                   items
      | _ => []
      end
  end.

Definition walked_items (root : bool) (items : list ObjectItem) : list ObjectItem :=
  flat_map (fun i => i :: if takes_block_path root i then walked_below i else [])
           items.

(** The group is at or before one of the items. *)
Definition before_an_item (walked : list ObjectItem) (g : CommentGroup) : Prop :=
  exists item, In item walked /\ group_at_or_before (ObjectItem_Pos item) g = true.

(** What an upgrade step did: it took the groups [taken] from the front of
    the queue and appended the runs [added]; the runs of the groups taken
    and the runs [owned] are among the runs added, in order; every group
    taken is at or before one of the items [walked]. *)
Definition upgrade_trace (walked : list ObjectItem) (owned : list hcl2write.Tokens)
           (to : hcl2write.Body) (q : commentQueue)
           (to' : hcl2write.Body) (q' : commentQueue) : Prop :=
  exists taken added,
    q = taken ++ q' /\
    body_runs to' = body_runs to ++ added /\
    map comment_tokens taken `sublist_of` added /\
    owned `sublist_of` added /\
    Forall (before_an_item walked) taken.

(** ** Bodies with unique attribute names *)

Definition attribute_names (b : hcl2write.Body) : list string :=
  map fst (hcl2write.attributes b).

(** No body below the node defines an attribute name twice. *)
Fixpoint node_attributes_unique (n : hcl2write.BodyNode) : Prop :=
  match n with
  | hcl2write.Block _ _ body =>
      List.NoDup (attribute_names body) /\
      fold_right (fun x rest => node_attributes_unique x /\ rest) True body
  | _ => True
  end.

(** Neither the body nor the body of any block in it, at any depth,
    defines an attribute name twice. *)
Definition body_attributes_unique (b : hcl2write.Body) : Prop :=
  List.NoDup (attribute_names b) /\ Forall node_attributes_unique b.

(** [# lead] before [services = { a = "x" } # line], after an ad hoc
    comment, and a comment at the end of the file. *)
Definition doc_commented : list ObjectItem :=
  [mkObjectItem [sample_key "services" (sample_pos 20 3 1)] (sample_pos 29 3 10)
                (sample_object 3 "a" "x")
                (Some (sample_group 10 2 "# lead"))
                (Some (sample_group 42 3 "# line"))].

Definition doc_commented_queue : commentQueue :=
  [sample_group 0 1 "# on its own"; sample_group 60 5 "# at the end"].

(** A file whose comment table has a group without any comment. *)
Definition sample_file_empty_group : File :=
  mkFile (ObjectList []) [mkCommentGroup []].

(** * Package cliconfig: the environment *)

(** ** Strings as Go slices them *)

(** [s[n:]] *)
Fixpoint string_drop (n : nat) (s : string) : string :=
  match n, s with
  | O, _ => s
  | S n', String _ s' => string_drop n' s'
  | S _, EmptyString => EmptyString
  end.

(** [s[:n]] *)
Fixpoint string_take (n : nat) (s : string) : string :=
  match n, s with
  | S n', String c s' => String c (string_take n' s')
  | _, _ => EmptyString
  end.

(** [strings.IndexByte(s, c)]; [None] stands for -1. *)
Fixpoint IndexByte (s : string) (c : Ascii.ascii) : option nat :=
  match s with
  | EmptyString => None
  | String d s' =>
      if Ascii.eqb d c then Some O
      else match IndexByte s' c with
           | Some i => Some (S i)
           | None => None
           end
  end.

(** [strings.HasPrefix(s, prefix)] *)
Fixpoint HasPrefix (s prefix : string) {struct prefix} : bool :=
  match prefix with
  | EmptyString => true
  | String c prefix' =>
      match s with
      | EmptyString => false
      | String d s' => Ascii.eqb d c && HasPrefix s' prefix'
      end
  end.

(** ** environ.go *)

(** [getEnv]. *)
Fixpoint getEnv (environ : list string) (name : string) : string :=
  match environ with
  | [] => ""
  | v :: rest =>
      if (String.length v <=? String.length name)%nat then getEnv rest name
      else if HasPrefix v name &&
              match String.get (String.length name) v with
              | Some c => Ascii.eqb c "="%char
              | None => false
              end
      then string_drop (String.length name + 1) v
      else getEnv rest name
  end.

(** [makeGetenv]. *)
Definition makeGetenv (environ : list string) : string -> string :=
  fun name => getEnv environ name.

(** [environForHCL]. *)
Definition environForHCL (environ : list string) : gmap string cty.Value :=
  fold_left (fun ret e =>
               match IndexByte e "="%char with
               | None => ret
               | Some eq =>
                   <[string_take eq e := cty.StringVal (string_drop (eq + 1) e)]> ret
               end)
            environ ∅.

(** The entry defines the variable [name]: it starts with [name=]. *)
Definition defines (name : string) (e : string) : bool :=
  HasPrefix e (name ++ "=").

(** * Package cliconfig: loading and merging the files *)

(** Modelled from the spec: package tfdiags is not among the sources.  A
    diagnostic made by [tfdiags.Sourceless] has a severity, a summary and
    a detail; [Diagnostics] is a slice of them, [Append] adds at its end
    and [HasErrors] looks for one of severity [Error]. *)
Module tfdiags.
Inductive Severity : Type := Error | Warning.

Record Diagnostic : Type :=
  Sourceless { severity : Severity; summary : string; detail : string }.

Definition Diagnostics : Type := list Diagnostic.

Definition is_error (d : Diagnostic) : bool :=
  match severity d with Error => true | Warning => false end.

Definition HasErrors (diags : Diagnostics) : bool := existsb is_error diags.
End tfdiags.

(** Modelled from the spec: package svchost is not among the sources.
    [svchost.Hostname] is a string type and its [String()] is the string
    itself. *)
Module svchost.
Definition Hostname : Type := string.
Definition String_ (h : Hostname) : string := h.
End svchost.

(** The structs of the package.  The slices and maps of the source hold
    pointers to them, none of which is nil in what the loaders build; the
    model holds the structs.  [interface] stands for Go's [interface{}],
    the type of the decoded values that the merge passes on unread. *)
Record LegacyPluginOverride : Type :=
  mkLegacyPluginOverride { Name : string; Path : string }.

Record Host (interface : Type) : Type :=
  mkHost { Host_ : svchost.Hostname; Services : gmap string interface }.
Arguments mkHost {interface}.
Arguments Host_ {interface}.
Arguments Services {interface}.

Record Credentials (interface : Type) : Type :=
  mkCredentials { Credentials_Host : svchost.Hostname; Raw : gmap string interface }.
Arguments mkCredentials {interface}.
Arguments Credentials_Host {interface}.
Arguments Raw {interface}.

Record CredentialsHelper : Type :=
  mkCredentialsHelper { Type__ : string; Args : list string }.

(** [configFile]. *)
Module configFile.
Record t (interface : Type) : Type := mk
  { Filename : string;
    Providers : list LegacyPluginOverride;
    Provisioners : list LegacyPluginOverride;
    DisableCheckpoint : bool;
    DisableCheckpointSignature : bool;
    PluginCacheDir : string;
    Hosts : list (Host interface);
    Credentials : list (Credentials interface);
    CredentialsHelpers : list CredentialsHelper }.
Arguments mk {interface}.
Arguments Filename {interface}.
Arguments Providers {interface}.
Arguments Provisioners {interface}.
Arguments DisableCheckpoint {interface}.
Arguments DisableCheckpointSignature {interface}.
Arguments PluginCacheDir {interface}.
Arguments Hosts {interface}.
Arguments Credentials {interface}.
Arguments CredentialsHelpers {interface}.
End configFile.

(** [Config]. *)
Module Config.
Record t (interface : Type) : Type := mk
  { Providers : gmap string LegacyPluginOverride;
    Provisioners : gmap string LegacyPluginOverride;
    DisableCheckpoint : bool;
    DisableCheckpointSignature : bool;
    PluginCacheDir : string;
    Hosts : gmap string (Host interface);
    Credentials : gmap string (Credentials interface);
    CredentialsHelper : option CredentialsHelper }.
Arguments mk {interface}.
Arguments Providers {interface}.
Arguments Provisioners {interface}.
Arguments DisableCheckpoint {interface}.
Arguments DisableCheckpointSignature {interface}.
Arguments PluginCacheDir {interface}.
Arguments Hosts {interface}.
Arguments Credentials {interface}.
Arguments CredentialsHelper {interface}.
End Config.

(** ** cliconfig.go *)

(** A loop [for _, x := range xs { m[key(x)] = x }]. *)
Definition set_each {A : Type} (key : A -> string) (xs : list A)
  (m : gmap string A) : gmap string A :=
  fold_left (fun m x => <[key x := x]> m) xs m.

(** The state of the loop of [mergeFiles]: [result], [diags] and
    [credHelperDeclFile]. *)
Definition merge_state (interface : Type) : Type :=
  (Config.t interface * tfdiags.Diagnostics * string)%type.

(** One round of the loop of [mergeFiles], for the file [f]. *)
Definition mergeFiles_file {interface : Type}
  (st : merge_state interface) (f : configFile.t interface)
  : merge_state interface :=
  let '(result, diags, credHelperDeclFile) := st in
  let providers :=
    set_each Name (configFile.Providers f) (Config.Providers result) in
  let provisioners :=
    set_each Name (configFile.Provisioners f) (Config.Provisioners result) in
  let disableCheckpoint :=
    if configFile.DisableCheckpoint f then true
    else Config.DisableCheckpoint result in
  let disableCheckpointSignature :=
    if configFile.DisableCheckpointSignature f then true
    else Config.DisableCheckpointSignature result in
  let pluginCacheDir :=
    if String.eqb (configFile.PluginCacheDir f) "" then Config.PluginCacheDir result
    else configFile.PluginCacheDir f in
  let hosts :=
    set_each (fun host => svchost.String_ (Host_ host))
             (configFile.Hosts f) (Config.Hosts result) in
  let credentials :=
    set_each (fun credentials => svchost.String_ (Credentials_Host credentials))
             (configFile.Credentials f) (Config.Credentials result) in
  let '(credentialsHelper, diags, credHelperDeclFile) :=
    match configFile.CredentialsHelpers f with
    | [] => (Config.CredentialsHelper result, diags, credHelperDeclFile)
    | first :: _ =>
        match Config.CredentialsHelper result with
        | Some _ =>
            (Config.CredentialsHelper result,
             diags ++ [tfdiags.Sourceless tfdiags.Error
                         "Multiple credentials_helper blocks"
                         ("Terraform found credentials_helper blocks in both "
                            ++ credHelperDeclFile ++ " and "
                            ++ configFile.Filename f
                            ++ ". Only one credentials helper is allowed.")],
             credHelperDeclFile)
        | None => (Some first, diags, configFile.Filename f)
        end
    end in
  let diags :=
    if (1 <? length (configFile.CredentialsHelpers f))%nat
    then diags ++ [tfdiags.Sourceless tfdiags.Error
                     "Multiple credentials_helper blocks"
                     ("There are multiple credentials_helper blocks in "
                        ++ configFile.Filename f
                        ++ ". Only one credentials helper is allowed.")]
    else diags in
  (Config.mk providers provisioners disableCheckpoint disableCheckpointSignature
             pluginCacheDir hosts credentials credentialsHelper,
   diags, credHelperDeclFile).

(** [mergeFiles]. *)
Definition mergeFiles {interface : Type} (files : list (configFile.t interface))
  : Config.t interface * tfdiags.Diagnostics :=
  let '(result, diags, _) :=
    fold_left mergeFiles_file files
              (Config.mk ∅ ∅ false false "" ∅ ∅ None, [], "") in
  (result, diags).

(** [environConfig]. *)
Definition environConfig {interface : Type} (environ : list string)
  : configFile.t interface :=
  let d := getEnv environ "TF_PLUGIN_CACHE_DIR" in
  configFile.mk "<environment>" [] [] false false
                (if String.eqb d "" then "" else d) [] [] [].

(** [strings.HasSuffix(s, suffix)] *)
Fixpoint HasSuffix (s suffix : string) : bool :=
  String.eqb s suffix ||
  match s with
  | EmptyString => false
  | String _ s' => HasSuffix s' suffix
  end.

(** [filepath.Match("*" + suffix, fn)] for a [suffix] of plain characters,
    with the slash as the separator: the star stands for any run of
    characters other than the separator. *)
Definition Match_star (suffix fn : string) : bool :=
  HasSuffix fn suffix &&
  match IndexByte fn "/"%char with None => true | Some _ => false end.

Inductive fileFormat : Type := invalidFormat | hclFormat | jsonFormat.

(** [configFileFormat]. *)
Definition configFileFormat (fn : string) : fileFormat :=
  let hclMatched := Match_star ".tfrc" fn in
  let jsonMatched := Match_star ".tfrc.json" fn in
  if hclMatched then hclFormat
  else if jsonMatched then jsonFormat
  else invalidFormat.

(** A pointer read by the code that follows: a nil one makes it panic. *)
Definition deref {A : Type} (p : option A) : result A :=
  match p with
  | Some a => Ok a
  | None => Panic NilDereference
  end.

(** A loop over a slice whose rounds may panic. *)
Definition foldM {A B : Type} (f : A -> B -> result A) (l : list B) (a : A)
  : result A :=
  fold_left (fun acc b => a ← acc; f a b) l (Ok a).

Section LoadConfig.
(** What the loaders take from outside the package, each of which may
    panic: the two parsers of hclparse, which read the file named and
    return a file (nil when they fail) with their diagnostics; the part of
    [loadConfigFileHCL] after the parse, which decodes the body of the
    file with gohcl; and the legacy loader.  The diagnostics of hcl are
    taken as the diagnostics of tfdiags that [Append] makes of them.
    [LoadConfig] also asks whether [os.Stat] finds a path and which entry
    names [ioutil.ReadDir] lists for a directory ([None] for its error),
    and joins paths with [filepath.Join]. *)
Context {interface : Type}.
Variable hclFile : Type.
Variable ParseHCLFile : string -> result (option hclFile * tfdiags.Diagnostics).
Variable ParseJSONFile : string -> result (option hclFile * tfdiags.Diagnostics).
Variable decodeHCL :
  hclFile -> string -> list string -> tfdiags.Diagnostics ->
  result (option (configFile.t interface) * tfdiags.Diagnostics).
Variable loadConfigFileLegacyHCL :
  string -> list string ->
  result (option (configFile.t interface) * tfdiags.Diagnostics).
Variable Stat : string -> bool.
Variable ReadDir : string -> option (list string).
Variable Join : string -> string -> string.

(** [loadConfigFileHCL]: the choice of the parser, and the read of
    [hclF.Body] that follows it; [decodeHCL] is the rest. *)
Definition loadConfigFileHCL (fn : string) (environ : list string)
  : result (option (configFile.t interface) * tfdiags.Diagnostics) :=
  let diags : tfdiags.Diagnostics := [] in
  '(hclF, hclDiags, diags) ←
    match configFileFormat fn with
    | hclFormat =>
        '(hclF, hclDiags) ← ParseHCLFile fn; Ok (hclF, hclDiags, diags)
    | jsonFormat =>
        '(hclF, hclDiags) ← ParseJSONFile fn; Ok (hclF, hclDiags, diags)
    | invalidFormat =>
        Ok (None, [],
            diags ++ [tfdiags.Sourceless tfdiags.Error
                        "Unsupported CLI config format"
                        ("Cannot load CLI configuration from " ++ fn
                           ++ ". CLI configuration files must either be in HCL native syntax (just .tfrc extension) or HCL JSON syntax (.tfrc.json extension).")])
    end;
  let diags := diags ++ hclDiags in
  if tfdiags.HasErrors hclDiags then Ok (None, diags)
  else
    hclF ← deref hclF;
    decodeHCL hclF fn environ diags.

(** What the loop of [loadConfigFile] makes of a diagnostic of the new
    parser: a warning with the same summary and detail, the detail of an
    error ending in a notice.  (The diagnostics of the model carry no
    source ranges.) *)
Definition as_warning (diag : tfdiags.Diagnostic) : tfdiags.Diagnostic :=
  let suffix :=
    "This message will become a fatal error in a future version of Terraform." in
  tfdiags.Sourceless tfdiags.Warning (tfdiags.summary diag)
    (match tfdiags.severity diag with
     | tfdiags.Error =>
         if String.eqb (tfdiags.detail diag) "" then suffix
         else tfdiags.detail diag
                ++ String "010"%char (String "010"%char suffix)
     | tfdiags.Warning => tfdiags.detail diag
     end).

(** [loadConfigFile].  The warnings are appended to the local [diags],
    and the branch returns [legacyDiags]. *)
Definition loadConfigFile (fn : string) (environ : list string)
  : result (option (configFile.t interface) * tfdiags.Diagnostics) :=
  '(f, diags) ← loadConfigFileHCL fn environ;
  if tfdiags.HasErrors diags then
    '(legacyF, legacyDiags) ← loadConfigFileLegacyHCL fn environ;
    if tfdiags.HasErrors legacyDiags then Ok (None, diags)
    else
      let diags :=
        fold_left (fun acc diag => acc ++ [as_warning diag]) diags diags in
      Ok (legacyF, legacyDiags)
  else Ok (f, diags).

(** The four lines that load the file [fn] into [allFiles] and [diags]. *)
Definition load_one (environ : list string)
  (acc : list (option (configFile.t interface)) * tfdiags.Diagnostics)
  (fn : string)
  : result (list (option (configFile.t interface)) * tfdiags.Diagnostics) :=
  let '(allFiles, diags) := acc in
  '(f, moreDiags) ← loadConfigFile fn environ;
  let diags := diags ++ moreDiags in
  if tfdiags.HasErrors moreDiags then Ok (allFiles, diags)
  else Ok (allFiles ++ [f], diags).

(** The two loops of [LoadConfig]: the files, then the directories. *)
Definition load_all (configFiles configDirs environ : list string)
  : result (list (option (configFile.t interface)) * tfdiags.Diagnostics) :=
  acc ← foldM (fun acc fn =>
                 if Stat fn then load_one environ acc fn else Ok acc)
              configFiles ([], []);
  foldM (fun acc dn =>
           match ReadDir dn with
           | None => Ok acc
           | Some entries =>
               foldM (fun acc name =>
                        match configFileFormat name with
                        | invalidFormat => Ok acc
                        | _ => load_one environ acc (Join dn name)
                        end) entries acc
           end)
        configDirs acc.

(** [LoadConfig].  [mergeFiles] reads a field of every file it is given,
    so a nil file makes it panic. *)
Definition LoadConfig (configFiles configDirs environ : list string)
  : result (Config.t interface * tfdiags.Diagnostics) :=
  '(allFiles, diags) ← load_all configFiles configDirs environ;
  let allFiles := allFiles ++ [Some (environConfig environ)] in
  files ← mapM deref allFiles;
  let '(cfg, moreDiags) := mergeFiles files in
  Ok (cfg, diags ++ moreDiags).
End LoadConfig.

(** ** Further notions of the package *)

(** The last element of [l] that satisfies [P]. *)
Definition last_such {A : Type} (P : A -> bool) (l : list A) : option A :=
  last (List.filter P l).

(** [cfg] with another plugin cache directory. *)
Definition with_PluginCacheDir {interface : Type} (d : string)
  (cfg : Config.t interface) : Config.t interface :=
  Config.mk (Config.Providers cfg) (Config.Provisioners cfg)
            (Config.DisableCheckpoint cfg) (Config.DisableCheckpointSignature cfg)
            d (Config.Hosts cfg) (Config.Credentials cfg)
            (Config.CredentialsHelper cfg).

(** Every credentials helper block of the files, in their order. *)
Definition helper_blocks {interface : Type}
  (files : list (configFile.t interface)) : list CredentialsHelper :=
  concat (map configFile.CredentialsHelpers files).

(** The paths that [LoadConfig] hands to the loader, in its order: the
    files that [os.Stat] finds, then for every directory that can be
    read its entries with the name of a configuration file. *)
Definition config_paths (Stat : string -> bool)
  (ReadDir : string -> option (list string)) (Join : string -> string -> string)
  (configFiles configDirs : list string) : list string :=
  List.filter Stat configFiles ++
  concat (map (fun dn =>
                 match ReadDir dn with
                 | None => []
                 | Some entries =>
                     map (Join dn)
                         (List.filter
                            (fun name =>
                               match configFileFormat name with
                               | invalidFormat => false
                               | _ => true
                               end) entries)
                 end) configDirs).
(** * Properties *)

(** ** The result monad *)

Lemma bind_Ok {A B} (m : result A) (k : A -> result B) (b : B) :
  m ≫= k = Ok b -> exists a, m = Ok a /\ k a = Ok b.
Proof. destruct m as [a|p]; simpl; [eauto | discriminate]. Qed.

Lemma bind_Panic_l {A B} (m : result A) (k : A -> result B) :
  is_panic m -> is_panic (m ≫= k).
Proof. intros [p ->]. exists p. reflexivity. Qed.

Lemma bind_Panic_r {A B} (m : result A) (k : A -> result B) :
  (forall a, is_panic (k a)) -> is_panic (m ≫= k).
Proof. intros H. destruct m as [a|p]; simpl; [apply H | exists p; reflexivity]. Qed.

Lemma is_panic_not_Ok {A} (r : result A) : is_panic r <-> forall a, r <> Ok a.
Proof.
  split.
  - intros [p ->] a. discriminate.
  - intros H. destruct r as [a|p]; [destruct (H a); reflexivity | exists p; reflexivity].
Qed.

(** Inversion of a successful bind in a hypothesis. *)
Ltac inv_bind H :=
  let a := fresh "a" in
  let Ha := fresh "Ha" in
  apply bind_Ok in H; destruct H as (a & Ha & H).

Lemma mapM_Ok_Forall2 {A B} (f : A -> result B) (l : list A) (vs : list B) :
  mapM f l = Ok vs <-> Forall2 (fun x v => f x = Ok v) l vs.
Proof.
  revert vs. induction l as [|x l IH]; intros vs; simpl.
  - split.
    + intros [= <-]. constructor.
    + intros H. inversion H. reflexivity.
  - split.
    + intros H. inv_bind H. inv_bind H. injection H as <-.
      constructor; [assumption | apply IH; assumption].
    + intros H. inversion H as [|? v ? vs' Hx Hl]; subst.
      rewrite Hx. simpl. apply IH in Hl. rewrite Hl. reflexivity.
Qed.

(** ** Dispatch of an item *)

Lemma oldDidExpandEnv_spec (root : bool) (name : string) :
  oldDidExpandEnv root name = true <->
  root = true /\
  (name = "providers" \/ name = "provisioners" \/ name = "plugin_cache_dir").
Proof.
  unfold oldDidExpandEnv. destruct root.
  - destruct (String.eqb_spec name "providers") as [->|H1];
      [split; [intros _; split; [reflexivity | left; reflexivity] | reflexivity] |].
    destruct (String.eqb_spec name "provisioners") as [->|H2];
      [split; [intros _; split; [reflexivity | right; left; reflexivity] | reflexivity] |].
    destruct (String.eqb_spec name "plugin_cache_dir") as [->|H3];
      [split; [intros _; split; [reflexivity | right; right; reflexivity] | reflexivity] |].
    split; [discriminate |].
    intros [_ [H | [H | H]]]; congruence.
  - split; [discriminate | intros [H _]; discriminate].
Qed.

(** An eligible item always ends in the panic of [upgradeArgument]. *)
Lemma upgradeArgument_expandEnv (from : ObjectItem) (to : hcl2write.Body) :
  is_panic (upgradeArgument from to true).
Proof.
  unfold upgradeArgument. apply bind_Panic_r. intros name.
  eexists. reflexivity.
Qed.

Section item_panics.
Variable nested :
  ObjectItem -> hcl2write.Body -> commentQueue ->
  result (hcl2write.Body * commentQueue).
Variable root : bool.

(** The iteration for an eligible item never returns. *)
Lemma upgradeBody_item_expandEnv item next to q name :
  key_name (Keys item) 0 = Ok name ->
  oldDidExpandEnv root name = true ->
  is_panic (upgradeBody_item nested root item next to q).
Proof.
  intros Hname Hexp. unfold upgradeBody_item.
  apply bind_Panic_r. intros [comments q'].
  rewrite Hname. simpl. rewrite Hexp.
  apply bind_Panic_l. apply bind_Panic_l. apply upgradeArgument_expandEnv.
Qed.

(** ... and when the queue can be read, the panic is the one of the
    unsupported ExpandEnv case. *)
Lemma upgradeBody_item_expandEnv_msg item next to q name comments q' :
  key_name (Keys item) 0 = Ok name ->
  oldDidExpandEnv root name = true ->
  TakeBefore (NodeObjectItem item) q = Ok (comments, q') ->
  upgradeBody_item nested root item next to q =
  Panic (PanicMsg "ExpandEnv expression upgrade not yet supported").
Proof.
  intros Hname Hexp Htake. unfold upgradeBody_item.
  rewrite Htake. simpl. rewrite Hname. simpl. rewrite Hexp.
  unfold upgradeArgument. rewrite Hname. reflexivity.
Qed.

(** A loop that meets an item whose iteration always panics panics. *)
Lemma upgradeBody_loop_panics items item :
  In item items ->
  (forall next to q, is_panic (upgradeBody_item nested root item next to q)) ->
  forall to q, is_panic (upgradeBody_loop nested root items to q).
Proof.
  intros Hin Hitem. induction items as [|x rest IH]; [destruct Hin |].
  intros to q. simpl. destruct Hin as [-> | Hin].
  - apply bind_Panic_l. apply Hitem.
  - apply bind_Panic_r. intros [to' q']. apply IH. assumption.
Qed.
End item_panics.

(** An eligible item anywhere in the root list makes the whole upgrade
    panic. *)
Lemma UpgradeOldHCLConfig_expandEnv Parse Bytes old oldF items item name :
  Parse old = inl oldF ->
  FileNode oldF = ObjectList items ->
  In item items ->
  key_name (Keys item) 0 = Ok name ->
  oldDidExpandEnv true name = true ->
  is_panic (UpgradeOldHCLConfig Parse Bytes old).
Proof.
  intros Hparse Hnode Hin Hname Hexp. unfold UpgradeOldHCLConfig.
  rewrite Hparse. simpl. apply bind_Panic_r. intros adhoc.
  rewrite Hnode. apply bind_Panic_l. unfold upgradeBody.
  apply upgradeBody_loop_panics with (item := item); [assumption |].
  intros next to q. eapply upgradeBody_item_expandEnv; eassumption.
Qed.

(** ** Induction over the tree *)

(** Induction over a node and the values of the items below it. *)
Lemma Node_nested_ind (P : Node -> Prop) :
  (forall n comments, P n -> P (NodeFile (mkFile n comments))) ->
  (forall items, Forall (fun i => P (Val i)) items -> P (ObjectList items)) ->
  (forall k, P (NodeObjectKey k)) ->
  (forall i, P (Val i) -> P (NodeObjectItem i)) ->
  (forall c, P (NodeComment c)) ->
  (forall g, P (NodeCommentGroup g)) ->
  (forall tok lead line, P (LiteralType tok lead line)) ->
  (forall lb rb elems, Forall P elems -> P (ListType lb rb elems)) ->
  (forall lb rb items, Forall (fun i => P (Val i)) items -> P (ObjectType lb rb items)) ->
  forall n, P n.
Proof.
  intros HF HOL HK HI HC HG HL HLT HOT. fix IH 1.
  intros [f|items|k|i|c|g|tok lead line|lb rb elems|lb rb items].
  - destruct f as [n comments]. apply HF. apply IH.
  - apply HOL. revert items. fix IHl 1.
    intros [|[keys a v l1 l2] l]; constructor; [simpl; apply IH | apply IHl].
  - apply HK.
  - apply HI. destruct i as [keys a v l1 l2]. simpl. apply IH.
  - apply HC.
  - apply HG.
  - apply HL.
  - apply HLT. revert elems. fix IHl 1.
    intros [|n l]; constructor; [apply IH | apply IHl].
  - apply HOT. revert items. fix IHl 1.
    intros [|[keys a v l1 l2] l]; constructor; [simpl; apply IH | apply IHl].
Qed.

(** Induction over an item and the items nested in its object. *)
Lemma ObjectItem_nested_ind (P : ObjectItem -> Prop) :
  (forall keys assign val lead line,
      (forall lb rb items, val = ObjectType lb rb items -> Forall P items) ->
      P (mkObjectItem keys assign val lead line)) ->
  forall item, P item.
Proof.
  intros H. fix IH 1. intros [keys assign val lead line]. apply H.
  destruct val; intros lb rb items E; try discriminate E.
  injection E as _ _ <-.
  revert Items. fix IHl 1. intros [|x l]; constructor; [apply IH | apply IHl].
Qed.

(** ** Where the ExpandEnv panic can come from *)

Lemma no_explicit_no_expandEnv {A} (r : result A) :
  no_explicit_panic r -> no_expandEnv_panic r.
Proof. intros H. apply H. Qed.

Lemma bind_no_explicit {A B} (m : result A) (k : A -> result B) :
  no_explicit_panic m -> (forall a, m = Ok a -> no_explicit_panic (k a)) ->
  no_explicit_panic (m ≫= k).
Proof.
  intros Hm Hk. destruct m as [a|p]; simpl.
  - apply Hk. reflexivity.
  - intros msg E. apply (Hm msg). congruence.
Qed.

Lemma bind_no_expandEnv {A B} (m : result A) (k : A -> result B) :
  no_expandEnv_panic m -> (forall a, m = Ok a -> no_expandEnv_panic (k a)) ->
  no_expandEnv_panic (m ≫= k).
Proof.
  intros Hm Hk. destruct m as [a|p]; simpl.
  - apply Hk. reflexivity.
  - intros E. apply Hm. congruence.
Qed.

Lemma Ok_no_explicit {A} (a : A) : no_explicit_panic (Ok a).
Proof. intros msg. discriminate. Qed.

Lemma Ok_no_expandEnv {A} (a : A) : no_expandEnv_panic (Ok a).
Proof. discriminate. Qed.

Lemma CommentGroup_Pos_no_explicit g : no_explicit_panic (CommentGroup_Pos g).
Proof. unfold CommentGroup_Pos. destruct (List g); intros msg; discriminate. Qed.

Lemma Node_Pos_no_explicit n : no_explicit_panic (Node_Pos n).
Proof.
  induction n using Node_nested_ind; simpl;
    try apply Ok_no_explicit; try assumption.
  - destruct items; [intros msg; discriminate | apply Ok_no_explicit].
  - apply CommentGroup_Pos_no_explicit.
Qed.

Lemma hcl1NodeEndPos_no_explicit n : no_explicit_panic (hcl1NodeEndPos n).
Proof.
  induction n as [| | |i IH| | | | |] using Node_nested_ind;
    try apply Node_Pos_no_explicit; try apply Ok_no_explicit.
  destruct i as [keys a v lead line]. simpl in *.
  destruct line as [lc|]; [| exact IH].
  destruct (List lc); [exact IH | apply Ok_no_explicit].
Qed.

Lemma TakeBeforePos_index_no_explicit pos q :
  no_explicit_panic (TakeBeforePos_index pos q).
Proof.
  induction q as [|g q IH]; simpl; [apply Ok_no_explicit |].
  apply bind_no_explicit; [apply CommentGroup_Pos_no_explicit |].
  intros p _. destruct (After p pos); [apply Ok_no_explicit |].
  apply bind_no_explicit; [exact IH | intros; apply Ok_no_explicit].
Qed.

Lemma TakeBefore_no_explicit node q : no_explicit_panic (TakeBefore node q).
Proof.
  unfold TakeBefore, TakeBeforePos.
  apply bind_no_explicit; [apply Node_Pos_no_explicit | intros pos _].
  apply bind_no_explicit; [apply TakeBeforePos_index_no_explicit | intros i _].
  destruct (i =? 0)%nat; apply Ok_no_explicit.
Qed.

Lemma key_string_no_explicit k : no_explicit_panic (key_string k).
Proof. unfold key_string. destruct (Value (Token k)); intros msg; discriminate. Qed.

Lemma key_name_no_explicit keys i : no_explicit_panic (key_name keys i).
Proof.
  unfold key_name. destruct (nth_error keys i);
    [apply key_string_no_explicit | intros msg; discriminate].
Qed.

Lemma mapM_no_explicit {A B} (f : A -> result B) l :
  (forall x, no_explicit_panic (f x)) -> no_explicit_panic (mapM f l).
Proof.
  intros Hf. induction l as [|x l IH]; simpl; [apply Ok_no_explicit |].
  apply bind_no_explicit; [apply Hf | intros v _].
  apply bind_no_explicit; [exact IH | intros; apply Ok_no_explicit].
Qed.

Lemma mapM_no_expandEnv {A B} (f : A -> result B) l :
  Forall (fun x => no_expandEnv_panic (f x)) l -> no_expandEnv_panic (mapM f l).
Proof.
  induction 1 as [|x l Hx _ IH]; simpl; [apply Ok_no_expandEnv |].
  apply bind_no_expandEnv; [exact Hx | intros v _].
  apply bind_no_expandEnv; [exact IH | intros; apply Ok_no_expandEnv].
Qed.

Lemma object_vals_no_expandEnv convert items :
  Forall (fun i => no_expandEnv_panic (convert (Val i))) items ->
  forall vals, no_expandEnv_panic (object_vals convert items vals).
Proof.
  induction 1 as [|i items Hi _ IH]; intros vals; simpl; [apply Ok_no_expandEnv |].
  apply bind_no_expandEnv;
    [apply no_explicit_no_expandEnv, key_name_no_explicit | intros name _].
  apply bind_no_expandEnv; [exact Hi | intros v _]. apply IH.
Qed.

(** The converter never raises the ExpandEnv panic. *)
Lemma upgradeExpressionConstant_no_expandEnv n :
  no_expandEnv_panic (upgradeExpressionConstant n).
Proof.
  induction n using Node_nested_ind; simpl; try discriminate.
  - destruct (Value tok); discriminate.
  - apply bind_no_expandEnv; [| intros; apply Ok_no_expandEnv].
    apply mapM_no_expandEnv. assumption.
  - apply bind_no_expandEnv; [| intros; apply Ok_no_expandEnv].
    apply object_vals_no_expandEnv. assumption.
Qed.

Lemma upgradeArgument_no_expandEnv from to :
  no_expandEnv_panic (upgradeArgument from to false).
Proof.
  unfold upgradeArgument.
  apply bind_no_expandEnv;
    [apply no_explicit_no_expandEnv, key_name_no_explicit | intros name _].
  apply bind_no_expandEnv;
    [apply upgradeExpressionConstant_no_expandEnv | intros; apply Ok_no_expandEnv].
Qed.

(** An iteration for a name that is not eligible raises the ExpandEnv
    panic only if the nested upgrade does. *)
Lemma upgradeBody_item_no_expandEnv root item next to q :
  (forall to q, no_expandEnv_panic (upgradeNestedBlock item to q)) ->
  (forall name, key_name (Keys item) 0 = Ok name ->
                oldDidExpandEnv root name = false) ->
  no_expandEnv_panic (upgradeBody_item upgradeNestedBlock root item next to q).
Proof.
  intros Hnested Hname. unfold upgradeBody_item.
  apply bind_no_expandEnv;
    [apply no_explicit_no_expandEnv, TakeBefore_no_explicit | intros [comments q1] _].
  apply bind_no_expandEnv;
    [apply no_explicit_no_expandEnv, key_name_no_explicit | intros name Hn].
  rewrite (Hname name Hn).
  apply bind_no_expandEnv.
  - destruct (blockSyntax item); [apply Hnested |].
    apply bind_no_expandEnv;
      [apply upgradeArgument_no_expandEnv | intros; apply Ok_no_expandEnv].
  - intros [to1 q2] _. destruct next as [next|]; [| apply Ok_no_expandEnv].
    apply bind_no_expandEnv;
      [apply no_explicit_no_expandEnv, hcl1NodeEndPos_no_explicit | intros thisPos _].
    destruct (wrap_int _ >? 1); apply Ok_no_expandEnv.
Qed.

Lemma upgradeBody_loop_no_expandEnv root items :
  Forall (fun item => forall to q, no_expandEnv_panic (upgradeNestedBlock item to q))
         items ->
  Forall (fun item => forall name, key_name (Keys item) 0 = Ok name ->
                                   oldDidExpandEnv root name = false) items ->
  forall to q,
    no_expandEnv_panic (upgradeBody_loop upgradeNestedBlock root items to q).
Proof.
  induction 1 as [|item rest Hitem _ IH]; intros Hnames to q; simpl;
    [apply Ok_no_expandEnv |].
  apply Forall_cons_1 in Hnames. destruct Hnames as [Hname Hnames].
  apply bind_no_expandEnv.
  - apply upgradeBody_item_no_expandEnv; assumption.
  - intros [to1 q1] _. apply IH. assumption.
Qed.

Lemma upgradeNestedBlock_no_expandEnv item :
  forall to q, no_expandEnv_panic (upgradeNestedBlock item to q).
Proof.
  induction item as [keys assign val lead line IH] using ObjectItem_nested_ind.
  intros to q. simpl.
  apply bind_no_expandEnv;
    [apply no_explicit_no_expandEnv, key_name_no_explicit | intros name _].
  apply bind_no_expandEnv;
    [apply no_explicit_no_expandEnv, mapM_no_explicit, key_string_no_explicit
    | intros labels _].
  destruct val; try discriminate.
  apply bind_no_expandEnv; [| intros [newBody q1] _; apply Ok_no_expandEnv].
  apply upgradeBody_loop_no_expandEnv; [eapply IH; reflexivity |].
  apply List.Forall_forall. intros nested _ name' _. reflexivity.
Qed.

(** ** Values that are not objects *)

Lemma blockSyntax_not_ObjectType (item : ObjectItem) :
  is_ObjectType (Val item) = false -> blockSyntax item = true.
Proof. intros H. unfold blockSyntax. rewrite H. reflexivity. Qed.

(** [upgradeNestedBlock] panics on a value that is not an object. *)
Lemma upgradeNestedBlock_not_ObjectType item to q :
  is_ObjectType (Val item) = false ->
  is_panic (upgradeNestedBlock item to q).
Proof.
  destruct item as [keys assign val lead line]. simpl. intros Hval.
  apply bind_Panic_r. intros name. apply bind_Panic_r. intros labels.
  destruct val; try discriminate; eexists; reflexivity.
Qed.

Lemma upgradeNestedBlock_not_ObjectType_conversion item to q name labels :
  is_ObjectType (Val item) = false ->
  key_name (Keys item) 0 = Ok name ->
  mapM key_string (tail (Keys item)) = Ok labels ->
  upgradeNestedBlock item to q = Panic InterfaceConversion.
Proof.
  destruct item as [keys assign val lead line]. simpl.
  intros Hval Hname Hlabels. rewrite Hname. simpl. rewrite Hlabels. simpl.
  destruct val; try discriminate; reflexivity.
Qed.

(** ** Writing the ad hoc groups *)

Lemma writeAdhocComments_app to comments :
  writeAdhocComments to comments = to ++ adhoc_nodes comments.
Proof.
  unfold writeAdhocComments. revert to.
  induction comments as [|g rest IH]; intros to; simpl.
  - rewrite app_nil_r. reflexivity.
  - rewrite IH. unfold writeNewline, hcl2write.AppendNewline, writeComments,
      hcl2write.AppendUnstructuredTokens, newline_node.
    rewrite <- !app_assoc. reflexivity.
Qed.

Lemma adhoc_nodes_no_attribute comments : no_attribute (adhoc_nodes comments).
Proof.
  induction comments as [|g rest IH]; simpl.
  - constructor.
  - repeat constructor. exact IH.
Qed.

Lemma SetAttributeValue_no_attribute name val b :
  no_attribute b ->
  hcl2write.SetAttributeValue name val b = b ++ [hcl2write.Attribute name val].
Proof.
  induction 1 as [|x b Hx Hb IH]; simpl; [reflexivity |].
  destruct x; [destruct Hx | |]; rewrite IH; reflexivity.
Qed.

(** Setting an attribute changes at most one node of what was there and
    leaves an attribute-free run after it where it is. *)
Lemma SetAttributeValue_middle name val a m :
  no_attribute m ->
  exists pre rest,
    hcl2write.SetAttributeValue name val (a ++ m) = pre ++ m ++ rest /\
    length pre = length a.
Proof.
  intros Hm. induction a as [|x a IH]; simpl.
  - exists [], [hcl2write.Attribute name val]. split; [| reflexivity].
    apply SetAttributeValue_no_attribute. assumption.
  - destruct IH as (pre & rest & IH & Hlen).
    destruct x as [n v | t ls body | ts].
    + destruct (String.eqb n name).
      * exists (hcl2write.Attribute n val :: a), []. split; [| reflexivity].
        rewrite app_nil_r. reflexivity.
      * exists (hcl2write.Attribute n v :: pre), rest. rewrite IH.
        split; [reflexivity | simpl; congruence].
    + exists (hcl2write.Block t ls body :: pre), rest. rewrite IH.
      split; [reflexivity | simpl; congruence].
    + exists (hcl2write.UnstructuredTokens ts :: pre), rest. rewrite IH.
      split; [reflexivity | simpl; congruence].
Qed.

(** A successful [upgradeNestedBlock] appends one block whose body is the
    upgrade of the nested list as a non-root list. *)
Lemma upgradeNestedBlock_Ok item to q to' q' :
  upgradeNestedBlock item to q = Ok (to', q') ->
  exists name labels lb rb items newBody,
    key_name (Keys item) 0 = Ok name /\
    mapM key_string (tail (Keys item)) = Ok labels /\
    Val item = ObjectType lb rb items /\
    upgradeBody items hcl2write.empty q false = Ok (newBody, q') /\
    to' = to ++ [hcl2write.Block name labels newBody].
Proof.
  destruct item as [keys assign val lead line]. simpl. intros H.
  inv_bind H. rename a into name. inv_bind H. rename a into labels.
  destruct val; try discriminate.
  inv_bind H. destruct a as [newBody q1]. injection H as <- <-.
  exists name, labels, Lbrace, Rbrace, Items, newBody.
  repeat split; assumption.
Qed.

(** ** Loops that return *)


(** ** The attributes of a body *)

Lemma attributes_app a b :
  hcl2write.attributes (a ++ b) = hcl2write.attributes a ++ hcl2write.attributes b.
Proof. unfold hcl2write.attributes. apply flat_map_app. Qed.











(** ** The blocks of a body *)

Lemma body_blocks_app a b : body_blocks (a ++ b) = body_blocks a ++ body_blocks b.
Proof. unfold body_blocks. apply flat_map_app. Qed.

Lemma body_blocks_SetAttributeValue name val b :
  body_blocks (hcl2write.SetAttributeValue name val b) = body_blocks b.
Proof.
  unfold body_blocks.
  induction b as [|x b IH]; simpl; [reflexivity |].
  destruct x as [n v | t ls body | ts]; simpl.
  - destruct (String.eqb n name); simpl; [reflexivity | exact IH].
  - f_equal. exact IH.
  - exact IH.
Qed.

Lemma body_blocks_writeComments to g :
  body_blocks (writeComments to g) = body_blocks to.
Proof.
  destruct g as [g|]; [| reflexivity]. simpl.
  unfold hcl2write.AppendUnstructuredTokens.
  rewrite body_blocks_app. simpl. apply app_nil_r.
Qed.

Lemma body_blocks_writeNewline to : body_blocks (writeNewline to) = body_blocks to.
Proof.
  unfold writeNewline, hcl2write.AppendNewline, hcl2write.AppendUnstructuredTokens.
  rewrite body_blocks_app. simpl. apply app_nil_r.
Qed.

Lemma body_blocks_writeAdhocComments to comments :
  body_blocks (writeAdhocComments to comments) = body_blocks to.
Proof.
  unfold writeAdhocComments. revert to.
  induction comments as [|g rest IH]; intros to; cbn [fold_left]; [reflexivity |].
  rewrite IH, body_blocks_writeNewline, body_blocks_writeComments. reflexivity.
Qed.

Lemma upgradeBody_item_blocks root item next to q to' q' :
  appends_block_tree item ->
  upgradeBody_item upgradeNestedBlock root item next to q = Ok (to', q') ->
  body_blocks to' =
  body_blocks to ++ (if takes_block_path root item then nested_block_tree item else []).
Proof.
  intros HP H. unfold upgradeBody_item in H.
  inv_bind H. destruct a as [comments q1].
  inv_bind H. rename a into n. inv_bind H. destruct a as [to1 q2].
  set (to0 := writeComments (writeAdhocComments to comments) (LeadComment item)) in *.
  assert (Hto0 : body_blocks to0 = body_blocks to).
  { unfold to0. rewrite body_blocks_writeComments.
    apply body_blocks_writeAdhocComments. }
  assert (Hend : body_blocks to' = body_blocks to1).
  { destruct next as [next|].
    - inv_bind H. destruct (wrap_int _ >? 1); injection H as <- <-;
        [apply body_blocks_writeNewline | reflexivity].
    - injection H as <- <-. reflexivity. }
  rewrite Hend. unfold takes_block_path. rewrite Ha0. clear H Hend.
  destruct (oldDidExpandEnv root n) eqn:Hexp.
  - inv_bind Ha1. destruct (upgradeArgument_expandEnv item to0) as [p Hp]. congruence.
  - destruct (blockSyntax item) eqn:Hblock; simpl.
    + rewrite (HP _ _ _ _ Ha1), Hto0. reflexivity.
    + inv_bind Ha1. injection Ha1 as <- <-.
      unfold upgradeArgument in Ha2. rewrite Ha0 in Ha2. simpl in Ha2.
      inv_bind Ha2. injection Ha2 as <-.
      rewrite body_blocks_writeComments, body_blocks_SetAttributeValue, Hto0.
      symmetry. apply app_nil_r.
Qed.

Lemma upgradeBody_loop_blocks root items :
  Forall appends_block_tree items ->
  forall to q to' q',
    upgradeBody_loop upgradeNestedBlock root items to q = Ok (to', q') ->
    body_blocks to' = body_blocks to ++ items_blocks root items.
Proof.
  induction 1 as [|item rest Hitem _ IH]; intros to q to' q' H; simpl in H.
  - injection H as <- <-. symmetry. apply app_nil_r.
  - inv_bind H. destruct a as [to1 q1].
    rewrite (IH _ _ _ _ H).
    rewrite (upgradeBody_item_blocks _ _ _ _ _ _ _ Hitem Ha).
    unfold items_blocks. simpl. rewrite <- app_assoc. reflexivity.
Qed.

Lemma upgradeNestedBlock_appends_block_tree item : appends_block_tree item.
Proof.
  induction item as [keys assign val lead line IH] using ObjectItem_nested_ind.
  intros to q to' q' H.
  apply upgradeNestedBlock_Ok in H.
  destruct H as (name & labels & lb & rb & items & newBody
                 & Hname & Hlabels & Hval & Hbody & ->).
  simpl in Hname, Hlabels, Hval. subst val.
  rewrite body_blocks_app. f_equal.
  simpl. rewrite Hname, Hlabels.
  change (flat_map node_blocks newBody) with (body_blocks newBody).
  unfold upgradeBody in Hbody.
  rewrite (upgradeBody_loop_blocks false items (IH _ _ _ eq_refl) _ _ _ _ Hbody).
  reflexivity.
Qed.

(** ** The ad hoc comment queue *)

Lemma Before_After (p u : Pos) : Before p u = After u p.
Proof. unfold Before, After. rewrite !Z.gtb_ltb. reflexivity. Qed.

Lemma After_offsets (ps : list Pos) (p u : Pos) :
  lines_follow_offsets ps -> In p ps -> In u ps ->
  After p u = true <-> Offset u < Offset p.
Proof.
  intros H Hp Hu. unfold After. rewrite orb_true_iff, !Z.ltb_lt. split.
  - intros [Ho | Hl]; [assumption |].
    destruct (Z.lt_ge_cases (Offset u) (Offset p)) as [Hlt | Hge]; [assumption |].
    specialize (H p u Hp Hu Hge). lia.
  - intros Ho. left. assumption.
Qed.

Lemma TakeBeforePos_split_at pos q :
  TakeBeforePos pos q =
  (i ← TakeBeforePos_index pos q; Ok (firstn i q, skipn i q)).
Proof.
  unfold TakeBeforePos. destruct (TakeBeforePos_index pos q) as [[|i]|p]; reflexivity.
Qed.

(** Whatever the queue, a call splits it: what it returns followed by what
    it leaves is the queue it found. *)
Lemma TakeBeforePos_app pos q ret q' :
  TakeBeforePos pos q = Ok (ret, q') -> ret ++ q' = q.
Proof.
  rewrite TakeBeforePos_split_at. intros H. inv_bind H.
  injection H as <- <-. apply firstn_skipn.
Qed.


Lemma group_at_or_before_Ok pos g p :
  CommentGroup_Pos g = Ok p -> group_at_or_before pos g = negb (After p pos).
Proof. unfold group_at_or_before. intros ->. reflexivity. Qed.

Lemma filter_all_after pos q ps :
  mapM CommentGroup_Pos q = Ok ps ->
  Forall (fun p => After p pos = true) ps ->
  List.filter (group_at_or_before pos) q = [] /\
  List.filter (fun g => negb (group_at_or_before pos g)) q = q.
Proof.
  intros Hps. apply mapM_Ok_Forall2 in Hps.
  induction Hps as [|g p q ps Hg _ IH]; intros Hall; [split; reflexivity |].
  apply Forall_cons_1 in Hall. destruct Hall as [Hp Hall]. cbn [List.filter].
  rewrite (group_at_or_before_Ok pos g p Hg), Hp. cbn [negb].
  destruct (IH Hall) as [-> ->]. split; reflexivity.
Qed.

(** On an ascending queue of one file, a call returns the groups at or
    before the cutoff and leaves the others. *)
Lemma TakeBeforePos_exact pos q : forall ps,
  queue_ascending q ps ->
  lines_follow_offsets (pos :: ps) ->
  TakeBeforePos pos q =
  Ok (List.filter (group_at_or_before pos) q,
      List.filter (fun g => negb (group_at_or_before pos g)) q).
Proof.
  rewrite TakeBeforePos_split_at.
  induction q as [|g q IH]; intros ps [Hps Hsorted] Hfile; [reflexivity |].
  simpl in Hps. inv_bind Hps. rename a into p. inv_bind Hps. rename a into ps'.
  injection Hps as <-.
  apply StronglySorted_inv in Hsorted. destruct Hsorted as [Hsorted Hp].
  cbn [TakeBeforePos_index]. rewrite Ha. cbn [mbind result_bind].
  destruct (After p pos) eqn:Hafter.
  - assert (Hall : Forall (fun p' => After p' pos = true) ps').
    { apply List.Forall_forall. intros p' Hp'.
      rewrite List.Forall_forall in Hp. specialize (Hp p' Hp').
      rewrite Before_After in Hp.
      apply (After_offsets (pos :: p :: ps')); [assumption | simpl; tauto | simpl; tauto |].
      apply (After_offsets (pos :: p :: ps')) in Hafter; [| assumption | simpl; tauto..].
      apply (After_offsets (pos :: p :: ps')) in Hp; [| assumption | simpl; tauto..].
      lia. }
    destruct (filter_all_after pos q ps' Ha0 Hall) as [E1 E2].
    cbn [List.filter firstn skipn].
    rewrite (group_at_or_before_Ok pos g p Ha), Hafter. cbn [negb].
    rewrite E1, E2. reflexivity.
  - assert (Hfile' : lines_follow_offsets (pos :: ps')).
    { intros a b Ha' Hb'. apply Hfile; simpl in *; tauto. }
    specialize (IH ps' (conj Ha0 Hsorted) Hfile').
    destruct (TakeBeforePos_index pos q) as [i|]; [| discriminate IH].
    simpl in IH. injection IH as E1 E2.
    cbn [List.filter firstn skipn mbind result_bind].
    rewrite (group_at_or_before_Ok pos g p Ha), Hafter. cbn [negb].
    rewrite <- E1, <- E2. reflexivity.
Qed.

Lemma mapM_In {A B} (f : A -> result B) l vs x :
  mapM f l = Ok vs -> In x l -> exists v, f x = Ok v /\ In v vs.
Proof.
  intros H. apply mapM_Ok_Forall2 in H.
  induction H as [|y v l vs Hy _ IH]; intros Hin; [destruct Hin |].
  destruct Hin as [<- | Hin].
  - exists v. split; [assumption | left; reflexivity].
  - destruct (IH Hin) as (v' & Hv' & Hin'). exists v'. split; [assumption | right; assumption].
Qed.







(** ** The queue that [collectAdhocComments] builds *)

Section sort_Slice.
Context {A : Type} (less : A -> A -> bool) (D : A -> Prop).
Hypothesis less_trans : forall x y z,
    D x -> D y -> D z -> less x y = true -> less y z = true -> less x z = true.
Hypothesis less_total : forall x y,
    D x -> D y -> x <> y -> less x y = true \/ less y x = true.




End sort_Slice.






Lemma mapM_map_snd (l : list (Pos * CommentGroup)) :
  (forall x, In x l -> CommentGroup_Pos (snd x) = Ok (fst x)) ->
  mapM CommentGroup_Pos (map snd l) = Ok (map fst l).
Proof.
  induction l as [|x l IH]; intros H; simpl; [reflexivity |].
  rewrite (H x (or_introl eq_refl)). simpl.
  rewrite IH; [reflexivity |]. intros y Hy. apply H. right. assumption.
Qed.



(** ** The upgrade returns on the documents it accepts *)

Lemma is_Ok_true {A} (r : result A) : is_Ok r = true -> exists a, r = Ok a.
Proof. destruct r as [a|p]; [eauto | discriminate]. Qed.

Lemma TakeBeforePos_index_total pos q :
  queue_positioned q ->
  exists i, TakeBeforePos_index pos q = Ok i.
Proof.
  induction 1 as [|g q Hg _ [i IH]]; simpl; [eauto |].
  destruct (is_Ok_true _ Hg) as [p ->]. simpl.
  destruct (After p pos); [eauto |]. rewrite IH. simpl. eauto.
Qed.

Lemma TakeBeforePos_total pos q :
  queue_positioned q ->
  exists ret q', TakeBeforePos pos q = Ok (ret, q') /\ queue_positioned q'.
Proof.
  intros Hq. rewrite TakeBeforePos_split_at.
  destruct (TakeBeforePos_index_total pos q Hq) as [i ->]. simpl.
  exists (firstn i q), (skipn i q). split; [reflexivity |].
  unfold queue_positioned in *. rewrite <- (firstn_skipn i q) in Hq.
  apply Forall_app in Hq. apply Hq.
Qed.

Lemma TakeBefore_item_total item q :
  queue_positioned q ->
  exists comments q',
    TakeBefore (NodeObjectItem item) q = Ok (comments, q') /\ queue_positioned q'.
Proof. intros Hq. unfold TakeBefore. simpl. apply TakeBeforePos_total. assumption. Qed.

Lemma upgradable_inv root item :
  upgradable root item = true ->
  exists name,
    key_name (Keys item) 0 = Ok name /\
    oldDidExpandEnv root name = false /\
    if blockSyntax item
    then is_Ok (mapM key_string (tail (Keys item))) = true /\
         exists lb rb items,
           Val item = ObjectType lb rb items /\
           forallb (upgradable false) items = true
    else is_Ok (upgradeExpressionConstant (Val item)) = true.
Proof.
  destruct item as [keys assign val lead line]. cbn [upgradable Keys Val].
  destruct (key_name keys 0) as [name|]; [| discriminate].
  intros H. apply andb_true_iff in H. destruct H as [Hexp H].
  apply negb_true_iff in Hexp. exists name.
  split; [reflexivity |]. split; [assumption |].
  destruct (blockSyntax (mkObjectItem keys assign val lead line)); [| assumption].
  apply andb_true_iff in H. destruct H as [Hlabels H].
  split; [assumption |]. destruct val; try discriminate. eauto.
Qed.

Lemma hcl1NodeEndPos_item_ObjectType item :
  is_ObjectType (Val item) = true ->
  exists p, hcl1NodeEndPos (NodeObjectItem item) = Ok p.
Proof.
  destruct item as [keys assign val lead line]. simpl.
  destruct val; try discriminate. intros _.
  destruct line as [lc|]; [destruct (List lc) |]; eauto.
Qed.

(** What the induction over the nesting carries. *)
Lemma upgradeBody_loop_total root items :
  Forall (fun item =>
            forall root, upgradable root item = true -> blockSyntax item = true ->
            forall to q, queue_positioned q ->
              exists to' q', upgradeNestedBlock item to q = Ok (to', q') /\
                             queue_positioned q') items ->
  forallb (upgradable root) items = true ->
  forall to q, queue_positioned q ->
    exists to' q',
      upgradeBody_loop upgradeNestedBlock root items to q = Ok (to', q') /\
      queue_positioned q'.
Proof.
  induction 1 as [|item rest Hitem _ IH]; intros Hall to q Hq;
    cbn [upgradeBody_loop].
  - exists to, q. split; [reflexivity | assumption].
  - cbn [forallb] in Hall. apply andb_true_iff in Hall. destruct Hall as [Hup Hall].
    assert (Hstep : exists to1 q1,
               upgradeBody_item upgradeNestedBlock root item (head rest) to q
               = Ok (to1, q1) /\ queue_positioned q1).
    { unfold upgradeBody_item.
      destruct (TakeBefore_item_total item q Hq) as (comments & q1 & -> & Hq1).
      cbn [mbind result_bind].
      destruct (upgradable_inv root item Hup) as (name & Hname & Hexp & Hrest).
      rewrite Hname. cbn [mbind result_bind]. rewrite Hexp.
      set (to0 := writeComments (writeAdhocComments to comments) (LeadComment item)).
      assert (Hval : is_ObjectType (Val item) = true).
      { destruct (is_ObjectType (Val item)) eqn:E; [reflexivity |].
        rewrite (blockSyntax_not_ObjectType item E) in Hrest.
        destruct Hrest as (_ & lb & rb & items & Hv & _).
        rewrite Hv in E. discriminate. }
      destruct (hcl1NodeEndPos_item_ObjectType item Hval) as [thisPos Hend].
      assert (Hdispatch : exists to1 q2,
                 (if blockSyntax item
                  then upgradeNestedBlock item to0 q1
                  else to ← upgradeArgument item to0 false; Ok (to, q1))
                 = Ok (to1, q2) /\ queue_positioned q2).
      { pose proof (Hitem root Hup) as Hnested.
        destruct (blockSyntax item).
        - apply Hnested; [reflexivity | assumption].
        - unfold upgradeArgument. rewrite Hname. cbn [mbind result_bind].
          destruct (is_Ok_true _ Hrest) as [v ->]. cbn [mbind result_bind]. eauto. }
      destruct Hdispatch as (to1 & q2 & -> & Hq2). cbn [mbind result_bind].
      destruct (head rest) as [next|]; [| eauto].
      rewrite Hend. cbn [mbind result_bind]. destruct (wrap_int _ >? 1); eauto. }
    destruct Hstep as (to1 & q1 & -> & Hq1). cbn [mbind result_bind].
    apply IH; assumption.
Qed.

Lemma upgradeNestedBlock_total item :
  forall root, upgradable root item = true -> blockSyntax item = true ->
  forall to q, queue_positioned q ->
    exists to' q', upgradeNestedBlock item to q = Ok (to', q') /\ queue_positioned q'.
Proof.
  induction item as [keys assign val lead line IH] using ObjectItem_nested_ind.
  intros root Hup Hblock to q Hq. simpl in Hup.
  destruct (key_name keys 0) as [name|] eqn:Hname; [| discriminate].
  apply andb_true_iff in Hup. destruct Hup as [_ Hup].
  rewrite Hblock in Hup. apply andb_true_iff in Hup. destruct Hup as [Hlabels Hitems].
  destruct (is_Ok_true _ Hlabels) as [labels Hl].
  destruct val; try discriminate.
  simpl. rewrite Hname. simpl. rewrite Hl. simpl.
  destruct (upgradeBody_loop_total false Items (IH _ _ _ eq_refl) Hitems
              hcl2write.empty q Hq) as (newBody & q' & -> & Hq').
  simpl. eauto.
Qed.

(** On a list of items it accepts and a queue whose groups have positions,
    [upgradeBody] returns. *)
Lemma upgradeBody_total items to q root :
  forallb (upgradable root) items = true ->
  queue_positioned q ->
  exists to' q', upgradeBody items to q root = Ok (to', q').
Proof.
  intros Hall Hq.
  destruct (upgradeBody_loop_total root items) with (to := to) (q := q)
    as (to' & q' & H & _); try assumption.
  - apply List.Forall_forall. intros item _. apply upgradeNestedBlock_total.
  - exists to', q'. exact H.
Qed.


(** * The claims *)

(** ** Root items named [plugin_cache_dir] *)

(** C1 as stated fails: for the root document
    [plugin_cache_dir = "/tmp/plugins"], whose value is a plain literal
    without any substitution marker, the upgrade panics and emits no
    attribute. *)
Lemma plugin_cache_dir_literal_counterexample :
  upgradeBody doc_plugin_cache_dir hcl2write.empty [] true =
  Panic (PanicMsg "ExpandEnv expression upgrade not yet supported") /\
  ~ (exists to q,
        upgradeBody doc_plugin_cache_dir hcl2write.empty [] true = Ok (to, q) /\
        In (hcl2write.Attribute "plugin_cache_dir" (cty.StringVal "/tmp/plugins")) to).
Proof.
  assert (H : upgradeBody doc_plugin_cache_dir hcl2write.empty [] true =
              Panic (PanicMsg "ExpandEnv expression upgrade not yet supported"))
    by reflexivity.
  split; [exact H |].
  intros (to & q & Hok & _). rewrite H in Hok. discriminate.
Qed.

(** C1, amended: a root item named [plugin_cache_dir] makes the upgrade
    abort, whatever its value is (a plain literal string included): the
    whole upgrade panics, and the iteration that reaches the item panics
    with the ExpandEnv message. *)
Theorem plugin_cache_dir_aborts Parse Bytes old oldF items item :
  Parse old = inl oldF ->
  FileNode oldF = ObjectList items ->
  In item items ->
  key_name (Keys item) 0 = Ok "plugin_cache_dir" ->
  is_panic (UpgradeOldHCLConfig Parse Bytes old) /\
  (forall next to q comments q',
      TakeBefore (NodeObjectItem item) q = Ok (comments, q') ->
      upgradeBody_item upgradeNestedBlock true item next to q =
      Panic (PanicMsg "ExpandEnv expression upgrade not yet supported")).
Proof.
  intros Hparse Hnode Hin Hname. split.
  - eapply UpgradeOldHCLConfig_expandEnv; try eassumption. reflexivity.
  - intros next to q comments q' Htake.
    eapply upgradeBody_item_expandEnv_msg; try eassumption. reflexivity.
Qed.

Lemma plugin_cache_dir_aborts_witness :
  is_panic (UpgradeOldHCLConfig (sample_Parse doc_plugin_cache_dir [])
                                sample_Bytes []).
Proof.
  refine (proj1 (plugin_cache_dir_aborts
                   (sample_Parse doc_plugin_cache_dir []) sample_Bytes []
                   (mkFile (ObjectList doc_plugin_cache_dir) [])
                   doc_plugin_cache_dir
                   (hd (mkObjectItem [] hcl1token.zero (ObjectList []) None None)
                       doc_plugin_cache_dir)
                   _ _ _ _)).
  - reflexivity.
  - reflexivity.
  - simpl. left. reflexivity.
  - reflexivity.
Defined.

(** ** Root items named [providers] *)

(** C2: a root item named [providers] makes the upgrade abort, whatever
    its value is, so in particular when a [${FOO}] sequence occurs in it:
    the whole upgrade panics instead of returning a document, and the
    iteration that reaches the item panics with the message of the
    unsupported ExpandEnv case. *)
Theorem providers_substitution_aborts Parse Bytes old oldF items item :
  Parse old = inl oldF ->
  FileNode oldF = ObjectList items ->
  In item items ->
  key_name (Keys item) 0 = Ok "providers" ->
  is_panic (UpgradeOldHCLConfig Parse Bytes old) /\
  (forall out, UpgradeOldHCLConfig Parse Bytes old <> Ok out) /\
  (forall next to q comments q',
      TakeBefore (NodeObjectItem item) q = Ok (comments, q') ->
      upgradeBody_item upgradeNestedBlock true item next to q =
      Panic (PanicMsg "ExpandEnv expression upgrade not yet supported")).
Proof.
  intros Hparse Hnode Hin Hname.
  assert (Hp : is_panic (UpgradeOldHCLConfig Parse Bytes old)).
  { eapply UpgradeOldHCLConfig_expandEnv; try eassumption. reflexivity. }
  split; [exact Hp |]. split.
  - apply is_panic_not_Ok. exact Hp.
  - intros next to q comments q' Htake.
    eapply upgradeBody_item_expandEnv_msg; try eassumption. reflexivity.
Qed.

Lemma providers_substitution_aborts_witness :
  is_panic (UpgradeOldHCLConfig (sample_Parse doc_providers_subst [])
                                sample_Bytes []).
Proof.
  refine (proj1 (providers_substitution_aborts
                   (sample_Parse doc_providers_subst []) sample_Bytes []
                   (mkFile (ObjectList doc_providers_subst) [])
                   doc_providers_subst
                   (hd (mkObjectItem [] hcl1token.zero (ObjectList []) None None)
                       doc_providers_subst)
                   _ _ _ _)).
  - reflexivity.
  - reflexivity.
  - simpl. left. reflexivity.
  - reflexivity.
Defined.

(** ** Unparseable input *)

(** C3: when the HCL 1.0 parser fails on the input, [UpgradeOldHCLConfig]
    returns normally, and what it returns is exactly the input bytes. *)
Theorem UpgradeOldHCLConfig_unparseable Parse Bytes old err :
  Parse old = inr err ->
  UpgradeOldHCLConfig Parse Bytes old = Ok old.
Proof. intros H. unfold UpgradeOldHCLConfig. rewrite H. reflexivity. Qed.

Lemma UpgradeOldHCLConfig_unparseable_witness :
  UpgradeOldHCLConfig reject_Parse sample_Bytes [Byte.x7b; Byte.x7b] =
  Ok [Byte.x7b; Byte.x7b].
Proof.
  apply (UpgradeOldHCLConfig_unparseable reject_Parse sample_Bytes
           [Byte.x7b; Byte.x7b] "syntax error").
  reflexivity.
Defined.

(** ** Substitution eligibility *)

(** C4: an item is treated as substitution-eligible exactly when the list
    is the document root and its name is one of the three fixed names.
    Whatever the values are, the ExpandEnv path is never taken in a list
    that is not the root (so at no nested level), nor in a root list whose
    items have other names; it is taken for a root item with one of the
    three names. *)
Theorem oldDidExpandEnv_exactly :
  (forall root name,
      oldDidExpandEnv root name = true <->
      root = true /\
      (name = "providers" \/ name = "provisioners" \/ name = "plugin_cache_dir")) /\
  (forall items to q, no_expandEnv_panic (upgradeBody items to q false)) /\
  (forall items to q,
      Forall (fun item => forall name,
                  key_name (Keys item) 0 = Ok name ->
                  name <> "providers" /\ name <> "provisioners" /\
                  name <> "plugin_cache_dir") items ->
      no_expandEnv_panic (upgradeBody items to q true)) /\
  (forall item next to q name comments q',
      key_name (Keys item) 0 = Ok name ->
      name = "providers" \/ name = "provisioners" \/ name = "plugin_cache_dir" ->
      TakeBefore (NodeObjectItem item) q = Ok (comments, q') ->
      upgradeBody_item upgradeNestedBlock true item next to q =
      Panic (PanicMsg "ExpandEnv expression upgrade not yet supported")).
Proof.
  split; [exact oldDidExpandEnv_spec |]. split; [| split].
  - intros items to q. unfold upgradeBody.
    apply upgradeBody_loop_no_expandEnv.
    + apply List.Forall_forall. intros item _. apply upgradeNestedBlock_no_expandEnv.
    + apply List.Forall_forall. intros item _ name _. reflexivity.
  - intros items to q Hnames. unfold upgradeBody.
    apply upgradeBody_loop_no_expandEnv.
    + apply List.Forall_forall. intros item _. apply upgradeNestedBlock_no_expandEnv.
    + eapply Forall_impl; [exact Hnames |].
      intros item Hitem name Hname. simpl in Hitem.
      destruct (oldDidExpandEnv true name) eqn:E; [| reflexivity].
      apply oldDidExpandEnv_spec in E. destruct E as [_ E].
      destruct (Hitem name Hname) as (H1 & H2 & H3).
      destruct E as [E | [E | E]]; contradiction.
  - intros item next to q name comments q' Hname Hset Htake.
    eapply upgradeBody_item_expandEnv_msg; try eassumption.
    apply oldDidExpandEnv_spec. split; [reflexivity | assumption].
Qed.

Lemma oldDidExpandEnv_exactly_witness :
  no_expandEnv_panic (upgradeBody doc_disable_checkpoint hcl2write.empty [] true).
Proof.
  apply (proj1 (proj2 (proj2 oldDidExpandEnv_exactly))).
  constructor; [| constructor].
  intros name Hname. injection Hname as <-.
  repeat split; discriminate.
Defined.

(** ** Taking groups from the queue *)



(** ** Writing the groups taken *)

(** C6 as stated fails: with a single group taken before the item, the
    code writes a separating newline after that last group, which the
    wording of the specification excludes. *)
Lemma adhoc_separator_counterexample :
  upgradeBody doc_host hcl2write.empty doc_host_queue true =
  Ok ([hcl2write.UnstructuredTokens
         (comment_tokens (sample_group 0 1 "# note"));
       newline_node;
       hcl2write.Block "host" ["example.com"] []], []) /\
  writeAdhocComments hcl2write.empty doc_host_queue <>
  spec_writeAdhocComments hcl2write.empty doc_host_queue.
Proof. split; [reflexivity | discriminate]. Qed.

(** C6, amended: the groups taken before an item are written right after
    what the body already held, in the order taken, each as its raw
    comment-token run followed by a separating newline, the last group
    included. *)
Theorem adhoc_comments_written root item next to q comments q1 to' q' :
  TakeBefore (NodeObjectItem item) q = Ok (comments, q1) ->
  upgradeBody_item upgradeNestedBlock root item next to q = Ok (to', q') ->
  writeAdhocComments to comments = to ++ adhoc_nodes comments /\
  exists pre rest,
    to' = pre ++ adhoc_nodes comments ++ rest /\ length pre = length to.
Proof.
  intros Htake H. split; [apply writeAdhocComments_app |].
  unfold upgradeBody_item in H. rewrite Htake in H. simpl in H.
  rewrite writeAdhocComments_app in H.
  inv_bind H. rename a into name. inv_bind H. destruct a as [to1 q2].
  assert (Hto1 : exists pre rest,
             to1 = pre ++ adhoc_nodes comments ++ rest /\ length pre = length to).
  { set (lead := match LeadComment item with
                 | None => []
                 | Some g => [hcl2write.UnstructuredTokens (comment_tokens g)]
                 end).
    assert (Hlead : writeComments (to ++ adhoc_nodes comments) (LeadComment item)
                    = to ++ adhoc_nodes comments ++ lead).
    { unfold lead, writeComments, hcl2write.AppendUnstructuredTokens.
      destruct (LeadComment item); rewrite <- ?app_assoc, ?app_nil_r; reflexivity. }
    assert (Hnoattr : no_attribute (adhoc_nodes comments ++ lead)).
    { apply Forall_app. split; [apply adhoc_nodes_no_attribute |].
      unfold lead. destruct (LeadComment item); repeat constructor. }
    rewrite Hlead in Ha0.
    destruct (oldDidExpandEnv root name).
    - inv_bind Ha0. destruct (upgradeArgument_expandEnv item
                                (to ++ adhoc_nodes comments ++ lead)) as [p Hp].
      congruence.
    - destruct (blockSyntax item).
      + apply upgradeNestedBlock_Ok in Ha0.
        destruct Ha0 as (n & labels & lb & rb & items & newBody & _ & _ & _ & _ & ->).
        exists to, (lead ++ [hcl2write.Block n labels newBody]).
        rewrite <- !app_assoc. split; reflexivity.
      + inv_bind Ha0. injection Ha0 as <- <-.
        unfold upgradeArgument in Ha1. inv_bind Ha1. rename a0 into name'.
        inv_bind Ha1. rename a0 into val. injection Ha1 as <-.
        destruct (SetAttributeValue_middle name' val to
                    (adhoc_nodes comments ++ lead) Hnoattr)
          as (pre & rest & Heq & Hlen).
        rewrite Heq.
        exists pre.
        unfold writeComments, hcl2write.AppendUnstructuredTokens.
        destruct (LineComment item) as [g|].
        * exists (lead ++ rest ++ [hcl2write.UnstructuredTokens (comment_tokens g)]).
          rewrite <- !app_assoc. split; [reflexivity | assumption].
        * exists (lead ++ rest).
          rewrite <- !app_assoc. split; [reflexivity | assumption]. }
  destruct Hto1 as (pre & rest & -> & Hlen).
  destruct next as [next|].
  - inv_bind H. destruct (wrap_int _ >? 1); injection H as <- <-.
    + exists pre, (rest ++ [newline_node]).
      unfold writeNewline, hcl2write.AppendNewline,
        hcl2write.AppendUnstructuredTokens, newline_node.
      rewrite <- !app_assoc. split; [reflexivity | assumption].
    + exists pre, rest. split; [reflexivity | assumption].
  - injection H as <- <-. exists pre, rest. split; [reflexivity | assumption].
Qed.

Lemma adhoc_comments_written_witness :
  exists pre rest,
    [hcl2write.UnstructuredTokens (comment_tokens (sample_group 0 1 "# note"));
     newline_node;
     hcl2write.Block "host" ["example.com"] []] =
    pre ++ adhoc_nodes doc_host_queue ++ rest /\
    length pre = length hcl2write.empty.
Proof.
  refine (proj2 (adhoc_comments_written true
                   (hd (mkObjectItem [] hcl1token.zero (ObjectList []) None None)
                       doc_host)
                   None hcl2write.empty doc_host_queue doc_host_queue [] _ []
                   _ _)).
  - reflexivity.
  - reflexivity.
Defined.

(** ** Attributes: the last definition wins *)




(** ** Blocks keep their nesting *)

(** C8: a successful [upgradeNestedBlock] appends one block whose type is
    the first key of the item, whose labels are the other keys in order,
    and whose body is the upgrade of the nested list as a non-root list;
    so the blocks of an upgraded body are the blocks of the input list,
    with the same types, labels, order and nesting, and as many levels;
    and the upgrade does return on a list the upgrader accepts. *)
Theorem blocks_preserved :
  (forall item to q to' q',
      upgradeNestedBlock item to q = Ok (to', q') ->
      exists name labels lb rb items newBody,
        mapM key_string (Keys item) = Ok (name :: labels) /\
        Val item = ObjectType lb rb items /\
        upgradeBody items hcl2write.empty q false = Ok (newBody, q') /\
        to' = to ++ [hcl2write.Block name labels newBody]) /\
  (forall items to q root to' q',
      upgradeBody items to q root = Ok (to', q') ->
      body_blocks to' = body_blocks to ++ items_blocks root items) /\
  (forall items q root to' q',
      upgradeBody items hcl2write.empty q root = Ok (to', q') ->
      blocks_depth (body_blocks to') = blocks_depth (items_blocks root items)) /\
  (forall items to q root,
      forallb (upgradable root) items = true ->
      queue_positioned q ->
      exists to' q',
        upgradeBody items to q root = Ok (to', q') /\
        body_blocks to' = body_blocks to ++ items_blocks root items).
Proof.
  assert (Hblocks : forall items to q root to' q',
             upgradeBody items to q root = Ok (to', q') ->
             body_blocks to' = body_blocks to ++ items_blocks root items).
  { intros items to q root to' q' H. unfold upgradeBody in H.
    eapply upgradeBody_loop_blocks; [| eassumption].
    apply List.Forall_forall. intros item _. apply upgradeNestedBlock_appends_block_tree. }
  split; [| split; [| split]].
  - intros item to q to' q' H. apply upgradeNestedBlock_Ok in H.
    destruct H as (name & labels & lb & rb & items & newBody
                   & Hname & Hlabels & Hval & Hbody & ->).
    exists name, labels, lb, rb, items, newBody.
    repeat split; try assumption.
    destruct (Keys item) as [|k ks]; [discriminate Hname |].
    simpl in *. unfold key_name in Hname. simpl in Hname.
    rewrite Hname. simpl. rewrite Hlabels. reflexivity.
  - exact Hblocks.
  - intros items q root to' q' H. rewrite (Hblocks _ _ _ _ _ _ H). reflexivity.
  - intros items to q root Hall Hq.
    destruct (upgradeBody_total items to q root Hall Hq) as (to' & q' & H).
    exists to', q'. split; [exact H | eapply Hblocks; exact H].
Qed.

Lemma blocks_preserved_witness :
  exists to' q',
    upgradeBody doc_nested hcl2write.empty [] true = Ok (to', q') /\
    body_blocks to' = body_blocks hcl2write.empty ++ items_blocks true doc_nested.
Proof.
  refine (proj2 (proj2 (proj2 blocks_preserved)) doc_nested hcl2write.empty [] true _ _).
  - reflexivity.
  - constructor.
Defined.

(** ** Lists convert to tuples *)



(** ** Items whose value is not an object *)

(** C10: an item that is not substitution-eligible and whose value is not
    an object is classified as block syntax and handed to
    [upgradeNestedBlock], whose type assertion on the value fails: the
    iteration panics (with the interface-conversion error when the queue
    and the keys can be read), so does every list that contains such an
    item; the argument path is taken only for values that are objects. *)
Theorem non_object_value_panics (root : bool) (item : ObjectItem) (name : string) :
  key_name (Keys item) 0 = Ok name ->
  oldDidExpandEnv root name = false ->
  is_ObjectType (Val item) = false ->
  blockSyntax item = true /\
  (forall next to q,
      is_panic (upgradeBody_item upgradeNestedBlock root item next to q)) /\
  (forall next to q comments q' labels,
      TakeBefore (NodeObjectItem item) q = Ok (comments, q') ->
      mapM key_string (tail (Keys item)) = Ok labels ->
      upgradeBody_item upgradeNestedBlock root item next to q =
      Panic InterfaceConversion) /\
  (forall items to q,
      In item items -> is_panic (upgradeBody items to q root)) /\
  (forall item' : ObjectItem,
      blockSyntax item' = false -> is_ObjectType (Val item') = true).
Proof.
  intros Hname Hexp Hval.
  assert (Hblock : blockSyntax item = true)
    by (apply blockSyntax_not_ObjectType; assumption).
  assert (Hitem : forall next to q,
             is_panic (upgradeBody_item upgradeNestedBlock root item next to q)).
  { intros next to q. unfold upgradeBody_item.
    apply bind_Panic_r. intros [comments q'].
    rewrite Hname. simpl. rewrite Hexp, Hblock.
    apply bind_Panic_l. apply upgradeNestedBlock_not_ObjectType. assumption. }
  split; [exact Hblock |]. split; [exact Hitem |]. split; [| split].
  - intros next to q comments q' labels Htake Hlabels.
    unfold upgradeBody_item. rewrite Htake. simpl.
    rewrite Hname. simpl. rewrite Hexp, Hblock.
    erewrite upgradeNestedBlock_not_ObjectType_conversion; eauto.
  - intros items to q Hin. unfold upgradeBody.
    eapply upgradeBody_loop_panics; eassumption.
  - intros item' Hb. destruct (is_ObjectType (Val item')) eqn:E; [reflexivity |].
    rewrite (blockSyntax_not_ObjectType item' E) in Hb. discriminate.
Qed.

Lemma non_object_value_panics_witness :
  is_panic (upgradeBody doc_disable_checkpoint hcl2write.empty [] true).
Proof.
  pose proof (non_object_value_panics true
                (hd (mkObjectItem [] hcl1token.zero (ObjectList []) None None)
                    doc_disable_checkpoint)
                "disable_checkpoint" eq_refl eq_refl eq_refl) as (_ & _ & _ & H & _).
  apply H. simpl. left. reflexivity.
Defined.

(** * Further properties *)

(** ** [TakeBeforePos] on any queue, and calls in a row *)

Lemma TakeBeforePos_index_spec pos q i :
  TakeBeforePos_index pos q = Ok i ->
  Forall (fun g => group_at_or_before pos g = true) (firstn i q) /\
  match skipn i q with
  | [] => True
  | g :: _ => exists p, CommentGroup_Pos g = Ok p /\ After p pos = true
  end.
Proof.
  revert i. induction q as [|g q IH]; intros i H; simpl in H.
  - injection H as <-. simpl. split; [constructor | exact I].
  - inv_bind H. rename a into p. destruct (After p pos) eqn:Hafter.
    + injection H as <-. simpl. split; [constructor |]. eauto.
    + inv_bind H. rename a into j. injection H as <-.
      destruct (IH j Ha0) as [Hret Hrest]. simpl. split; [| exact Hrest].
      constructor; [| exact Hret].
      rewrite (group_at_or_before_Ok pos g p Ha), Hafter. reflexivity.
Qed.

(** X1: whatever the queue holds and in whatever order, a call that
    returns splits the queue in two: every group it returns is at or
    before the cutoff, and the first group it leaves, if there is one, lies
    after the cutoff. *)
Theorem TakeBeforePos_any_queue pos q ret q' :
  TakeBeforePos pos q = Ok (ret, q') ->
  ret ++ q' = q /\
  Forall (fun g => group_at_or_before pos g = true) ret /\
  match q' with
  | [] => True
  | g :: _ => exists p, CommentGroup_Pos g = Ok p /\ After p pos = true
  end.
Proof.
  intros H. split; [eapply TakeBeforePos_app; exact H |].
  rewrite TakeBeforePos_split_at in H. inv_bind H. rename a into i.
  injection H as <- <-. apply TakeBeforePos_index_spec. assumption.
Qed.

Lemma TakeBeforePos_any_queue_witness :
  Forall (fun g => group_at_or_before (sample_pos 30 4 1) g = true)
         [sample_group 0 1 "# one"; sample_group 20 3 "# two"].
Proof.
  refine (proj1 (proj2 (TakeBeforePos_any_queue (sample_pos 30 4 1) sample_queue
                          [sample_group 0 1 "# one"; sample_group 20 3 "# two"]
                          [sample_group 45 5 "# three"] _))).
  reflexivity.
Defined.

Lemma mapM_app_inv {A B} (f : A -> result B) l1 l2 vs :
  mapM f (l1 ++ l2) = Ok vs ->
  exists v1 v2, vs = v1 ++ v2 /\ mapM f l1 = Ok v1 /\ mapM f l2 = Ok v2.
Proof.
  revert vs. induction l1 as [|x l1 IH]; intros vs H; simpl in *.
  - exists [], vs. auto.
  - inv_bind H. inv_bind H. injection H as <-.
    destruct (IH _ Ha0) as (v1 & v2 & -> & H1 & H2).
    exists (a :: v1), v2. rewrite Ha, H1. simpl. auto.
Qed.

Lemma queue_ascending_app_inv q1 q2 ps :
  queue_ascending (q1 ++ q2) ps ->
  exists p1 p2, ps = p1 ++ p2 /\ queue_ascending q1 p1 /\ queue_ascending q2 p2.
Proof.
  intros [Hps Hsorted].
  destruct (mapM_app_inv _ _ _ _ Hps) as (p1 & p2 & -> & H1 & H2).
  exists p1, p2. split; [reflexivity |].
  split; split; try assumption.
  - eapply StronglySorted_app_1_l. exact Hsorted.
  - eapply StronglySorted_app_1_r. exact Hsorted.
Qed.

Lemma group_at_or_before_offsets ps pos g p :
  lines_follow_offsets (pos :: ps) -> In p ps ->
  CommentGroup_Pos g = Ok p ->
  group_at_or_before pos g = true <-> Offset p <= Offset pos.
Proof.
  intros Hfile Hin Hp.
  rewrite (group_at_or_before_Ok pos g p Hp), negb_true_iff.
  rewrite <- not_true_iff_false.
  rewrite (After_offsets (pos :: ps) p pos Hfile);
    [lia | right; assumption | left; reflexivity].
Qed.

Lemma filter_ext_in_bool {A} (f g : A -> bool) l :
  (forall x, In x l -> f x = g x) -> List.filter f l = List.filter g l.
Proof.
  induction l as [|x l IH]; intros H; simpl; [reflexivity |].
  rewrite (H x (or_introl eq_refl)), IH; [reflexivity |].
  intros y Hy. apply H. right. assumption.
Qed.

Lemma filter_all_true {A} (f : A -> bool) l :
  (forall x, In x l -> f x = true) -> List.filter f l = l.
Proof.
  induction l as [|x l IH]; intros H; simpl; [reflexivity |].
  rewrite (H x (or_introl eq_refl)), IH; [reflexivity |].
  intros y Hy. apply H. right. assumption.
Qed.

Lemma filter_all_false {A} (f : A -> bool) l :
  (forall x, In x l -> f x = false) -> List.filter f l = [].
Proof.
  induction l as [|x l IH]; intros H; simpl; [reflexivity |].
  rewrite (H x (or_introl eq_refl)), IH; [reflexivity |].
  intros y Hy. apply H. right. assumption.
Qed.

(** X2: on the ascending queue of one source file, two calls in a row
    with cutoffs that do not go back return together what one call with
    the later cutoff returns, and leave the same queue; a call with a
    cutoff that is not later than the one before returns nothing and
    leaves the queue as it is. *)
Theorem TakeBeforePos_twice pos1 pos2 q ps :
  queue_ascending q ps ->
  lines_follow_offsets (pos1 :: pos2 :: ps) ->
  exists r1 q1,
    TakeBeforePos pos1 q = Ok (r1, q1) /\
    (Offset pos1 <= Offset pos2 ->
     exists r2 q2,
       TakeBeforePos pos2 q1 = Ok (r2, q2) /\
       TakeBeforePos pos2 q = Ok (r1 ++ r2, q2)) /\
    (Offset pos2 <= Offset pos1 -> TakeBeforePos pos2 q1 = Ok ([], q1)).
Proof.
  intros Hq Hfile.
  assert (Hfile1 : lines_follow_offsets (pos1 :: ps)).
  { intros a b Ha Hb. apply Hfile; simpl in *; tauto. }
  assert (Hfile2 : lines_follow_offsets (pos2 :: ps)).
  { intros a b Ha Hb. apply Hfile; simpl in *; tauto. }
  pose proof (TakeBeforePos_exact pos1 q ps Hq Hfile1) as H1.
  set (r1 := List.filter (group_at_or_before pos1) q) in *.
  set (q1 := List.filter (fun g => negb (group_at_or_before pos1 g)) q) in *.
  exists r1, q1. split; [exact H1 |].
  pose proof (TakeBeforePos_app _ _ _ _ H1) as Hsplit.
  pose proof Hq as Hq'. rewrite <- Hsplit in Hq'.
  destruct (queue_ascending_app_inv _ _ _ Hq') as (p1 & p2 & Hps & Hr1 & Hq1).
  assert (Hfile2' : lines_follow_offsets (pos2 :: p2)).
  { intros a b Ha Hb. apply Hfile2; subst ps; simpl in *;
      rewrite in_app_iff; tauto. }
  pose proof (TakeBeforePos_exact pos2 q1 p2 Hq1 Hfile2') as H2.
  assert (Hoff : forall pos, lines_follow_offsets (pos :: ps) -> forall g, In g q ->
             exists p, In p ps /\ CommentGroup_Pos g = Ok p /\
                       (group_at_or_before pos g = true <-> Offset p <= Offset pos)).
  { intros pos Hf g Hg. destruct Hq as [Hmap _].
    destruct (mapM_In _ _ _ _ Hmap Hg) as (p & Hp & Hin).
    exists p. split; [assumption |]. split; [assumption |].
    eapply group_at_or_before_offsets; eassumption. }
  assert (Hr1q : forall g, In g r1 -> In g q /\ group_at_or_before pos1 g = true).
  { intros g Hg. unfold r1 in Hg. apply filter_In in Hg. exact Hg. }
  assert (Hq1q : forall g, In g q1 -> In g q /\ group_at_or_before pos1 g = false).
  { intros g Hg. unfold q1 in Hg. apply filter_In in Hg.
    destruct Hg as [Hg Hf]. apply negb_true_iff in Hf. auto. }
  split.
  - intros Hle. eexists _, _. split; [exact H2 |].
    rewrite (TakeBeforePos_exact pos2 q ps Hq Hfile2).
    rewrite <- Hsplit at 1 2. rewrite !List.filter_app.
    rewrite (filter_all_true (group_at_or_before pos2) r1).
    + rewrite (filter_all_false (fun g => negb (group_at_or_before pos2 g)) r1);
        [reflexivity |].
      intros g Hg. destruct (Hr1q g Hg) as [Hgq Hb].
      destruct (Hoff pos1 Hfile1 g Hgq) as (p & _ & Hp & Hiff1).
      destruct (Hoff pos2 Hfile2 g Hgq) as (p' & _ & Hp' & Hiff2).
      rewrite Hp in Hp'. injection Hp' as <-.
      apply negb_false_iff. apply Hiff2. apply Hiff1 in Hb. lia.
    + intros g Hg. destruct (Hr1q g Hg) as [Hgq Hb].
      destruct (Hoff pos1 Hfile1 g Hgq) as (p & _ & Hp & Hiff1).
      destruct (Hoff pos2 Hfile2 g Hgq) as (p' & _ & Hp' & Hiff2).
      rewrite Hp in Hp'. injection Hp' as <-.
      apply Hiff2. apply Hiff1 in Hb. lia.
  - intros Hle. rewrite H2.
    rewrite (filter_all_false (group_at_or_before pos2) q1).
    + rewrite (filter_all_true (fun g => negb (group_at_or_before pos2 g)) q1);
        [reflexivity |].
      intros g Hg. destruct (Hq1q g Hg) as [Hgq Hb].
      destruct (Hoff pos1 Hfile1 g Hgq) as (p & _ & Hp & Hiff1).
      destruct (Hoff pos2 Hfile2 g Hgq) as (p' & _ & Hp' & Hiff2).
      rewrite Hp in Hp'. injection Hp' as <-.
      apply negb_true_iff. apply not_true_iff_false. intros E.
      apply Hiff2 in E. assert (Hp1 : Offset p <= Offset pos1) by lia.
      apply Hiff1 in Hp1. congruence.
    + intros g Hg. destruct (Hq1q g Hg) as [Hgq Hb].
      destruct (Hoff pos1 Hfile1 g Hgq) as (p & _ & Hp & Hiff1).
      destruct (Hoff pos2 Hfile2 g Hgq) as (p' & _ & Hp' & Hiff2).
      rewrite Hp in Hp'. injection Hp' as <-.
      apply not_true_iff_false. intros E.
      apply Hiff2 in E. assert (Hp1 : Offset p <= Offset pos1) by lia.
      apply Hiff1 in Hp1. congruence.
Qed.

Lemma TakeBeforePos_twice_witness :
  exists r1 q1,
    TakeBeforePos (sample_pos 10 2 1) sample_queue = Ok (r1, q1) /\
    (Offset (sample_pos 10 2 1) <= Offset (sample_pos 30 4 1) ->
     exists r2 q2,
       TakeBeforePos (sample_pos 30 4 1) q1 = Ok (r2, q2) /\
       TakeBeforePos (sample_pos 30 4 1) sample_queue = Ok (r1 ++ r2, q2)) /\
    (Offset (sample_pos 30 4 1) <= Offset (sample_pos 10 2 1) ->
     TakeBeforePos (sample_pos 30 4 1) q1 = Ok ([], q1)).
Proof.
  refine (TakeBeforePos_twice (sample_pos 10 2 1) (sample_pos 30 4 1) sample_queue
            [sample_pos 0 1 1; sample_pos 20 3 1; sample_pos 45 5 1] _ _).
  - split; [reflexivity |]. repeat constructor.
  - intros p u Hp Hu. simpl in Hp, Hu.
    destruct Hp as [<-|[<-|[<-|[<-|[<-|[]]]]]];
      destruct Hu as [<-|[<-|[<-|[<-|[<-|[]]]]]];
      unfold sample_pos; simpl; lia.
Defined.

(** ** What [collectAdhocComments] keeps *)

Lemma delete_list_lookup (ps : list Pos) (m : gmap Pos CommentGroup) p :
  fold_left (fun m p => delete p m) ps m !! p =
  if decide (p ∈ ps) then None else m !! p.
Proof.
  revert m. induction ps as [|x ps IH]; intros m; simpl.
  - destruct (decide (p ∈ [])) as [H | _]; [inversion H | reflexivity].
  - rewrite IH.
    destruct (decide (p ∈ ps)) as [Hin | Hnin];
      destruct (decide (p ∈ x :: ps)) as [Hin' | Hnin']; try reflexivity.
    + exfalso. apply Hnin'. right. assumption.
    + apply elem_of_cons in Hin'. destruct Hin' as [-> | Hin']; [| contradiction].
      apply lookup_delete_eq.
    + apply lookup_delete_ne. intros ->. apply Hnin'. left.
Qed.

Lemma fold_left_delete_app (l1 l2 : list Pos) (m : gmap Pos CommentGroup) :
  fold_left (fun m p => delete p m) (l1 ++ l2) m =
  fold_left (fun m p => delete p m) l2 (fold_left (fun m p => delete p m) l1 m).
Proof. apply fold_left_app. Qed.

Lemma delete_attached_fold g (m : gmap Pos CommentGroup) :
  delete_attached g m = fold_left (fun m p => delete p m) (group_positions g) m.
Proof.
  destruct g as [g|]; simpl; [| reflexivity].
  generalize (List g). intros l. revert m.
  induction l as [|c l IH]; intros m; simpl; [reflexivity | apply IH].
Qed.

(** The walk deletes the attached positions, and nothing else. *)
Lemma Walk_drop_attached_fold node : forall m : gmap Pos CommentGroup,
  Walk drop_attached node m =
  fold_left (fun m p => delete p m) (attached_positions node) m.
Proof.
  assert (Hitem : forall i,
             (forall m, Walk drop_attached (Val i) m =
                        fold_left (fun m p => delete p m) (attached_positions (Val i)) m) ->
             forall m, Walk_ObjectItem drop_attached i m =
                       fold_left (fun m p => delete p m)
                                 (attached_positions_ObjectItem i) m).
  { intros [keys a v lead line] Hv m. simpl in *. rewrite Hv.
    assert (Hkeys : forall ks (s : gmap Pos CommentGroup),
               fold_left (fun s k => drop_attached (NodeObjectKey k) s) ks s = s).
    { induction ks as [|k ks IHk]; intros s; simpl; [reflexivity | apply IHk]. }
    rewrite Hkeys, !fold_left_delete_app, !delete_attached_fold. reflexivity. }
  assert (Hitems : forall items,
             Forall (fun i => forall m, Walk drop_attached (Val i) m =
                        fold_left (fun m p => delete p m)
                                  (attached_positions (Val i)) m) items ->
             forall m,
               (fix items_loop (l : list ObjectItem) (s : gmap Pos CommentGroup) :=
                  match l with
                  | [] => s
                  | i :: l' => items_loop l' (Walk_ObjectItem drop_attached i s)
                  end) items m =
               fold_left (fun m p => delete p m)
                         (flat_map attached_positions_ObjectItem items) m).
  { induction 1 as [|i items Hi _ IH]; intros m; [reflexivity |].
    cbn [flat_map]. rewrite fold_left_delete_app, IH, (Hitem i Hi). reflexivity. }
  induction node as [n comments IH|items IH|k|i IH|c|g|tok lead line
                     |lb rb elems IH|lb rb items IH] using Node_nested_ind;
    intros m; simpl; try reflexivity.
  - apply IH.
  - apply Hitems. assumption.
  - apply Hitem. assumption.
  - rewrite fold_left_delete_app, !delete_attached_fold. reflexivity.
  - revert m. induction IH as [|n elems Hn _ IHl]; intros m; [reflexivity |].
    cbn [flat_map]. rewrite fold_left_delete_app, IHl, Hn. reflexivity.
  - apply Hitems. assumption.
Qed.

Lemma index_comments_lookup cs : forall (m m' : gmap Pos CommentGroup),
  index_comments cs m = Ok m' ->
  forall p g, m' !! p = Some g ->
              m !! p = Some g \/ (In g cs /\ CommentGroup_Pos g = Ok p).
Proof.
  induction cs as [|c cs IH]; intros m m' H p g Hlook; simpl in H.
  - injection H as <-. left. assumption.
  - inv_bind H. rename a into p0.
    destruct (IH _ _ H p g Hlook) as [Hm | [Hin Hp]].
    + apply lookup_insert_Some in Hm. destruct Hm as [[<- <-] | [_ Hm]].
      * right. split; [left; reflexivity | assumption].
      * left. assumption.
    + right. split; [right; assumption | assumption].
Qed.

Lemma index_comments_monotone cs : forall (m m' : gmap Pos CommentGroup) p,
  index_comments cs m = Ok m' -> is_Some (m !! p) -> is_Some (m' !! p).
Proof.
  induction cs as [|c cs IH]; intros m m' p H Hp; simpl in H.
  - injection H as <-. assumption.
  - inv_bind H. eapply IH; [exact H |].
    apply lookup_insert_is_Some.
    destruct (decide (a = p)); [left; assumption | right; split; assumption].
Qed.

Lemma index_comments_In cs : forall (m m' : gmap Pos CommentGroup),
  index_comments cs m = Ok m' ->
  forall g p, In g cs -> CommentGroup_Pos g = Ok p -> is_Some (m' !! p).
Proof.
  induction cs as [|c cs IH]; intros m m' H g p Hin Hp; simpl in H.
  - destruct Hin.
  - inv_bind H. destruct Hin as [-> | Hin].
    + rewrite Hp in Ha. injection Ha as <-.
      eapply index_comments_monotone; [exact H |].
      rewrite lookup_insert_eq. eauto.
    + eapply IH; eassumption.
Qed.

Lemma index_comments_is_Ok cs : forall m : gmap Pos CommentGroup,
  is_Ok (index_comments cs m) =
  forallb (fun g => is_Ok (CommentGroup_Pos g)) cs.
Proof.
  induction cs as [|c cs IH]; intros m; simpl; [reflexivity |].
  destruct (CommentGroup_Pos c) as [p|]; simpl; [apply IH | reflexivity].
Qed.

Lemma sort_Slice_Permutation {A} (less : A -> A -> bool) l :
  Permutation (sort_Slice less l) l.
Proof.
  assert (Hins : forall x l, Permutation (sort_insert less x l) (x :: l)).
  { intros x l0. induction l0 as [|y l0 IH]; simpl; [reflexivity |].
    destruct (less x y); [reflexivity |].
    rewrite IH. apply perm_swap. }
  induction l as [|x l IH]; simpl; [reflexivity |].
  rewrite Hins. constructor. exact IH.
Qed.

(** The queue is the map that is left after the walk, as a list. *)
Lemma collectAdhocComments_map f q :
  collectAdhocComments f = Ok q ->
  exists m1 : gmap Pos CommentGroup,
    index_comments (Comments f) ∅ = Ok m1 /\
    let m2 := fold_left (fun m p => delete p m) (attached_positions (NodeFile f)) m1 in
    exists l, Permutation l (map_to_list m2) /\ q = map snd l.
Proof.
  unfold collectAdhocComments. intros H. inv_bind H. rename a into m1.
  exists m1. split; [assumption |]. rewrite Walk_drop_attached_fold in H.
  cbv zeta.
  set (m2 := fold_left (fun m p => delete p m) (attached_positions (NodeFile f)) m1) in *.
  destruct (size m2 =? 0)%nat eqn:Hsize.
  - injection H as <-. apply Nat.eqb_eq in Hsize. apply map_size_empty_iff in Hsize.
    exists []. rewrite Hsize, map_to_list_empty. split; reflexivity.
  - injection H as <-. eexists. split; [apply sort_Slice_Permutation | reflexivity].
Qed.

(** X3: the queue holds groups of the comment table of the file only, and
    none at a position where a comment is attached, as lead or line
    comment, to an object item or a literal of the tree; a group of the
    table that is alone at its position, with no comment attached there,
    is in the queue. *)
Theorem collectAdhocComments_keeps f q :
  collectAdhocComments f = Ok q ->
  (forall g, In g q ->
             In g (Comments f) /\
             exists p, CommentGroup_Pos g = Ok p /\
                       ~ In p (attached_positions (NodeFile f))) /\
  (forall g p,
      In g (Comments f) ->
      CommentGroup_Pos g = Ok p ->
      ~ In p (attached_positions (NodeFile f)) ->
      (forall g', In g' (Comments f) -> CommentGroup_Pos g' = Ok p -> g' = g) ->
      In g q).
Proof.
  intros H. destruct (collectAdhocComments_map f q H) as (m1 & Hm1 & l & Hperm & ->).
  assert (Hl : forall p g, In (p, g) l <->
             fold_left (fun m p => delete p m) (attached_positions (NodeFile f)) m1
               !! p = Some g).
  { intros p g. rewrite <- elem_of_map_to_list, <- list_elem_of_In.
    split; intros Hin; [rewrite <- Hperm | rewrite Hperm]; exact Hin. }
  split.
  - intros g Hg. apply in_map_iff in Hg. destruct Hg as ([p g'] & <- & Hin).
    apply Hl in Hin. rewrite delete_list_lookup in Hin.
    destruct (decide (p ∈ attached_positions (NodeFile f))) as [|Hnin];
      [discriminate |].
    destruct (index_comments_lookup _ _ _ Hm1 p g' Hin) as [Hempty | [Hc Hp]].
    + rewrite lookup_empty in Hempty. discriminate.
    + simpl. split; [assumption |]. exists p. split; [assumption |].
      rewrite <- list_elem_of_In. assumption.
  - intros g p Hin Hp Hnin Huniq.
    destruct (index_comments_In _ _ _ Hm1 g p Hin Hp) as [g' Hg'].
    destruct (index_comments_lookup _ _ _ Hm1 p g' Hg') as [Hempty | [Hc Hp']].
    + rewrite lookup_empty in Hempty. discriminate.
    + rewrite (Huniq g' Hc Hp') in Hg'.
      apply in_map_iff. exists (p, g). split; [reflexivity |].
      apply Hl. rewrite delete_list_lookup.
      destruct (decide (p ∈ attached_positions (NodeFile f))) as [Hel|]; [| assumption].
      apply list_elem_of_In in Hel. contradiction.
Qed.

Lemma collectAdhocComments_keeps_witness :
  In (sample_group 40 4 "# on its own") [sample_group 40 4 "# on its own"] /\
  ~ In sample_lead [sample_group 40 4 "# on its own"].
Proof.
  pose proof (collectAdhocComments_keeps sample_file_attached
                [sample_group 40 4 "# on its own"] eq_refl) as [Hin Hkeep].
  split.
  - apply (Hkeep _ (sample_pos 40 4 1)).
    + right. left. reflexivity.
    + reflexivity.
    + simpl. intros [E | []]. discriminate E.
    + intros g' [<- | [<- | []]] Hp; [discriminate Hp | reflexivity].
  - intros Hlead. destruct (Hin _ Hlead) as (_ & p & Hp & Hnin).
    injection Hp as <-. apply Hnin. left. reflexivity.
Defined.

(** X4: no two groups of the queue are at the same position, whatever the
    comment table of the file holds. *)
Theorem collectAdhocComments_distinct_positions f q :
  collectAdhocComments f = Ok q ->
  exists ps, mapM CommentGroup_Pos q = Ok ps /\ List.NoDup ps.
Proof.
  intros H. destruct (collectAdhocComments_map f q H) as (m1 & Hm1 & l & Hperm & ->).
  set (m2 := fold_left (fun m p => delete p m) (attached_positions (NodeFile f)) m1) in *.
  exists (map fst l). split.
  - apply mapM_map_snd. intros [p g] Hin. simpl.
    apply list_elem_of_In in Hin. rewrite Hperm in Hin.
    apply elem_of_map_to_list in Hin. unfold m2 in Hin.
    rewrite delete_list_lookup in Hin.
    destruct (decide (p ∈ attached_positions (NodeFile f))); [discriminate |].
    destruct (index_comments_lookup _ _ _ Hm1 p g Hin) as [Hempty | [_ Hp]];
      [rewrite lookup_empty in Hempty; discriminate | assumption].
  - apply NoDup_ListNoDup.
    assert (Hfst : map fst l ≡ₚ (map_to_list m2).*1) by (rewrite Hperm; reflexivity).
    rewrite Hfst. apply NoDup_fst_map_to_list.
Qed.

Lemma collectAdhocComments_distinct_positions_witness :
  exists ps, mapM CommentGroup_Pos [sample_group 40 4 "# on its own"] = Ok ps /\
             List.NoDup ps.
Proof.
  apply (collectAdhocComments_distinct_positions sample_file_attached).
  reflexivity.
Defined.

Lemma collectAdhocComments_is_Ok f :
  is_Ok (collectAdhocComments f) =
  forallb (fun g => is_Ok (CommentGroup_Pos g)) (Comments f).
Proof.
  unfold collectAdhocComments.
  rewrite <- (index_comments_is_Ok (Comments f) ∅).
  destruct (index_comments (Comments f) ∅) as [m1|]; simpl; [| reflexivity].
  destruct (size _ =? 0)%nat; reflexivity.
Qed.

(** X5: [collectAdhocComments] returns exactly when every group of the
    comment table of the file has a comment; a group without one makes it
    panic, with the index error of the Go runtime. *)
Theorem collectAdhocComments_returns f :
  is_Ok (collectAdhocComments f) =
  forallb (fun g => is_Ok (CommentGroup_Pos g)) (Comments f) /\
  (forall p, collectAdhocComments f = Panic p -> p = IndexOutOfRange).
Proof.
  split; [apply collectAdhocComments_is_Ok |].
  unfold collectAdhocComments. intros p H.
  assert (Hidx : forall cs (m : gmap Pos CommentGroup),
             index_comments cs m = Panic p -> p = IndexOutOfRange).
  { induction cs as [|c cs IH]; intros m Hm; simpl in Hm; [discriminate |].
    unfold CommentGroup_Pos in Hm. destruct (List c); simpl in Hm.
    - injection Hm as <-. reflexivity.
    - eapply IH. exact Hm. }
  destruct (index_comments (Comments f) ∅) as [m1|p'] eqn:E; simpl in H.
  - destruct (size _ =? 0)%nat; discriminate.
  - injection H as ->. eapply Hidx. exact E.
Qed.

(** ** The tokens of a comment group *)

(** X6: the run that [writeComments] builds for a group keeps the comments
    as they are: it has two tokens for each comment, every comment token
    is directly followed by a newline token, and the bytes of the comment
    tokens, read back as strings, are the texts of the comments of the
    group in their order. *)
Theorem comment_tokens_keep_text (g : CommentGroup) :
  length (comment_tokens g) = (2 * length (List g))%nat /\
  map (fun t => string_of_list_byte (hcl2write.Bytes t))
      (List.filter is_comment_token (comment_tokens g)) = map Text (List g) /\
  (forall l1 t l2,
      comment_tokens g = l1 ++ t :: l2 ->
      is_comment_token t = true ->
      exists l2', l2 = hcl2write.mkToken hcl2write.TokenNewline [Byte.x0a] :: l2').
Proof.
  unfold comment_tokens. generalize (List g). intros l.
  split; [| split].
  - induction l as [|c l IH]; simpl; [reflexivity |]. rewrite IH. lia.
  - induction l as [|c l IH]; simpl; [reflexivity |].
    rewrite IH, string_of_list_byte_of_string. reflexivity.
  - induction l as [|c l IH]; intros l1 t l2 Heq Ht; simpl in Heq.
    + destruct l1; discriminate.
    + destruct l1 as [|t1 l1]; simpl in Heq.
      * injection Heq as <- <-. eauto.
      * injection Heq as <- Heq. destruct l1 as [|t2 l1]; simpl in Heq.
        -- injection Heq as <- <-. discriminate Ht.
        -- injection Heq as <- Heq. eapply IH; eassumption.
Qed.

(** ** The constant expression converter *)

Lemma object_vals_lookup convert items : forall vals m name,
  object_vals convert items vals = Ok m ->
  match last (List.filter (is_named name) items) with
  | Some d => exists v, convert (Val d) = Ok v /\ m !! name = Some v
  | None => m !! name = vals !! name
  end.
Proof.
  induction items as [|i items IH]; intros vals m name H; simpl in H.
  - injection H as <-. reflexivity.
  - inv_bind H. rename a into n. inv_bind H. rename a into v.
    specialize (IH _ _ name H). cbn [List.filter].
    unfold is_named at 1. rewrite Ha.
    destruct (String.eqb_spec n name) as [-> | Hne].
    + rewrite last_cons.
      destruct (last (List.filter (is_named name) items)); [exact IH |].
      exists v. split; [assumption |]. rewrite IH. apply lookup_insert_eq.
    + destruct (last (List.filter (is_named name) items)); [exact IH |].
      rewrite IH. apply lookup_insert_ne. assumption.
Qed.

(** X7: an object converts to an object value with one attribute for each
    name its items bear as first key; when several items bear the same
    name the attribute holds the conversion of the value of the last of
    them, and a name that no item bears has no attribute. *)
Theorem object_converts_last_wins lb rb items v :
  upgradeExpressionConstant (ObjectType lb rb items) = Ok v ->
  exists attrs,
    v = cty.ObjectVal attrs /\
    forall name,
      (forall earlier d,
          List.filter (is_named name) items = earlier ++ [d] ->
          exists vd, upgradeExpressionConstant (Val d) = Ok vd /\
                     attrs !! name = Some vd) /\
      (List.filter (is_named name) items = [] -> attrs !! name = None).
Proof.
  simpl. intros H. inv_bind H. rename a into attrs. injection H as <-.
  exists attrs. split; [reflexivity |]. intros name.
  pose proof (object_vals_lookup _ _ _ _ name Ha) as Hl. split.
  - intros earlier d Heq. rewrite Heq, last_snoc in Hl. exact Hl.
  - intros Heq. rewrite Heq in Hl. simpl in Hl. rewrite Hl. apply lookup_empty.
Qed.

Lemma object_converts_last_wins_witness :
  exists attrs,
    cty.ObjectVal (<["a" := cty.TupleVal [cty.BoolVal true]]>
                     (<["b" := cty.ObjectVal ∅]> ∅)) = cty.ObjectVal attrs /\
    forall name,
      (forall earlier d,
          List.filter (is_named name)
            match sample_object_dup with ObjectType _ _ items => items | _ => [] end
          = earlier ++ [d] ->
          exists vd, upgradeExpressionConstant (Val d) = Ok vd /\
                     attrs !! name = Some vd) /\
      (List.filter (is_named name)
         match sample_object_dup with ObjectType _ _ items => items | _ => [] end = [] ->
       attrs !! name = None).
Proof.
  refine (object_converts_last_wins (sample_pos 0 1 1) (sample_pos 33 1 34) _ _ _).
  vm_compute. reflexivity.
Defined.

Lemma mapM_is_Ok {A B} (f : A -> result B) l :
  is_Ok (mapM f l) = forallb (fun x => is_Ok (f x)) l.
Proof.
  induction l as [|x l IH]; simpl; [reflexivity |].
  destruct (f x); simpl; [| reflexivity].
  rewrite <- IH. destruct (mapM f l); reflexivity.
Qed.

Lemma object_vals_is_Ok convert items : forall vals,
  is_Ok (object_vals convert items vals) =
  forallb (fun i => is_Ok (key_name (Keys i) 0) && is_Ok (convert (Val i))) items.
Proof.
  induction items as [|i items IH]; intros vals; simpl; [reflexivity |].
  destruct (key_name (Keys i) 0); simpl; [| reflexivity].
  destruct (convert (Val i)); simpl; [apply IH | reflexivity].
Qed.

Lemma forallb_ext_Forall {A} (f g : A -> bool) l :
  Forall (fun x => f x = g x) l -> forallb f l = forallb g l.
Proof.
  induction 1 as [|x l Hx _ IH]; simpl; [reflexivity |]. rewrite Hx, IH. reflexivity.
Qed.

(** X8: the converter returns exactly on constant expressions: literals
    whose token value is a string, an int, a float64 or a bool, lists of
    constants, and objects whose items have a readable first key and a
    constant value; on every other node it panics. *)
Theorem upgradeExpressionConstant_returns (n : Node) :
  is_Ok (upgradeExpressionConstant n) = is_constant n.
Proof.
  induction n as [n comments IH|items IH|k|i IH|c|g|tok lead line
                  |lb rb elems IH|lb rb items IH] using Node_nested_ind;
    try reflexivity.
  - simpl. destruct (Value tok); reflexivity.
  - simpl. rewrite <- (forallb_ext_Forall _ _ _ IH), <- mapM_is_Ok.
    destruct (mapM upgradeExpressionConstant elems); reflexivity.
  - simpl.
    rewrite <- (forallb_ext_Forall
                  (fun i => is_Ok (key_name (Keys i) 0) &&
                            is_Ok (upgradeExpressionConstant (Val i)))
                  (fun i => is_Ok (key_name (Keys i) 0) && is_constant (Val i)) items).
    + rewrite <- (object_vals_is_Ok upgradeExpressionConstant items ∅).
      destruct (object_vals upgradeExpressionConstant items ∅); reflexivity.
    + eapply Forall_impl; [exact IH |]. intros i Hi. simpl in Hi. rewrite Hi. reflexivity.
Qed.

Lemma mapM_map {A B C} (f : B -> result C) (h : A -> B) l :
  mapM f (map h l) = mapM (fun x => f (h x)) l.
Proof.
  induction l as [|x l IH]; simpl; [reflexivity |]. rewrite IH. reflexivity.
Qed.

Lemma mapM_ext_Forall {A B} (f g : A -> result B) l :
  Forall (fun x => f x = g x) l -> mapM f l = mapM g l.
Proof.
  induction 1 as [|x l Hx _ IH]; simpl; [reflexivity |]. rewrite Hx, IH. reflexivity.
Qed.

Lemma key_name_erase keys :
  key_name (map erase_key (firstn 1 keys)) 0 = key_name keys 0.
Proof. destruct keys as [|k keys]; reflexivity. Qed.

Lemma object_vals_erase items :
  Forall (fun i => upgradeExpressionConstant (erase (Val i)) =
                   upgradeExpressionConstant (Val i)) items ->
  forall vals,
    object_vals upgradeExpressionConstant (map erase_ObjectItem items) vals =
    object_vals upgradeExpressionConstant items vals.
Proof.
  induction 1 as [|i items Hi _ IH]; intros vals; simpl; [reflexivity |].
  destruct i as [keys a val lead line]. simpl in *.
  rewrite key_name_erase, Hi.
  destruct (key_name keys 0); simpl; [| reflexivity].
  destruct (upgradeExpressionConstant val); simpl; [apply IH | reflexivity].
Qed.

(** X9: the conversion of a value depends on its content only: positions,
    the comments inside it, the equals signs of the items of an object and
    their keys after the first make no difference; the converter returns
    the same value, or panics the same way, once they are erased. *)
Theorem upgradeExpressionConstant_erase (n : Node) :
  upgradeExpressionConstant (erase n) = upgradeExpressionConstant n.
Proof.
  induction n as [n comments IH|items IH|k|i IH|c|g|tok lead line
                  |lb rb elems IH|lb rb items IH] using Node_nested_ind;
    try reflexivity.
  - simpl. rewrite mapM_map, (mapM_ext_Forall _ _ _ IH). reflexivity.
  - simpl. rewrite (object_vals_erase items IH). reflexivity.
Qed.

(** ** What an upgrade writes and takes *)

Lemma body_runs_app a b : body_runs (a ++ b) = body_runs a ++ body_runs b.
Proof. unfold body_runs. apply flat_map_app. Qed.

Lemma body_runs_SetAttributeValue name val b :
  body_runs (hcl2write.SetAttributeValue name val b) = body_runs b.
Proof.
  unfold body_runs.
  induction b as [|x b IH]; simpl; [reflexivity |].
  destruct x as [n v | t ls body | ts]; simpl.
  - destruct (String.eqb n name); simpl; [reflexivity | exact IH].
  - f_equal. exact IH.
  - f_equal. exact IH.
Qed.

Lemma body_runs_writeComments to g :
  body_runs (writeComments to g) = body_runs to ++ comment_run g.
Proof.
  destruct g as [g|]; simpl; [| symmetry; apply app_nil_r].
  unfold hcl2write.AppendUnstructuredTokens. apply body_runs_app.
Qed.

Lemma adhoc_nodes_sublist comments :
  map comment_tokens comments `sublist_of` body_runs (adhoc_nodes comments).
Proof.
  induction comments as [|g rest IH]; simpl; [constructor |].
  apply sublist_skip. apply sublist_cons. exact IH.
Qed.

Lemma upgrade_trace_step walked owned to q to' added :
  body_runs to' = body_runs to ++ added ->
  owned `sublist_of` added ->
  upgrade_trace walked owned to q to' q.
Proof.
  intros Hruns Hsub. exists [], added. simpl.
  split; [reflexivity |]. split; [assumption |].
  split; [apply sublist_nil_l |]. split; [assumption | constructor].
Qed.

Lemma upgrade_trace_app w1 o1 w2 o2 to q to1 q1 to' q' :
  upgrade_trace w1 o1 to q to1 q1 ->
  upgrade_trace w2 o2 to1 q1 to' q' ->
  upgrade_trace (w1 ++ w2) (o1 ++ o2) to q to' q'.
Proof.
  intros (t1 & a1 & Hq1 & Hr1 & Hs1 & Ho1 & Hf1) (t2 & a2 & Hq2 & Hr2 & Hs2 & Ho2 & Hf2).
  exists (t1 ++ t2), (a1 ++ a2).
  split; [rewrite Hq1, Hq2; apply app_assoc |].
  split; [rewrite Hr2, Hr1; symmetry; apply app_assoc |].
  split; [rewrite map_app; apply sublist_app; assumption |].
  split; [apply sublist_app; assumption |].
  apply Forall_app. split.
  - eapply Forall_impl; [exact Hf1 |]. intros g (item & Hin & Hb).
    exists item. split; [apply in_or_app; left |]; assumption.
  - eapply Forall_impl; [exact Hf2 |]. intros g (item & Hin & Hb).
    exists item. split; [apply in_or_app; right |]; assumption.
Qed.

Lemma TakeBefore_item_returned item q comments q' :
  TakeBefore (NodeObjectItem item) q = Ok (comments, q') ->
  q = comments ++ q' /\
  Forall (fun g => group_at_or_before (ObjectItem_Pos item) g = true) comments.
Proof.
  unfold TakeBefore. simpl. intros H.
  split; [symmetry; eapply TakeBeforePos_app; exact H |].
  rewrite TakeBeforePos_split_at in H. inv_bind H. injection H as <- <-.
  apply (TakeBeforePos_index_spec _ _ _ Ha).
Qed.

Lemma upgradeBody_item_trace root item next to q to' q' :
  (forall to q to' q',
      upgradeNestedBlock item to q = Ok (to', q') ->
      upgrade_trace (walked_below item) (owned_below item) to q to' q') ->
  upgradeBody_item upgradeNestedBlock root item next to q = Ok (to', q') ->
  upgrade_trace
    (item :: if takes_block_path root item then walked_below item else [])
    (comment_run (LeadComment item) ++
     if takes_block_path root item then owned_below item
     else if takes_argument_path root item
          then comment_run (LineComment item) else [])
    to q to' q'.
Proof.
  intros HP H. unfold upgradeBody_item in H.
  inv_bind H. destruct a as [comments q1].
  inv_bind H. rename a into n. inv_bind H. destruct a as [to1 q2].
  destruct (TakeBefore_item_returned _ _ _ _ Ha) as [Hq Hbefore].
  set (toa := writeAdhocComments to comments) in *.
  set (to0 := writeComments toa (LeadComment item)) in *.
  (* the groups taken *)
  assert (T1 : upgrade_trace [item] [] to q toa q1).
  { exists comments, (body_runs (adhoc_nodes comments)).
    split; [assumption |].
    split; [unfold toa; rewrite writeAdhocComments_app; apply body_runs_app |].
    split; [apply adhoc_nodes_sublist |]. split; [apply sublist_nil_l |].
    eapply Forall_impl; [exact Hbefore |]. intros g Hg.
    exists item. split; [left; reflexivity | assumption]. }
  (* the lead comment *)
  assert (T2 : upgrade_trace [] (comment_run (LeadComment item)) toa q1 to0 q1).
  { eapply upgrade_trace_step; [apply body_runs_writeComments | reflexivity]. }
  (* the item itself *)
  assert (T3 : upgrade_trace
                 (if takes_block_path root item then walked_below item else [])
                 (if takes_block_path root item then owned_below item
                  else if takes_argument_path root item
                       then comment_run (LineComment item) else [])
                 to0 q1 to1 q2).
  { unfold takes_block_path, takes_argument_path. rewrite Ha0.
    destruct (oldDidExpandEnv root n) eqn:Hexp.
    - inv_bind Ha1. destruct (upgradeArgument_expandEnv item to0) as [p Hp]. congruence.
    - destruct (blockSyntax item) eqn:Hblock; simpl.
      + apply HP. assumption.
      + inv_bind Ha1. injection Ha1 as <- <-.
        unfold upgradeArgument in Ha2. rewrite Ha0 in Ha2. simpl in Ha2.
        inv_bind Ha2. injection Ha2 as <-.
        eapply upgrade_trace_step; [| reflexivity].
        rewrite body_runs_writeComments, body_runs_SetAttributeValue. reflexivity. }
  (* the blank line *)
  assert (T4 : upgrade_trace [] [] to1 q2 to' q').
  { destruct next as [next|].
    - inv_bind H. destruct (wrap_int _ >? 1); injection H as <- <-.
      + eapply upgrade_trace_step; [| apply sublist_nil_l].
        unfold writeNewline, hcl2write.AppendNewline,
          hcl2write.AppendUnstructuredTokens. apply body_runs_app.
      + eapply upgrade_trace_step; [| apply sublist_nil_l].
        symmetry. apply app_nil_r.
    - injection H as <- <-. eapply upgrade_trace_step; [| apply sublist_nil_l].
      symmetry. apply app_nil_r. }
  pose proof (upgrade_trace_app _ _ _ _ _ _ _ _ _ _ T1
                (upgrade_trace_app _ _ _ _ _ _ _ _ _ _ T2
                   (upgrade_trace_app _ _ _ _ _ _ _ _ _ _ T3 T4))) as T.
  simpl in T. rewrite !app_nil_r in T. exact T.
Qed.

Lemma upgradeBody_loop_trace root items :
  Forall (fun item => forall to q to' q',
              upgradeNestedBlock item to q = Ok (to', q') ->
              upgrade_trace (walked_below item) (owned_below item) to q to' q')
         items ->
  forall to q to' q',
    upgradeBody_loop upgradeNestedBlock root items to q = Ok (to', q') ->
    upgrade_trace (walked_items root items) (owned_runs root items) to q to' q'.
Proof.
  induction 1 as [|item rest Hitem _ IH]; intros to q to' q' H; simpl in H.
  - injection H as <- <-. eapply upgrade_trace_step; [| reflexivity].
    symmetry. apply app_nil_r.
  - inv_bind H. destruct a as [to1 q1].
    pose proof (upgradeBody_item_trace _ _ _ _ _ _ _ Hitem Ha) as T1.
    pose proof (upgrade_trace_app _ _ _ _ _ _ _ _ _ _ T1 (IH _ _ _ _ H)) as T.
    unfold walked_items, owned_runs. cbn [flat_map]. exact T.
Qed.

Lemma upgradeNestedBlock_trace item : forall to q to' q',
  upgradeNestedBlock item to q = Ok (to', q') ->
  upgrade_trace (walked_below item) (owned_below item) to q to' q'.
Proof.
  induction item as [keys assign val lead line IH] using ObjectItem_nested_ind.
  intros to q to' q' H. apply upgradeNestedBlock_Ok in H.
  destruct H as (name & labels & lb & rb & items & newBody
                 & _ & _ & Hval & Hbody & ->).
  simpl in Hval. subst val. unfold upgradeBody in Hbody.
  pose proof (upgradeBody_loop_trace false items (IH _ _ _ eq_refl) _ _ _ _ Hbody)
    as (taken & added & Hq & Hruns & Hsub & Howned & Hbefore).
  exists taken, added. split; [assumption |].
  split; [rewrite body_runs_app; simpl; rewrite app_nil_r;
          change (flat_map node_runs newBody) with (body_runs newBody);
          rewrite Hruns; reflexivity |].
  auto.
Qed.

Lemma upgradeBody_trace items to q root to' q' :
  upgradeBody items to q root = Ok (to', q') ->
  upgrade_trace (walked_items root items) (owned_runs root items) to q to' q'.
Proof.
  intros H. eapply upgradeBody_loop_trace; [| exact H].
  apply List.Forall_forall. intros item _. apply upgradeNestedBlock_trace.
Qed.

(** X10: an upgrade takes its ad hoc groups from the front of the queue
    and writes every group it takes: the token runs of the groups taken
    are among the runs appended to the body (those of nested blocks
    included), in the order of the queue; the runs the body had before
    are kept in front. *)
Theorem upgradeBody_writes_taken_groups items to q root to' q' :
  upgradeBody items to q root = Ok (to', q') ->
  exists taken added,
    q = taken ++ q' /\
    body_runs to' = body_runs to ++ added /\
    map comment_tokens taken `sublist_of` added.
Proof.
  intros H.
  destruct (upgradeBody_trace _ _ _ _ _ _ H) as (taken & added & Hq & Hr & Hs & _ & _).
  exists taken, added. auto.
Qed.

Lemma upgradeBody_writes_taken_groups_witness :
  exists taken added,
    doc_commented_queue = taken ++ [sample_group 60 5 "# at the end"] /\
    body_runs
      [hcl2write.UnstructuredTokens (comment_tokens (sample_group 0 1 "# on its own"));
       newline_node;
       hcl2write.UnstructuredTokens (comment_tokens (sample_group 10 2 "# lead"));
       hcl2write.Attribute "services" (cty.ObjectVal (<["a" := cty.StringVal "x"]> ∅));
       hcl2write.UnstructuredTokens (comment_tokens (sample_group 42 3 "# line"))]
    = body_runs hcl2write.empty ++ added /\
    map comment_tokens taken `sublist_of` added.
Proof.
  refine (upgradeBody_writes_taken_groups doc_commented hcl2write.empty
            doc_commented_queue true _ _ _).
  vm_compute. reflexivity.
Defined.

(** X11: an upgrade writes the comments attached to the items it goes
    through: the lead comment of every item, and the line comment of
    every item upgraded as a plain argument, are among the runs appended
    to the body, in document order. *)
Theorem upgradeBody_writes_attached_comments items to q root to' q' :
  upgradeBody items to q root = Ok (to', q') ->
  exists added,
    body_runs to' = body_runs to ++ added /\
    owned_runs root items `sublist_of` added.
Proof.
  intros H.
  destruct (upgradeBody_trace _ _ _ _ _ _ H) as (taken & added & _ & Hr & _ & Ho & _).
  exists added. auto.
Qed.

Lemma upgradeBody_writes_attached_comments_witness :
  exists added,
    body_runs
      [hcl2write.UnstructuredTokens (comment_tokens (sample_group 0 1 "# on its own"));
       newline_node;
       hcl2write.UnstructuredTokens (comment_tokens (sample_group 10 2 "# lead"));
       hcl2write.Attribute "services" (cty.ObjectVal (<["a" := cty.StringVal "x"]> ∅));
       hcl2write.UnstructuredTokens (comment_tokens (sample_group 42 3 "# line"))]
    = body_runs hcl2write.empty ++ added /\
    owned_runs true doc_commented `sublist_of` added.
Proof.
  refine (upgradeBody_writes_attached_comments doc_commented hcl2write.empty
            doc_commented_queue true _ [sample_group 60 5 "# at the end"] _).
  vm_compute. reflexivity.
Defined.

(** X12: an upgrade takes a group from the queue only when the group is
    at or before one of the items it goes through; a queued group that
    lies after every such item is still in the queue when the upgrade
    returns. *)
Theorem upgradeBody_leaves_later_groups items to q root to' q' :
  upgradeBody items to q root = Ok (to', q') ->
  (exists taken,
      q = taken ++ q' /\
      Forall (before_an_item (walked_items root items)) taken) /\
  (forall g,
      In g q ->
      (forall item, In item (walked_items root items) ->
                    group_at_or_before (ObjectItem_Pos item) g = false) ->
      In g q').
Proof.
  intros H.
  destruct (upgradeBody_trace _ _ _ _ _ _ H) as (taken & added & Hq & _ & _ & _ & Hb).
  split; [exists taken; auto |].
  intros g Hg Hafter. rewrite Hq in Hg. apply in_app_or in Hg.
  destruct Hg as [Hg | Hg]; [| assumption].
  rewrite List.Forall_forall in Hb. destruct (Hb g Hg) as (item & Hin & Hbefore).
  rewrite (Hafter item Hin) in Hbefore. discriminate.
Qed.

Lemma upgradeBody_leaves_later_groups_witness :
  In (sample_group 60 5 "# at the end") [sample_group 60 5 "# at the end"].
Proof.
  refine (proj2 (upgradeBody_leaves_later_groups doc_commented hcl2write.empty
                   doc_commented_queue true _ [sample_group 60 5 "# at the end"] _)
                (sample_group 60 5 "# at the end") _ _).
  - vm_compute. reflexivity.
  - right. left. reflexivity.
  - intros item [<- | []]. reflexivity.
Defined.

(** X13: for a document whose root list is empty, [UpgradeOldHCLConfig]
    returns the serialisation of the empty body whatever comments the
    file has (each with a position): a file of comments only loses
    them. *)
Theorem UpgradeOldHCLConfig_no_items Parse Bytes old comments :
  Parse old = inl (mkFile (ObjectList []) comments) ->
  forallb (fun g => is_Ok (CommentGroup_Pos g)) comments = true ->
  UpgradeOldHCLConfig Parse Bytes old = Ok (Bytes hcl2write.empty).
Proof.
  intros Hparse Hpos. unfold UpgradeOldHCLConfig. rewrite Hparse. simpl.
  pose proof (collectAdhocComments_is_Ok (mkFile (ObjectList []) comments)) as Hret.
  simpl Comments in Hret. rewrite Hpos in Hret.
  destruct (collectAdhocComments (mkFile (ObjectList []) comments)); [| discriminate].
  reflexivity.
Qed.

Lemma UpgradeOldHCLConfig_no_items_witness :
  UpgradeOldHCLConfig (sample_Parse [] doc_commented_queue) sample_Bytes [] =
  Ok (sample_Bytes hcl2write.empty).
Proof.
  apply (UpgradeOldHCLConfig_no_items (sample_Parse [] doc_commented_queue)
           sample_Bytes [] doc_commented_queue); reflexivity.
Defined.

(** ** Attribute names stay unique *)

Lemma attribute_names_app a b :
  attribute_names (a ++ b) = attribute_names a ++ attribute_names b.
Proof. unfold attribute_names. rewrite attributes_app. apply map_app. Qed.

Lemma attribute_names_SetAttributeValue name val b :
  attribute_names (hcl2write.SetAttributeValue name val b) =
  if existsb (String.eqb name) (attribute_names b)
  then attribute_names b else attribute_names b ++ [name].
Proof.
  unfold attribute_names.
  induction b as [|x b IH]; simpl; [reflexivity |].
  destruct x as [n v | t ls body | ts]; simpl; try exact IH.
  rewrite (String.eqb_sym name n).
  destruct (String.eqb_spec n name) as [-> | Hne]; simpl; [reflexivity |].
  rewrite IH.
  destruct (existsb (String.eqb name) (map fst (hcl2write.attributes b))); reflexivity.
Qed.

Lemma SetAttributeValue_nodes_unique name val b :
  Forall node_attributes_unique b ->
  Forall node_attributes_unique (hcl2write.SetAttributeValue name val b).
Proof.
  induction 1 as [|x b Hx Hb IH]; simpl; [repeat constructor |].
  destruct x as [n v | t ls body | ts].
  - destruct (String.eqb n name); constructor; try exact I; assumption.
  - constructor; assumption.
  - constructor; assumption.
Qed.

Lemma SetAttributeValue_unique name val b :
  body_attributes_unique b ->
  body_attributes_unique (hcl2write.SetAttributeValue name val b).
Proof.
  intros [Hnames Hnodes]. split; [| apply SetAttributeValue_nodes_unique; assumption].
  rewrite attribute_names_SetAttributeValue.
  destruct (existsb (String.eqb name) (attribute_names b)) eqn:E; [assumption |].
  apply NoDup_ListNoDup. apply NoDup_app. repeat split.
  - apply NoDup_ListNoDup. assumption.
  - intros x Hx Hx'. apply list_elem_of_In in Hx.
    apply list_elem_of_singleton in Hx'. subst x.
    assert (Hex : existsb (String.eqb name) (attribute_names b) = true).
    { apply existsb_exists. exists name. split; [assumption | apply String.eqb_refl]. }
    congruence.
  - apply NoDup_singleton.
Qed.

Lemma append_node_unique b x :
  match x with hcl2write.Attribute _ _ => False | _ => True end ->
  node_attributes_unique x ->
  body_attributes_unique b ->
  body_attributes_unique (b ++ [x]).
Proof.
  intros Hx Hux [Hnames Hnodes]. split.
  - rewrite attribute_names_app.
    assert (Hnil : attribute_names [x] = []) by (destruct x; [destruct Hx | |]; reflexivity).
    rewrite Hnil, app_nil_r. assumption.
  - apply Forall_app. split; [assumption | repeat constructor; assumption].
Qed.

Lemma writeComments_unique to g :
  body_attributes_unique to -> body_attributes_unique (writeComments to g).
Proof.
  destruct g as [g|]; simpl; [| auto].
  intros H. apply append_node_unique; [exact I | exact I | assumption].
Qed.

Lemma writeNewline_unique to :
  body_attributes_unique to -> body_attributes_unique (writeNewline to).
Proof. intros H. apply append_node_unique; [exact I | exact I | assumption]. Qed.

Lemma writeAdhocComments_unique to comments :
  body_attributes_unique to -> body_attributes_unique (writeAdhocComments to comments).
Proof.
  unfold writeAdhocComments. revert to.
  induction comments as [|g rest IH]; intros to H; cbn [fold_left]; [assumption |].
  apply IH. apply writeNewline_unique. apply writeComments_unique. assumption.
Qed.

Lemma fold_right_nodes_unique body :
  fold_right (fun x rest => node_attributes_unique x /\ rest) True body <->
  Forall node_attributes_unique body.
Proof.
  induction body as [|x body IH]; simpl.
  - split; [constructor | auto].
  - rewrite IH. split.
    + intros [Hx Hb]. constructor; assumption.
    + intros H. inversion H; subst. auto.
Qed.

Lemma upgradeBody_loop_unique root items :
  Forall (fun item => forall to q to' q',
              upgradeNestedBlock item to q = Ok (to', q') ->
              body_attributes_unique to -> body_attributes_unique to') items ->
  forall to q to' q',
    upgradeBody_loop upgradeNestedBlock root items to q = Ok (to', q') ->
    body_attributes_unique to -> body_attributes_unique to'.
Proof.
  induction 1 as [|item rest Hitem _ IH]; intros to q to' q' H Hu; simpl in H.
  - injection H as <- <-. assumption.
  - inv_bind H. destruct a as [to1 q1]. apply (IH _ _ _ _ H). clear H IH.
    unfold upgradeBody_item in Ha.
    inv_bind Ha. destruct a as [comments q2].
    inv_bind Ha. rename a into n. inv_bind Ha. destruct a as [to2 q3].
    assert (Hu0 : body_attributes_unique
                    (writeComments (writeAdhocComments to comments) (LeadComment item))).
    { apply writeComments_unique. apply writeAdhocComments_unique. assumption. }
    assert (Hu2 : body_attributes_unique to2).
    { destruct (oldDidExpandEnv root n).
      - inv_bind Ha2. destruct (upgradeArgument_expandEnv item
            (writeComments (writeAdhocComments to comments) (LeadComment item)))
          as [p Hp]. congruence.
      - destruct (blockSyntax item).
        + eapply Hitem; eassumption.
        + inv_bind Ha2. injection Ha2 as <- <-.
          unfold upgradeArgument in Ha3. inv_bind Ha3. inv_bind Ha3.
          injection Ha3 as <-.
          apply writeComments_unique. apply SetAttributeValue_unique. assumption. }
    destruct (head rest) as [next|].
    + inv_bind Ha. destruct (wrap_int _ >? 1); injection Ha as <- <-;
        [apply writeNewline_unique |]; assumption.
    + injection Ha as <- <-. assumption.
Qed.

Lemma upgradeNestedBlock_unique item : forall to q to' q',
  upgradeNestedBlock item to q = Ok (to', q') ->
  body_attributes_unique to -> body_attributes_unique to'.
Proof.
  induction item as [keys assign val lead line IH] using ObjectItem_nested_ind.
  intros to q to' q' H Hu. apply upgradeNestedBlock_Ok in H.
  destruct H as (name & labels & lb & rb & items & newBody
                 & _ & _ & Hval & Hbody & ->).
  simpl in Hval. subst val. unfold upgradeBody in Hbody.
  assert (Hnew : body_attributes_unique newBody).
  { eapply (upgradeBody_loop_unique false items (IH _ _ _ eq_refl)); [exact Hbody |].
    split; constructor. }
  apply append_node_unique; [exact I | | assumption].
  destruct Hnew as [Hnames Hnodes]. simpl. split; [assumption |].
  apply fold_right_nodes_unique. assumption.
Qed.

(** X14: an upgrade keeps attribute names unique: when neither the body
    nor the body of any block in it defines a name twice, the same holds
    of the body after the upgrade, so it holds of every body of a document
    upgraded into a fresh body. *)
Theorem upgradeBody_attributes_unique items to q root to' q' :
  upgradeBody items to q root = Ok (to', q') ->
  (body_attributes_unique to -> body_attributes_unique to') /\
  (to = hcl2write.empty -> body_attributes_unique to').
Proof.
  intros H.
  assert (Hkeep : body_attributes_unique to -> body_attributes_unique to').
  { eapply upgradeBody_loop_unique; [| exact H].
    apply List.Forall_forall. intros item _. apply upgradeNestedBlock_unique. }
  split; [exact Hkeep |].
  intros ->. apply Hkeep. split; constructor.
Qed.

Lemma upgradeBody_attributes_unique_witness :
  body_attributes_unique
    [hcl2write.Attribute "services" (cty.ObjectVal (<["a" := cty.StringVal "y"]> ∅))].
Proof.
  refine (proj2 (upgradeBody_attributes_unique doc_services_twice hcl2write.empty []
                   true _ [] _) eq_refl).
  vm_compute. reflexivity.
Defined.

Lemma collectAdhocComments_returns_witness :
  is_Ok (collectAdhocComments sample_file_empty_group) = false.
Proof.
  rewrite (proj1 (collectAdhocComments_returns sample_file_empty_group)).
  reflexivity.
Defined.

Lemma comment_tokens_keep_text_witness :
  exists l2',
    [hcl2write.mkToken hcl2write.TokenNewline [Byte.x0a]] =
    hcl2write.mkToken hcl2write.TokenNewline [Byte.x0a] :: l2'.
Proof.
  refine (proj2 (proj2 (comment_tokens_keep_text (sample_group 0 1 "# one")))
                [] _ _ eq_refl eq_refl).
Defined.

(** * Package cliconfig: the environment *)

Lemma append_cons c (s1 s2 : string) :
  (String c s1 ++ s2)%string = String c (s1 ++ s2).
Proof. reflexivity. Qed.

Lemma append_nil (s : string) : ("" ++ s)%string = s.
Proof. reflexivity. Qed.

Lemma HasPrefix_append name rest : HasPrefix (name ++ rest) name = true.
Proof.
  induction name as [|c name IH]; [reflexivity |].
  rewrite append_cons. cbn [HasPrefix]. rewrite Ascii.eqb_refl. exact IH.
Qed.

Lemma defines_append name value : defines name (name ++ "=" ++ value) = true.
Proof.
  unfold defines. induction name as [|c name IH].
  - rewrite !append_nil. reflexivity.
  - rewrite !append_cons. cbn [HasPrefix]. rewrite Ascii.eqb_refl. exact IH.
Qed.

Lemma string_drop_append name c rest :
  string_drop (String.length name + 1) (name ++ String c rest) = rest.
Proof.
  induction name as [|d name IH]; [reflexivity |].
  rewrite append_cons. cbn [String.length Nat.add string_drop]. exact IH.
Qed.

(** An entry starts with [name=] exactly when the test of [getEnv]
    accepts it. *)
Lemma defines_test name v :
  defines name v =
  negb (String.length v <=? String.length name)%nat &&
  (HasPrefix v name &&
   match String.get (String.length name) v with
   | Some c => Ascii.eqb c "="%char
   | None => false
   end).
Proof.
  unfold defines. revert v.
  induction name as [|c name IH]; intros v.
  - rewrite append_nil. destruct v as [|d v]; [reflexivity |].
    cbn [HasPrefix String.length String.get Nat.leb negb andb].
    rewrite andb_true_r. reflexivity.
  - rewrite append_cons. destruct v as [|d v]; [reflexivity |].
    cbn [HasPrefix String.length String.get Nat.leb].
    rewrite IH. destruct (Ascii.eqb d c); [reflexivity |].
    cbn [andb]. rewrite andb_false_r. reflexivity.
Qed.

Lemma defines_split name v :
  defines name v = true ->
  v = (name ++ "=" ++ string_drop (String.length name + 1) v)%string.
Proof.
  unfold defines. revert v.
  induction name as [|c name IH]; intros v.
  - rewrite !append_nil. destruct v as [|d v]; [discriminate |].
    cbn [HasPrefix]. rewrite andb_true_r. intros H.
    apply Ascii.eqb_eq in H. subst d. reflexivity.
  - rewrite !append_cons. destruct v as [|d v]; [discriminate |].
    cbn [HasPrefix]. intros H. apply andb_true_iff in H. destruct H as [Hd H].
    apply Ascii.eqb_eq in Hd. subst d.
    cbn [String.length Nat.add string_drop]. f_equal. apply IH. assumption.
Qed.

Lemma getEnv_cons environ name v :
  getEnv (v :: environ) name =
  if defines name v then string_drop (String.length name + 1) v
  else getEnv environ name.
Proof.
  rewrite defines_test. simpl.
  destruct (String.length v <=? String.length name)%nat; reflexivity.
Qed.

(** X15: [getEnv] returns the value of the first entry that starts with
    [name=], that is what follows the equals sign, and the empty string
    when no entry does. *)
Theorem getEnv_first_entry (environ : list string) (name : string) :
  (forall pre value post,
      environ = pre ++ (name ++ "=" ++ value)%string :: post ->
      Forall (fun e => defines name e = false) pre ->
      getEnv environ name = value) /\
  (Forall (fun e => defines name e = false) environ -> getEnv environ name = "").
Proof.
  split.
  - intros pre value post -> Hpre.
    induction Hpre as [|e pre He _ IH]; simpl app; rewrite getEnv_cons.
    + rewrite defines_append. apply (string_drop_append name "="%char value).
    + rewrite He. exact IH.
  - induction 1 as [|e environ He _ IH]; [reflexivity |].
    rewrite getEnv_cons, He. exact IH.
Qed.

Lemma getEnv_first_entry_witness :
  getEnv ["HOME=/root"; "TF_PLUGIN_CACHE_DIR=/tmp/a"; "TF_PLUGIN_CACHE_DIR=/tmp/b"]
         "TF_PLUGIN_CACHE_DIR" = "/tmp/a".
Proof.
  apply (proj1 (getEnv_first_entry _ "TF_PLUGIN_CACHE_DIR")
               ["HOME=/root"] "/tmp/a" ["TF_PLUGIN_CACHE_DIR=/tmp/b"]).
  - reflexivity.
  - repeat constructor.
Defined.

Lemma getEnv_head environ name :
  getEnv environ name =
  match head (List.filter (defines name) environ) with
  | Some e => string_drop (String.length name + 1) e
  | None => ""
  end.
Proof.
  induction environ as [|e environ IH]; [reflexivity |].
  rewrite getEnv_cons. cbn [List.filter].
  destruct (defines name e); [reflexivity | exact IH].
Qed.

Lemma IndexByte_split e c eq :
  IndexByte e c = Some eq ->
  e = (string_take eq e ++ String c (string_drop (eq + 1) e))%string /\
  IndexByte (string_take eq e) c = None.
Proof.
  revert eq. induction e as [|d e IH]; intros eq H; cbn [IndexByte] in H;
    [discriminate |].
  destruct (Ascii.eqb d c) eqn:Hd.
  - injection H as <-. apply Ascii.eqb_eq in Hd. subst d. split; reflexivity.
  - destruct (IndexByte e c) as [i|]; [| discriminate]. injection H as <-.
    destruct (IH i eq_refl) as [He Hnone].
    cbn [string_take string_drop Nat.add]. rewrite append_cons.
    split; [f_equal; exact He |].
    cbn [IndexByte]. rewrite Hd, Hnone. reflexivity.
Qed.

Lemma IndexByte_append name c rest :
  IndexByte name c = None ->
  IndexByte (name ++ String c rest) c = Some (String.length name) /\
  string_take (String.length name) (name ++ String c rest) = name.
Proof.
  induction name as [|d name IH]; intros H.
  - rewrite append_nil. cbn [IndexByte]. rewrite Ascii.eqb_refl. split; reflexivity.
  - cbn [IndexByte] in H. destruct (Ascii.eqb d c) eqn:Hd; [discriminate |].
    destruct (IndexByte name c) eqn:Hn; [discriminate |].
    destruct (IH eq_refl) as [Hi Ht].
    rewrite append_cons. cbn [IndexByte String.length string_take].
    rewrite Hd, Hi, Ht. split; reflexivity.
Qed.

(** What one entry does to the variable [name] in the map. *)
Lemma environForHCL_step name e (ret : gmap string cty.Value) :
  IndexByte name "="%char = None ->
  match IndexByte e "="%char with
  | None => ret
  | Some eq => <[string_take eq e := cty.StringVal (string_drop (eq + 1) e)]> ret
  end !! name =
  if defines name e
  then Some (cty.StringVal (string_drop (String.length name + 1) e))
  else ret !! name.
Proof.
  intros Hname. destruct (defines name e) eqn:Hd.
  - pose proof (defines_split name e Hd) as He.
    destruct (IndexByte_append name "="%char
                (string_drop (String.length name + 1) e) Hname) as [Hi Ht].
    change (String "="%char (string_drop (String.length name + 1) e))
      with ("=" ++ string_drop (String.length name + 1) e)%string in Hi, Ht.
    rewrite <- He in Hi, Ht. rewrite Hi, Ht. apply lookup_insert_eq.
  - destruct (IndexByte e "="%char) as [eq|] eqn:Hi; [| reflexivity].
    apply lookup_insert_ne. intros Heq.
    destruct (IndexByte_split e "="%char eq Hi) as [He _].
    rewrite Heq in He.
    change (String "="%char (string_drop (eq + 1) e))
      with ("=" ++ string_drop (eq + 1) e)%string in He.
    rewrite He, defines_append in Hd. discriminate.
Qed.

Lemma environForHCL_fold name environ : forall ret : gmap string cty.Value,
  IndexByte name "="%char = None ->
  fold_left (fun ret e =>
               match IndexByte e "="%char with
               | None => ret
               | Some eq =>
                   <[string_take eq e := cty.StringVal (string_drop (eq + 1) e)]> ret
               end) environ ret !! name =
  match last (List.filter (defines name) environ) with
  | Some e => Some (cty.StringVal (string_drop (String.length name + 1) e))
  | None => ret !! name
  end.
Proof.
  induction environ as [|e environ IH]; intros ret Hname; [reflexivity |].
  cbn [fold_left List.filter]. rewrite (IH _ Hname).
  rewrite (environForHCL_step name e ret Hname).
  destruct (defines name e).
  - rewrite last_cons.
    destruct (last (List.filter (defines name) environ)); reflexivity.
  - reflexivity.
Qed.

Lemma environForHCL_keys environ : forall (ret : gmap string cty.Value) name,
  IndexByte name "="%char <> None ->
  ret !! name = None ->
  fold_left (fun ret e =>
               match IndexByte e "="%char with
               | None => ret
               | Some eq =>
                   <[string_take eq e := cty.StringVal (string_drop (eq + 1) e)]> ret
               end) environ ret !! name = None.
Proof.
  induction environ as [|e environ IH]; intros ret name Hname Hret; [exact Hret |].
  cbn [fold_left]. apply IH; [assumption |].
  destruct (IndexByte e "="%char) as [eq|] eqn:Hi; [| exact Hret].
  rewrite lookup_insert_ne; [exact Hret |].
  intros Heq. destruct (IndexByte_split e "="%char eq Hi) as [_ Hnone].
  rewrite Heq in Hnone. contradiction.
Qed.

(** X16: [environForHCL] maps a name to the string value of the last
    entry that starts with [name=] (what follows the first equals sign of
    the entry), and has no variable for a name that no entry defines; a
    name with an equals sign in it is never a variable. *)
Theorem environForHCL_last_entry (environ : list string) (name : string) :
  (IndexByte name "="%char = None ->
   environForHCL environ !! name =
   match last (List.filter (defines name) environ) with
   | Some e => Some (cty.StringVal (string_drop (String.length name + 1) e))
   | None => None
   end) /\
  (IndexByte name "="%char <> None -> environForHCL environ !! name = None).
Proof.
  unfold environForHCL. split.
  - intros Hname. rewrite (environForHCL_fold name environ ∅ Hname).
    destruct (last (List.filter (defines name) environ)); [reflexivity |].
    apply lookup_empty.
  - intros Hname. apply environForHCL_keys; [assumption | apply lookup_empty].
Qed.

Lemma environForHCL_last_entry_witness :
  environForHCL ["HOME=/root"; "A=1"; "A=2=3"] !! "A" =
  Some (cty.StringVal "2=3").
Proof.
  apply (proj1 (environForHCL_last_entry ["HOME=/root"; "A=1"; "A=2=3"] "A")).
  reflexivity.
Defined.

Lemma head_rev_last {A} (l : list A) : head (rev l) = last l.
Proof.
  induction l as [|x l IH]; [reflexivity |].
  simpl rev. rewrite last_cons, <- IH.
  destruct (rev l); reflexivity.
Qed.

(** X17: the two lookups read the environment from opposite ends: for a
    name without an equals sign that some entry defines, [environForHCL]
    holds the value that [getEnv] finds in the reversed environment; so
    they agree when one entry only defines the name, and differ in which
    entry wins otherwise. *)
Theorem environForHCL_getEnv (environ : list string) (name : string) :
  IndexByte name "="%char = None ->
  (List.filter (defines name) environ <> [] ->
   environForHCL environ !! name =
   Some (cty.StringVal (getEnv (rev environ) name))) /\
  (forall e,
      List.filter (defines name) environ = [e] ->
      environForHCL environ !! name = Some (cty.StringVal (getEnv environ name))).
Proof.
  intros Hname.
  pose proof (environForHCL_fold name environ ∅ Hname) as Hfold.
  fold (environForHCL environ) in Hfold.
  split.
  - intros Hne. rewrite Hfold, getEnv_head, List.filter_rev, head_rev_last.
    destruct (last (List.filter (defines name) environ)) eqn:El; [reflexivity |].
    apply last_None in El. contradiction.
  - intros e He. rewrite Hfold, getEnv_head, He. reflexivity.
Qed.

Lemma environForHCL_getEnv_witness :
  environForHCL ["HOME=/root"; "A=1"; "A=2=3"] !! "A" =
  Some (cty.StringVal (getEnv (rev ["HOME=/root"; "A=1"; "A=2=3"]) "A")).
Proof.
  apply (proj1 (environForHCL_getEnv ["HOME=/root"; "A=1"; "A=2=3"] "A" eq_refl)).
  discriminate.
Defined.

(** * Package cliconfig: merging the files *)

Lemma set_each_lookup {A} (key : A -> string) (xs : list A) :
  forall (m : gmap string A) k,
    set_each key xs m !! k =
    match last_such (fun x => String.eqb (key x) k) xs with
    | Some x => Some x
    | None => m !! k
    end.
Proof.
  unfold set_each, last_such.
  induction xs as [|x xs IH]; intros m k; [reflexivity |].
  cbn [fold_left List.filter]. rewrite IH.
  destruct (String.eqb (key x) k) eqn:E.
  - rewrite last_cons.
    destruct (last (List.filter (fun x0 => String.eqb (key x0) k) xs));
      [reflexivity |].
    apply String.eqb_eq in E. subst k. apply lookup_insert_eq.
  - destruct (last (List.filter (fun x0 => String.eqb (key x0) k) xs));
      [reflexivity |].
    apply lookup_insert_ne. intros Heq. rewrite Heq, String.eqb_refl in E.
    discriminate.
Qed.

Lemma set_each_app {A} (key : A -> string) (xs ys : list A) (m : gmap string A) :
  set_each key (xs ++ ys) m = set_each key ys (set_each key xs m).
Proof. unfold set_each. apply fold_left_app. Qed.

(** What one round of the loop does to the settings other than the
    credentials helper. *)
Lemma mergeFiles_file_fields {I} (st : merge_state I) (f : configFile.t I) :
  let r := fst (fst st) in
  let r' := fst (fst (mergeFiles_file st f)) in
  Config.Providers r' = set_each Name (configFile.Providers f) (Config.Providers r) /\
  Config.Provisioners r' =
    set_each Name (configFile.Provisioners f) (Config.Provisioners r) /\
  Config.DisableCheckpoint r' =
    (configFile.DisableCheckpoint f || Config.DisableCheckpoint r)%bool /\
  Config.DisableCheckpointSignature r' =
    (configFile.DisableCheckpointSignature f || Config.DisableCheckpointSignature r)%bool /\
  Config.PluginCacheDir r' =
    (if String.eqb (configFile.PluginCacheDir f) "" then Config.PluginCacheDir r
     else configFile.PluginCacheDir f) /\
  Config.Hosts r' = set_each Host_ (configFile.Hosts f) (Config.Hosts r) /\
  Config.Credentials r' =
    set_each Credentials_Host (configFile.Credentials f) (Config.Credentials r).
Proof.
  destruct st as [[r d] c]. unfold mergeFiles_file. cbn [fst].
  destruct (configFile.CredentialsHelpers f) as [|h hs];
    [| destruct (Config.CredentialsHelper r)];
    destruct (1 <? _)%nat; cbn;
    destruct (configFile.DisableCheckpoint f), (configFile.DisableCheckpointSignature f);
    repeat split; reflexivity.
Qed.

Lemma mergeFiles_fold_fields {I} (files : list (configFile.t I)) :
  forall st : merge_state I,
    let r := fst (fst st) in
    let r' := fst (fst (fold_left mergeFiles_file files st)) in
    Config.Providers r' =
      set_each Name (concat (map configFile.Providers files)) (Config.Providers r) /\
    Config.Provisioners r' =
      set_each Name (concat (map configFile.Provisioners files))
               (Config.Provisioners r) /\
    Config.DisableCheckpoint r' =
      (existsb configFile.DisableCheckpoint files || Config.DisableCheckpoint r)%bool /\
    Config.DisableCheckpointSignature r' =
      (existsb configFile.DisableCheckpointSignature files
       || Config.DisableCheckpointSignature r)%bool /\
    Config.PluginCacheDir r' =
      match last_such (fun d => negb (String.eqb d ""))
                      (map configFile.PluginCacheDir files) with
      | Some d => d
      | None => Config.PluginCacheDir r
      end /\
    Config.Hosts r' =
      set_each Host_ (concat (map configFile.Hosts files)) (Config.Hosts r) /\
    Config.Credentials r' =
      set_each Credentials_Host (concat (map configFile.Credentials files))
               (Config.Credentials r).
Proof.
  induction files as [|f files IH]; intros st.
  - cbn. repeat split; reflexivity.
  - cbn [fold_left map concat existsb].
    destruct (IH (mergeFiles_file st f)) as (P & Q & D & S & C & H & K).
    destruct (mergeFiles_file_fields st f) as (P1 & Q1 & D1 & S1 & C1 & H1 & K1).
    cbn zeta in *.
    rewrite P, Q, D, S, C, H, K, P1, Q1, D1, S1, C1, H1, K1.
    rewrite !set_each_app.
    repeat split; try reflexivity.
    + rewrite orb_assoc, (orb_comm (existsb _ files)). reflexivity.
    + rewrite orb_assoc, (orb_comm (existsb _ files)). reflexivity.
    + unfold last_such. cbn [List.filter].
      destruct (String.eqb (configFile.PluginCacheDir f) "") eqn:E; cbn [negb].
      * reflexivity.
      * rewrite last_cons.
        destruct (last (List.filter _ (map configFile.PluginCacheDir files)));
          reflexivity.
Qed.

Lemma mergeFiles_fst {I} (files : list (configFile.t I)) :
  fst (mergeFiles files) =
  fst (fst (fold_left mergeFiles_file files
                      (Config.mk ∅ ∅ false false "" ∅ ∅ None, [], ""))).
Proof.
  unfold mergeFiles. destruct (fold_left _ _ _) as [[r d] c]. reflexivity.
Qed.

Lemma mergeFiles_snd {I} (files : list (configFile.t I)) :
  snd (mergeFiles files) =
  snd (fst (fold_left mergeFiles_file files
                      (Config.mk ∅ ∅ false false "" ∅ ∅ None, [], ""))).
Proof.
  unfold mergeFiles. destruct (fold_left _ _ _) as [[r d] c]. reflexivity.
Qed.

(** X18: in the merged configuration a provider, a provisioner, a host
    and a credentials block is the last one of that name or host name in
    the files, read in their order and each file from top to bottom; a
    name that no file has is not in the map. *)
Theorem mergeFiles_last_wins {I : Type} (files : list (configFile.t I))
  (name : string) :
  let cfg := fst (mergeFiles files) in
  Config.Providers cfg !! name =
    last_such (fun p => String.eqb (Name p) name)
              (concat (map configFile.Providers files)) /\
  Config.Provisioners cfg !! name =
    last_such (fun p => String.eqb (Name p) name)
              (concat (map configFile.Provisioners files)) /\
  Config.Hosts cfg !! name =
    last_such (fun h => String.eqb (Host_ h) name)
              (concat (map configFile.Hosts files)) /\
  Config.Credentials cfg !! name =
    last_such (fun c => String.eqb (Credentials_Host c) name)
              (concat (map configFile.Credentials files)).
Proof.
  cbn zeta. rewrite mergeFiles_fst.
  destruct (mergeFiles_fold_fields files
              (Config.mk ∅ ∅ false false "" ∅ ∅ None, [], ""))
    as (P & Q & _ & _ & _ & H & K).
  cbn zeta in *. cbn [fst Config.Providers Config.Provisioners Config.Hosts
                      Config.Credentials] in P, Q, H, K.
  rewrite P, Q, H, K, !set_each_lookup.
  repeat split; match goal with |- context [last_such ?P ?l] =>
                                  destruct (last_such P l) end;
    try reflexivity; apply lookup_empty.
Qed.

(** X19: the merged configuration disables the checkpoint (or its
    signature) exactly when some file does, and its plugin cache
    directory is the last one that is not the empty string, the empty
    string when there is none. *)
Theorem mergeFiles_settings {I : Type} (files : list (configFile.t I)) :
  let cfg := fst (mergeFiles files) in
  Config.DisableCheckpoint cfg = existsb configFile.DisableCheckpoint files /\
  Config.DisableCheckpointSignature cfg =
    existsb configFile.DisableCheckpointSignature files /\
  Config.PluginCacheDir cfg =
    default "" (last_such (fun d => negb (String.eqb d ""))
                          (map configFile.PluginCacheDir files)).
Proof.
  cbn zeta. rewrite mergeFiles_fst.
  destruct (mergeFiles_fold_fields files
              (Config.mk ∅ ∅ false false "" ∅ ∅ None, [], ""))
    as (_ & _ & D & S & C & _ & _).
  cbn zeta in *. cbn [fst Config.DisableCheckpoint Config.DisableCheckpointSignature
                      Config.PluginCacheDir] in D, S, C.
  rewrite D, S, C, !orb_false_r. repeat split.
Qed.

Lemma mergeFiles_file_helper {I} (st : merge_state I) (f : configFile.t I) :
  let r := fst (fst st) in
  let st' := mergeFiles_file st f in
  Config.CredentialsHelper (fst (fst st')) =
    match Config.CredentialsHelper r with
    | Some h => Some h
    | None => head (configFile.CredentialsHelpers f)
    end /\
  exists extra,
    snd (fst st') = snd (fst st) ++ extra /\
    forallb tfdiags.is_error extra = true /\
    (extra = [] <->
     (length (configFile.CredentialsHelpers f)
      + match Config.CredentialsHelper r with Some _ => 1 | None => 0 end <= 1)%nat).
Proof.
  destruct st as [[r d] c]. unfold mergeFiles_file. cbn [fst snd].
  destruct (configFile.CredentialsHelpers f) as [|h [|h' hs]];
    destruct (Config.CredentialsHelper r) as [h0|]; cbn [fst snd length Nat.ltb Nat.leb head];
    (split; [reflexivity |]).
  - exists []. rewrite app_nil_r. repeat split; intros; lia.
  - exists []. rewrite app_nil_r. repeat split; intros; lia.
  - eexists [_]. repeat split; intros; [discriminate | lia].
  - exists []. rewrite app_nil_r. repeat split; intros; lia.
  - eexists [_; _]. rewrite <- app_assoc.
    repeat split; intros; [discriminate | cbn [length] in *; lia].
  - eexists [_]. repeat split; intros; [discriminate | cbn [length] in *; lia].
Qed.

Lemma mergeFiles_fold_helper {I} (files : list (configFile.t I)) :
  forall st : merge_state I,
    let r := fst (fst st) in
    let st' := fold_left mergeFiles_file files st in
    Config.CredentialsHelper (fst (fst st')) =
      match Config.CredentialsHelper r with
      | Some h => Some h
      | None => head (helper_blocks files)
      end /\
    exists extra,
      snd (fst st') = snd (fst st) ++ extra /\
      forallb tfdiags.is_error extra = true /\
      (extra = [] <->
       (length (helper_blocks files)
        + match Config.CredentialsHelper r with Some _ => 1 | None => 0 end <= 1)%nat).
Proof.
  unfold helper_blocks.
  induction files as [|f files IH]; intros st; cbn zeta.
  - cbn [fold_left map concat head length]. split.
    + destruct (Config.CredentialsHelper (fst (fst st))); reflexivity.
    + exists []. rewrite app_nil_r. repeat split; intros.
      destruct (Config.CredentialsHelper (fst (fst st))); cbn; lia.
  - cbn [fold_left map concat].
    destruct (IH (mergeFiles_file st f)) as (H & extra & D & E & N).
    destruct (mergeFiles_file_helper st f) as (H1 & extra1 & D1 & E1 & N1).
    cbn zeta in *. split.
    + rewrite H, H1.
      destruct (Config.CredentialsHelper (fst (fst st))); [reflexivity |].
      destruct (configFile.CredentialsHelpers f); reflexivity.
    + exists (extra1 ++ extra). rewrite D, D1, <- app_assoc. split; [reflexivity |].
      split; [rewrite forallb_app, E, E1; reflexivity |].
      rewrite H1 in N. rewrite length_app.
      split.
      * intros Hnil. apply app_eq_nil in Hnil as [Hn1 Hn].
        apply N1 in Hn1. apply N in Hn.
        destruct (Config.CredentialsHelper (fst (fst st)));
          destruct (configFile.CredentialsHelpers f); cbn [head length] in *; lia.
      * intros Hle.
        assert (extra1 = []) as ->.
        { apply N1.
          destruct (Config.CredentialsHelper (fst (fst st))); lia. }
        apply N.
        destruct (Config.CredentialsHelper (fst (fst st)));
          destruct (configFile.CredentialsHelpers f); cbn [head length] in *; lia.
Qed.

(** X20: the merged configuration has the first credentials helper block
    of the files, if there is any, and the merge reports an error exactly
    when the files have more than one such block between them; with one
    block or none there is no diagnostic at all. *)
Theorem mergeFiles_credentials_helper {I : Type} (files : list (configFile.t I)) :
  Config.CredentialsHelper (fst (mergeFiles files)) = head (helper_blocks files) /\
  tfdiags.HasErrors (snd (mergeFiles files)) =
    (1 <? length (helper_blocks files))%nat /\
  (snd (mergeFiles files) = [] <-> (length (helper_blocks files) <= 1)%nat).
Proof.
  rewrite mergeFiles_fst, mergeFiles_snd.
  destruct (mergeFiles_fold_helper files
              (Config.mk ∅ ∅ false false "" ∅ ∅ None, [], ""))
    as (H & extra & D & E & N).
  cbn zeta in *. cbn [fst snd Config.CredentialsHelper app] in H, D, N.
  rewrite H, D. rewrite Nat.add_0_r in N.
  split; [reflexivity |]. split; [| exact N].
  unfold tfdiags.HasErrors.
  destruct (1 <? length (helper_blocks files))%nat eqn:L.
  - apply Nat.ltb_lt in L.
    destruct extra as [|e extra].
    { assert ([] = @nil tfdiags.Diagnostic) as Hn by reflexivity.
      apply N in Hn. lia. }
    cbn [forallb existsb] in *. apply andb_true_iff in E as [-> _]. reflexivity.
  - apply Nat.ltb_ge in L. apply N in L. rewrite L. reflexivity.
Qed.

Lemma mergeFiles_file_environConfig {I} (st : merge_state I) environ :
  mergeFiles_file st (environConfig environ) =
  (let d := getEnv environ "TF_PLUGIN_CACHE_DIR" in
   if String.eqb d "" then fst (fst st)
   else with_PluginCacheDir d (fst (fst st)),
   snd (fst st), snd st).
Proof.
  destruct st as [[r d] c]. destruct r.
  unfold mergeFiles_file, environConfig, with_PluginCacheDir, set_each.
  cbn. destruct (String.eqb (getEnv environ "TF_PLUGIN_CACHE_DIR") "") eqn:E.
  - reflexivity.
  - rewrite E. reflexivity.
Qed.

(** X21: merged after other files, the file that [environConfig] builds
    changes the plugin cache directory only: a variable
    TF_PLUGIN_CACHE_DIR that is not empty replaces the directory that the
    files give, an empty or missing one leaves it, and every other
    setting and the diagnostics are those of the merge of the files. *)
Theorem environConfig_merged_last {I : Type} (files : list (configFile.t I))
  (environ : list string) :
  let merged := mergeFiles files in
  let d := getEnv environ "TF_PLUGIN_CACHE_DIR" in
  mergeFiles (files ++ [environConfig environ]) =
  (if String.eqb d "" then fst merged else with_PluginCacheDir d (fst merged),
   snd merged).
Proof.
  cbn zeta. unfold mergeFiles. rewrite fold_left_app. cbn [fold_left].
  rewrite mergeFiles_file_environConfig.
  destruct (fold_left mergeFiles_file files _) as [[r d] c].
  reflexivity.
Qed.

(** * Package cliconfig: loading the files *)

Lemma result_bind_Ok {A} (m : result A) : (a ← m; Ok a) = m.
Proof. destruct m; reflexivity. Qed.

Lemma fold_left_Panic {A B} (f : A -> B -> result A) (l : list B) p :
  fold_left (fun acc b => a ← acc; f a b) l (Panic p) = Panic p.
Proof. induction l as [|b l IH]; [reflexivity | exact IH]. Qed.

Lemma foldM_cons {A B} (f : A -> B -> result A) b l a :
  foldM f (b :: l) a = (a' ← f a b; foldM f l a').
Proof.
  unfold foldM. cbn [fold_left mbind result_bind].
  destruct (f a b) as [a'|p]; [reflexivity | apply fold_left_Panic].
Qed.

Lemma foldM_app {A B} (f : A -> B -> result A) (l1 l2 : list B) :
  forall a, foldM f (l1 ++ l2) a = (a' ← foldM f l1 a; foldM f l2 a').
Proof.
  induction l1 as [|b l1 IH]; intros a; [reflexivity |].
  rewrite <- app_comm_cons, !foldM_cons.
  destruct (f a b) as [a'|p]; [apply IH | reflexivity].
Qed.

Lemma foldM_ext {A B} (f g : A -> B -> result A) (l : list B) :
  (forall a b, f a b = g a b) -> forall a, foldM f l a = foldM g l a.
Proof.
  intros E. induction l as [|b l IH]; intros a; [reflexivity |].
  rewrite !foldM_cons, E. destruct (g a b); [apply IH | reflexivity].
Qed.

Lemma foldM_filter {A B} (P : B -> bool) (f : A -> B -> result A) (l : list B) :
  forall a, foldM (fun a b => if P b then f a b else Ok a) l a =
            foldM f (List.filter P l) a.
Proof.
  induction l as [|b l IH]; intros a; [reflexivity |].
  rewrite foldM_cons. cbn [List.filter]. destruct (P b).
  - rewrite foldM_cons. destruct (f a b); [apply IH | reflexivity].
  - apply IH.
Qed.

Lemma foldM_concat {A B C} (g : C -> list B) (f : A -> B -> result A)
  (l : list C) :
  forall a, foldM (fun a c => foldM f (g c) a) l a = foldM f (concat (map g l)) a.
Proof.
  induction l as [|c l IH]; intros a; [reflexivity |].
  rewrite foldM_cons. cbn [map concat]. rewrite foldM_app.
  destruct (foldM f (g c) a); [apply IH | reflexivity].
Qed.

Lemma mapM_step {A B} (f : A -> result B) x (l : list A) :
  mapM f (x :: l) = (v ← f x; vs ← mapM f l; Ok (v :: vs)).
Proof. reflexivity. Qed.

Lemma mapM_In_panic {A B} (f : A -> result B) (l : list A) x :
  In x l -> is_panic (f x) -> is_panic (mapM f l).
Proof.
  intros Hin [p Hp]. induction l as [|y l IH]; [contradiction |].
  rewrite mapM_step. destruct Hin as [-> | Hin].
  - rewrite Hp. exists p. reflexivity.
  - destruct (f y) as [v|q]; [| exists q; reflexivity].
    destruct (IH Hin) as [q Hq]. cbn [mbind result_bind].
    rewrite Hq. exists q. reflexivity.
Qed.

Section LoadConfig_facts.
Context {interface : Type}.
Variable hclFile : Type.
Variable ParseHCLFile : string -> result (option hclFile * tfdiags.Diagnostics).
Variable ParseJSONFile : string -> result (option hclFile * tfdiags.Diagnostics).
Variable decodeHCL :
  hclFile -> string -> list string -> tfdiags.Diagnostics ->
  result (option (configFile.t interface) * tfdiags.Diagnostics).
Variable loadConfigFileLegacyHCL :
  string -> list string ->
  result (option (configFile.t interface) * tfdiags.Diagnostics).
Variable Stat : string -> bool.
Variable ReadDir : string -> option (list string).
Variable Join : string -> string -> string.

Local Abbreviation load_file :=
  (loadConfigFile hclFile ParseHCLFile ParseJSONFile decodeHCL
                  loadConfigFileLegacyHCL).
Local Abbreviation load_1 :=
  (load_one hclFile ParseHCLFile ParseJSONFile decodeHCL loadConfigFileLegacyHCL).

Lemma load_one_eq environ allFiles diags fn :
  load_1 environ (allFiles, diags) fn =
  ('(f, moreDiags) ← load_file fn environ;
   if tfdiags.HasErrors moreDiags then Ok (allFiles, diags ++ moreDiags)
   else Ok (allFiles ++ [f], diags ++ moreDiags)).
Proof. reflexivity. Qed.

Lemma load_one_foldM environ (paths : list string) :
  forall acc,
    foldM (load_1 environ) paths acc =
    (results ← mapM (fun fn => load_file fn environ) paths;
     Ok (fst acc ++
           map fst (List.filter (fun r => negb (tfdiags.HasErrors (snd r))) results),
         snd acc ++ concat (map snd results))).
Proof.
  induction paths as [|fn paths IH]; intros [allFiles diags].
  - cbn. rewrite !app_nil_r. reflexivity.
  - rewrite foldM_cons, mapM_step, load_one_eq.
    destruct (load_file fn environ) as [[f moreDiags]|p]; [| reflexivity].
    cbn [mbind result_bind].
    destruct (tfdiags.HasErrors moreDiags) eqn:E; cbn [mbind result_bind];
      rewrite IH;
      (destruct (mapM (fun fn => load_file fn environ) paths) as [results|p];
       [| reflexivity]);
      cbn [mbind result_bind List.filter map concat fst snd];
      rewrite E; cbn [negb map fst snd].
    + rewrite <- app_assoc. reflexivity.
    + rewrite <- !app_assoc. reflexivity.
Qed.

Lemma load_all_mapM (configFiles configDirs environ : list string) :
  load_all hclFile ParseHCLFile ParseJSONFile decodeHCL loadConfigFileLegacyHCL
           Stat ReadDir Join configFiles configDirs environ =
  (results ← mapM (fun fn => load_file fn environ)
                  (config_paths Stat ReadDir Join configFiles configDirs);
   Ok (map fst (List.filter (fun r => negb (tfdiags.HasErrors (snd r))) results),
       concat (map snd results))).
Proof.
  rewrite <- (load_one_foldM environ _ ([], [])).
  unfold load_all, config_paths. rewrite foldM_filter, foldM_app.
  destruct (foldM (load_1 environ) (List.filter Stat configFiles) ([], []))
    as [acc|p]; [| reflexivity].
  cbn [mbind result_bind]. rewrite <- foldM_concat.
  apply foldM_ext. intros a dn.
  destruct (ReadDir dn) as [entries|]; [| reflexivity].
  revert a. induction entries as [|name entries IH]; intros a; [reflexivity |].
  rewrite foldM_cons. cbn [List.filter].
  destruct (configFileFormat name); cbn [map mbind result_bind];
    try (rewrite foldM_cons;
         destruct (load_1 environ a (Join dn name)); [apply IH | reflexivity]).
  apply IH.
Qed.

Lemma loadConfigFileHCL_invalid fn environ :
  configFileFormat fn = invalidFormat ->
  loadConfigFileHCL hclFile ParseHCLFile ParseJSONFile decodeHCL fn environ =
  Panic NilDereference.
Proof. intros H. unfold loadConfigFileHCL. rewrite H. reflexivity. Qed.

(** X22: [LoadConfig] hands to [loadConfigFile] the files that exist,
    then the entries of the readable directories that have the name of a
    configuration file, one after the other in this order, and stops at
    the first panic; when every load returns it has the diagnostics of
    all of them and, for the merge, the files whose diagnostics have no
    error. *)
Theorem load_all_paths (configFiles configDirs environ : list string) :
  load_all hclFile ParseHCLFile ParseJSONFile decodeHCL loadConfigFileLegacyHCL
           Stat ReadDir Join configFiles configDirs environ =
  (results ← mapM (fun fn => load_file fn environ)
                  (config_paths Stat ReadDir Join configFiles configDirs);
   Ok (map fst (List.filter (fun r => negb (tfdiags.HasErrors (snd r))) results),
       concat (map snd results))).
Proof. apply load_all_mapM. Qed.

(** X24: on a name that [configFileFormat] takes for no format,
    [loadConfigFileHCL] builds its diagnostic and then reads the body of
    the file it has not parsed: it panics on the nil pointer, whatever
    the parsers and decoders do, and so does [loadConfigFile]; and
    [LoadConfig] panics whenever such a name is among the paths it
    loads. *)
Theorem loadConfigFile_invalid_format (fn : string) (environ : list string) :
  configFileFormat fn = invalidFormat ->
  loadConfigFileHCL hclFile ParseHCLFile ParseJSONFile decodeHCL fn environ =
    Panic NilDereference /\
  load_file fn environ = Panic NilDereference /\
  forall configFiles configDirs,
    In fn (config_paths Stat ReadDir Join configFiles configDirs) ->
    is_panic (LoadConfig hclFile ParseHCLFile ParseJSONFile decodeHCL
                         loadConfigFileLegacyHCL Stat ReadDir Join
                         configFiles configDirs environ).
Proof.
  intros H.
  assert (Hfile : load_file fn environ = Panic NilDereference).
  { unfold loadConfigFile. rewrite (loadConfigFileHCL_invalid fn environ H).
    reflexivity. }
  split; [apply loadConfigFileHCL_invalid; exact H |].
  split; [exact Hfile |].
  intros configFiles configDirs Hin. unfold LoadConfig. rewrite load_all_mapM.
  destruct (mapM_In_panic (fun fn => load_file fn environ) _ fn Hin) as [p Hp].
  { exists NilDereference. exact Hfile. }
  rewrite Hp. exists p. reflexivity.
Qed.
End LoadConfig_facts.

Lemma loadConfigFile_invalid_format_witness :
  is_panic
    (LoadConfig (interface := unit) unit
                (fun _ => Ok (None, [])) (fun _ => Ok (None, []))
                (fun _ _ _ diags => Ok (None, diags)) (fun _ _ => Ok (None, []))
                (fun _ => true) (fun _ => None) String.append
                ["/home/user/.terraformrc"] [] []).
Proof.
  refine (proj2 (proj2 (loadConfigFile_invalid_format
                          unit (fun _ => Ok (None, [])) (fun _ => Ok (None, []))
                          (fun _ _ _ diags => Ok (None, diags))
                          (fun _ _ => Ok (None, []))
                          (fun _ => true) (fun _ => None) String.append
                          "/home/user/.terraformrc" [] _)) _ _ _).
  - reflexivity.
  - left. reflexivity.
Defined.

Lemma HasSuffix_eq s suffix :
  HasSuffix s suffix =
  (String.eqb s suffix ||
   match s with
   | EmptyString => false
   | String _ s' => HasSuffix s' suffix
   end)%bool.
Proof. destruct s; reflexivity. Qed.

Lemma HasSuffix_spec s suffix :
  HasSuffix s suffix = true <-> exists stem, s = (stem ++ suffix)%string.
Proof.
  split.
  - induction s as [|c s IH]; rewrite HasSuffix_eq; intros H;
      apply orb_true_iff in H as [H | H].
    + apply String.eqb_eq in H. exists "". rewrite append_nil. exact H.
    + discriminate.
    + apply String.eqb_eq in H. exists "". rewrite append_nil. exact H.
    + destruct (IH H) as [stem ->]. exists (String c stem).
      rewrite append_cons. reflexivity.
  - intros [stem ->]. induction stem as [|c stem IH].
    + rewrite append_nil, HasSuffix_eq, String.eqb_refl. reflexivity.
    + rewrite append_cons, HasSuffix_eq, IH. apply orb_true_r.
Qed.

Lemma length_string_append (s t : string) :
  String.length (s ++ t) = (String.length s + String.length t)%nat.
Proof.
  induction s as [|c s IH]; [rewrite append_nil; reflexivity |].
  rewrite append_cons. cbn [String.length]. rewrite IH. reflexivity.
Qed.

Lemma json_name_not_hcl stem :
  HasSuffix (stem ++ ".tfrc.json") ".tfrc" = false.
Proof.
  induction stem as [|c stem IH]; [rewrite append_nil; reflexivity |].
  rewrite append_cons, HasSuffix_eq, IH, orb_false_r.
  apply String.eqb_neq. intros H.
  apply (f_equal String.length) in H. cbn [String.length] in H.
  rewrite length_string_append in H. cbn [String.length] in H. lia.
Qed.

(** X23: [configFileFormat] goes by the end of the name: a name without a
    slash is in the native syntax exactly when it ends in .tfrc and in
    the JSON syntax exactly when it ends in .tfrc.json; the two never
    meet, and a name with a slash has no format. *)
Theorem configFileFormat_by_suffix (fn : string) :
  (configFileFormat fn = hclFormat <->
   IndexByte fn "/"%char = None /\ exists stem, fn = (stem ++ ".tfrc")%string) /\
  (configFileFormat fn = jsonFormat <->
   IndexByte fn "/"%char = None /\ exists stem, fn = (stem ++ ".tfrc.json")%string).
Proof.
  unfold configFileFormat, Match_star.
  destruct (IndexByte fn "/"%char) as [i|] eqn:Hi.
  - rewrite !andb_false_r.
    split; (split; [discriminate | intros [? _]; discriminate]).
  - rewrite !andb_true_r.
    destruct (HasSuffix fn ".tfrc") eqn:Hh.
    + split; split.
      * intros _. split; [reflexivity |]. apply HasSuffix_spec. exact Hh.
      * reflexivity.
      * discriminate.
      * intros [_ [stem ->]]. rewrite json_name_not_hcl in Hh. discriminate.
    + destruct (HasSuffix fn ".tfrc.json") eqn:Hj.
      * split; split.
        -- discriminate.
        -- intros [_ Hs]. apply HasSuffix_spec in Hs. congruence.
        -- intros _. split; [reflexivity |]. apply HasSuffix_spec. exact Hj.
        -- reflexivity.
      * split; split.
        -- discriminate.
        -- intros [_ Hs]. apply HasSuffix_spec in Hs. congruence.
        -- discriminate.
        -- intros [_ Hs]. apply HasSuffix_spec in Hs. congruence.
Qed.
